(** * Token registry, balance cache and wallet controller of the web3 library

    A shallow embedding of
      - [src/types/mixed.ts]               (the data model),
      - [src/contexts/WithTokenList.tsx]   (token-list ingestion, registry),
      - [src/hooks/useBalances.monochain.ts] (balance cache and refreshes),
      - [src/contexts/useWallet.tsx]       (safe look-ups, refresh with list),
    followed by the properties of the specification that concern them.

    JavaScript objects used as dictionaries are finite maps ([gmap]), and
    lists of entries where the order of [Object.values] shows in a result;
    a statement that can raise a [TypeError] returns a [Completion]; React
    state and the [useRef] cell are threaded explicitly, and an [await]
    lets the other callbacks at them. *)

From stdpp Require Import base option list gmap strings fin_maps numbers.
From Stdlib Require Import ZArith Lia Ascii.

Local Open Scope Z_scope.
Local Open Scope string_scope.
Local Open Scope list_scope.

(* ===================================================================== *)
(** ** JavaScript values                                                  *)
(* ===================================================================== *)

(** A value of the TypeScript type [number | undefined], as the chain
    identifiers of this library are: an integer, [NaN], or [undefined]
    (a field that is absent from a JSON document reads as [undefined]).
    The same type names the property such a value selects when it indexes
    an object: [o[v]] reads the property [String(v)], and [String] is
    injective on these values. *)
Inductive JsNum : Type :=
  | JNum (z : Z)
  | JNaN
  | JUndef.

#[global] Instance JsNum_eq_dec : EqDecision JsNum.
Proof. solve_decision. Defined.

Definition JsNum_encode (v : JsNum) : Z + bool :=
  match v with JNum z => inl z | JNaN => inr false | JUndef => inr true end.
Definition JsNum_decode (s : Z + bool) : JsNum :=
  match s with inl z => JNum z | inr false => JNaN | inr true => JUndef end.

#[global] Instance JsNum_countable : Countable JsNum.
Proof.
  apply (inj_countable' JsNum_encode JsNum_decode).
  by intros [z| |].
Defined.

(** [Number(key)] on a property name that came from a [JsNum]:
    ["undefined"] and ["NaN"] both parse to [NaN]. *)
Definition Number_of_key (k : JsNum) : JsNum :=
  match k with JNum z => JNum z | JNaN | JUndef => JNaN end.

(** [a !== b]: [NaN] differs from everything, itself included. *)
Definition strict_neq (a b : JsNum) : bool :=
  match a, b with
  | JNum x, JNum y => negb (bool_decide (x = y))
  | JUndef, JUndef => false
  | _, _ => true
  end.

(** Truthiness of a number: [0], [NaN] and [undefined] are falsy. *)
Definition truthy (v : JsNum) : bool :=
  match v with JNum z => negb (bool_decide (z = 0)) | JNaN | JUndef => false end.

(** [a || b] *)
Definition js_or (a b : JsNum) : JsNum := if truthy a then a else b.

(** [a ?? b] *)
Definition nullish (a b : JsNum) : JsNum :=
  match a with JUndef => b | _ => a end.

(** The outcome of running statements that may throw. *)
Inductive Completion (A : Type) : Type :=
  | Returns (a : A)
  | Throws (error : string).
Arguments Returns {A} a.
Arguments Throws {A} error.

Definition bindC {A B} (c : Completion A) (k : A → Completion B) : Completion B :=
  match c with Returns a => k a | Throws e => Throws e end.

Notation "x ←! c ;; k" := (bindC c (λ x, k))
  (at level 100, c at next level, right associativity).

(** [TDict<T>] and [TNDict<T>] of [types/mixed.ts]. *)
Abbreviation TDict T := (gmap string T) (only parsing).
Abbreviation TNDict T := (gmap JsNum T) (only parsing).

(** [m?.[k]?.[a]] *)
Definition lookup2 {T} (m : TNDict (TDict T)) (k : JsNum) (a : string) : option T :=
  m !! k ≫= (.!! a).

(** [{...x, ...y}] on dictionaries: the properties of [y] win. *)
Definition spread {K} `{Countable K} {T} (x y : gmap K T) : gmap K T := y ∪ x.

(* ===================================================================== *)
(** ** types/mixed.ts                                                     *)
(* ===================================================================== *)

(** [TNormalizedBN]. [normalized] is a JavaScript number; the only values
    this development builds are integers. *)
Record TNormalizedBN : Type := {
  raw : Z;
  normalized : Z;
  display : string
}.

(** [TToken], with the [price] member the providers write. *)
Record TToken : Type := {
  address : string;
  name : string;
  symbol : string;
  decimals : Z;
  chainID : JsNum;
  logoURI : option string;
  value : Z;
  price : option TNormalizedBN;
  balance : TNormalizedBN
}.

Abbreviation TChainTokens := (gmap JsNum (gmap string TToken)) (only parsing).

(** An element of [TTokenList['tokens']] as the providers read it: the
    documents spell the chain either [chainId] or [chainID]. *)
Record TTokenListToken : Type := {
  tl_address : string;
  tl_name : string;
  tl_symbol : string;
  tl_decimals : Z;
  tl_chainId : JsNum;
  tl_chainID : JsNum;
  tl_logoURI : option string
}.

(** [TUseBalancesTokens] of the balances hook. *)
Record TUseBalancesTokens : Type := {
  ub_address : string;
  ub_chainID : JsNum;
  ub_decimals : option Z;
  ub_name : option string;
  ub_symbol : option string
}.

(** [TDefaultStatus]. *)
Record TDefaultStatus : Type := {
  isFetching : bool;
  isFetched : bool;
  isRefetching : bool;
  isLoading : bool;
  isSuccess : bool;
  isError : bool
}.

(* ===================================================================== *)
(** ** utils (not among the sources)                                      *)
(* ===================================================================== *)

(** [toAddress] of [utils/tools.address]: the address normalizer. Its
    source is not available; everything below is stated for an arbitrary
    normalizer. [toAddress None] is the call [toAddress()]. *)
Class AddressTools := toAddress : option string → string.

(** Modelled from the spec: [zeroNormalizedBN] of [utils] is missing; the
    spec documents it as the zero-value entry, raw = 0 and normalized = 0. *)
Definition zeroNormalizedBN : TNormalizedBN :=
  {| raw := 0; normalized := 0; display := "0" |}.

(** Modelled from the spec: [toNormalizedBN] of [utils/format] is missing;
    only [toNormalizedBN(0)] is used here, the normalized form of zero. *)
Definition toNormalizedBN_0 : TNormalizedBN := zeroNormalizedBN.

(** Modelled from the spec: [isZeroAddress] of [utils/tools.is] is missing;
    an address is the zero address when it normalizes to the zero-address
    sentinel, which is what [toAddress()] returns. *)
Definition isZeroAddress `{AddressTools} (a : option string) : bool :=
  bool_decide (toAddress a = toAddress None).

(* ===================================================================== *)
(** ** contexts/WithTokenList.tsx                                         *)
(* ===================================================================== *)

Module WithTokenList.
Section provider.
Context `{AddressTools}.

(** The token object the three ingestion loops build (lines 83-93,
    119-129, 153-163); [chain] is what the loop writes to [chainID]. *)
Definition mkToken (eachToken : TTokenListToken) (chain : JsNum) : TToken :=
  {| address := tl_address eachToken;
     name := tl_name eachToken;
     symbol := tl_symbol eachToken;
     decimals := tl_decimals eachToken;
     chainID := chain;
     logoURI := tl_logoURI eachToken;
     value := 0;
     price := Some toNormalizedBN_0;
     balance := toNormalizedBN_0 |}.

(** One turn of an ingestion loop: create the chain's dictionary when it
    is missing, then store the token unless the slot is already taken. *)
Definition ingestToken (key chain : JsNum)
    (tokenListTokens : TNDict (TDict TToken)) (eachToken : TTokenListToken)
    : TNDict (TDict TToken) :=
  let withChain :=
    match tokenListTokens !! key with
    | Some _ => tokenListTokens
    | None => <[key := ∅]> tokenListTokens
    end in
  let perChain := default ∅ (withChain !! key) in
  let a := toAddress (Some (tl_address eachToken)) in
  match perChain !! a with
  | Some _ => withChain
  | None => <[key := <[a := mkToken eachToken chain]> perChain]> withChain
  end.

(** Lines 78-95: the base lists index and label with [chainId] only. *)
Definition ingestBase (acc : TNDict (TDict TToken)) (t : TTokenListToken) :=
  ingestToken (tl_chainId t) (tl_chainId t) acc t.

(** Lines 114-131: extra lists index with [chainId ?? chainID] and label
    with [chainID ?? chainId]. *)
Definition ingestExtra (acc : TNDict (TDict TToken)) (t : TTokenListToken) :=
  ingestToken (nullish (tl_chainId t) (tl_chainID t))
              (nullish (tl_chainID t) (tl_chainId t)) acc t.

(** Lines 147-165: individual tokens index and label with
    [chainID ?? chainId]. *)
Definition ingestCustom (acc : TNDict (TDict TToken)) (t : TTokenListToken) :=
  ingestToken (nullish (tl_chainID t) (tl_chainId t))
              (nullish (tl_chainID t) (tl_chainId t)) acc t.

(** The body of a fetched document: [tokens] is [None] when the document
    has no iterable [tokens] member (an empty object, an error payload,
    or the raw text axios hands over when the body is not JSON). *)
Record Document : Type := { tokens : option (list TTokenListToken) }.

(** An entry of [Promise.allSettled]. *)
Inductive Settled : Type :=
  | Fulfilled (data : Document)
  | Rejected.

(** Lines 67-75: gather the tokens of the fulfilled responses.
    [tokens.push(...undefined)] throws. *)
Fixpoint gatherTokens (responses : list Settled) (acc : list TTokenListToken)
    : Completion (list TTokenListToken) :=
  match responses with
  | [] => Returns acc
  | Rejected :: rest => gatherTokens rest acc
  | Fulfilled data :: rest =>
      match tokens data with
      | Some ts => gatherTokens rest (acc ++ ts)
      | None => Throws "TypeError: tokens is not iterable"
      end
  end.

(** Lines 62-97, first trigger: the value handed to [set_tokenList], when
    the body reaches that call. *)
Definition loadBaseLists (responses : list Settled)
    : Completion (TNDict (TDict TToken)) :=
  toks ←! gatherTokens responses [] ;;
  Returns (foldl ingestBase ∅ toks).

(** Lines 104-135, second trigger: one URI after the other. *)
Fixpoint loadExtraListsFrom (responses : list Settled)
    (tokenListTokens : TNDict (TDict TToken))
    : Completion (TNDict (TDict TToken)) :=
  match responses with
  | [] => Returns tokenListTokens
  | Rejected :: rest => loadExtraListsFrom rest tokenListTokens
  | Fulfilled data :: rest =>
      match tokens data with
      | Some ts => loadExtraListsFrom rest (foldl ingestExtra tokenListTokens ts)
      | None => Throws "TypeError: tokens is not iterable"
      end
  end.

Definition loadExtraLists (responses : list Settled) :=
  loadExtraListsFrom responses ∅.

(** Lines 141-168, third trigger: [None] when [set_tokenListCustom] is not
    called ([extraTokens] undefined or empty). *)
Definition loadExtraTokens (extraTokens : option (list TTokenListToken))
    : option (TNDict (TDict TToken)) :=
  match extraTokens with
  | None => None
  | Some ts =>
      if bool_decide (0 < length ts)%nat
      then Some (foldl ingestCustom ∅ ts)
      else None
  end.

(** The three pieces of provider state (lines 51-53). *)
Record State : Type := {
  tokenList : TNDict (TDict TToken);
  tokenListExtra : TNDict (TDict TToken);
  tokenListCustom : TNDict (TDict TToken)
}.

Definition initialState : State :=
  {| tokenList := ∅; tokenListExtra := ∅; tokenListCustom := ∅ |}.

(** A trigger whose body throws leaves the state as it was: the setter
    is its last statement. *)
Definition runBaseTrigger (responses : list Settled) (s : State) : State :=
  match loadBaseLists responses with
  | Returns t => {| tokenList := t; tokenListExtra := tokenListExtra s;
                    tokenListCustom := tokenListCustom s |}
  | Throws _ => s
  end.

Definition runExtraTrigger (responses : list Settled) (s : State) : State :=
  match loadExtraLists responses with
  | Returns t => {| tokenList := tokenList s; tokenListExtra := t;
                    tokenListCustom := tokenListCustom s |}
  | Throws _ => s
  end.

Definition runCustomTrigger (extraTokens : option (list TTokenListToken))
    (s : State) : State :=
  match loadExtraTokens extraTokens with
  | Some t => {| tokenList := tokenList s; tokenListExtra := tokenListExtra s;
                 tokenListCustom := t |}
  | None => s
  end.

(** Lines 252-260: [addCustomToken] writes into the custom tokens in
    place, over whatever the slot holds. *)
Definition addCustomToken (token : TToken) (s : State) : State :=
  let previous := tokenListCustom s in
  let withChain :=
    match previous !! chainID token with
    | Some _ => previous
    | None => <[chainID token := ∅]> previous
    end in
  {| tokenList := tokenList s; tokenListExtra := tokenListExtra s;
     tokenListCustom :=
       <[chainID token := <[toAddress (Some (address token)) := token]>
                            (default ∅ (withChain !! chainID token))]> withChain |}.

(** Lines 180-182: [for (eachToken of Object.values(perChain))
    aggregated[chain][toAddress(eachToken.address)] = eachToken]. The
    dictionaries the triggers build hold every token at the normal form of
    its address, and then the order of the loop does not matter. *)
Definition copyTokens (perChain : TDict TToken) (into : TDict TToken) : TDict TToken :=
  map_fold (λ _ eachToken acc, <[toAddress (Some (address eachToken)) := eachToken]> acc)
           into perChain.

(** Lines 176-183: one turn of the loop over [Object.keys(list)]. The
    chain is read back with [Number(eachChainID)];
    [Object.values(undefined)] throws. *)
Definition aggregateChain (list : TNDict (TDict TToken)) (eachChainID : JsNum)
    (aggregated : TNDict (TDict TToken)) : Completion (TNDict (TDict TToken)) :=
  let k := Number_of_key eachChainID in
  let withChain :=
    match aggregated !! k with
    | Some _ => aggregated
    | None => <[k := ∅]> aggregated
    end in
  match list !! k with
  | None => Throws "TypeError: Cannot convert undefined or null to object"
  | Some perChain =>
      Returns (<[k := copyTokens perChain (default ∅ (withChain !! k))]> withChain)
  end.

Definition aggregateList (list : TNDict (TDict TToken))
    (aggregated : Completion (TNDict (TDict TToken)))
    : Completion (TNDict (TDict TToken)) :=
  map_fold (λ eachChainID _ acc, a ←! acc ;; aggregateChain list eachChainID a)
           aggregated list.

(** Lines 174-203. *)
Definition aggregatedTokenList (s : State) : Completion (TNDict (TDict TToken)) :=
  aggregateList (tokenListCustom s)
    (aggregateList (tokenListExtra s)
      (aggregateList (tokenList s) (Returns ∅))).

(** Lines 217-226. *)
Definition getToken (aggregated : TNDict (TDict TToken))
    (address : string) (chainID : JsNum) : option TToken :=
  lookup2 aggregated chainID (toAddress (Some address)).

End provider.
End WithTokenList.

(* ===================================================================== *)
(** ** hooks/useBalances.monochain.ts                                     *)
(* ===================================================================== *)

Module UseBalances.
Section hook.
Context `{AddressTools}.

(** [getBalances] of [hooks/useBalances.multichains] is not among the
    sources: the balance read service. It answers a chain, an owner and a
    batch of tokens with a dictionary and, possibly, an error. *)
Variable getBalances :
  JsNum → option string → list TUseBalancesTokens → TDict TToken * option string.

(** [TDataRef], the content of the [useRef] cell. Nonces stay far below
    2^53, where [+= 1] on a JavaScript number is exact. *)
Record TDataRef : Type := {
  ref_nonce : Z;
  ref_address : string;
  ref_balances : TChainTokens
}.

(** What the hook keeps between renders (lines 66-69). *)
Record Hook : Type := {
  data : TDataRef;
  balances : TChainTokens;
  status : TDefaultStatus;
  error : option string
}.

Definition defaultStatus : TDefaultStatus :=
  {| isLoading := false; isFetching := false; isSuccess := false;
     isError := false; isFetched := false; isRefetching := false |}.

Definition loadingStatus : TDefaultStatus :=
  {| isLoading := true; isFetching := true; isSuccess := false;
     isError := false; isFetched := false; isRefetching := isFetched defaultStatus |}.

Definition successStatus : TDefaultStatus :=
  {| isLoading := false; isFetching := false; isSuccess := true;
     isError := false; isFetched := true; isRefetching := false |}.

Definition initialHook : Hook :=
  {| data := {| ref_nonce := 0; ref_address := toAddress None; ref_balances := ∅ |};
     balances := ∅; status := defaultStatus; error := None |}.

Definition set_data (d : TDataRef) (h : Hook) : Hook :=
  {| data := d; balances := balances h; status := status h; error := error h |}.
Definition set_balances (f : TChainTokens → TChainTokens) (h : Hook) : Hook :=
  {| data := data h; balances := f (balances h); status := status h; error := error h |}.
Definition set_status (s : TDefaultStatus) (h : Hook) : Hook :=
  {| data := data h; balances := balances h; status := s; error := error h |}.
Definition set_error (e : option string) (h : Hook) : Hook :=
  {| data := data h; balances := balances h; status := status h; error := e |}.

(** [{...old, ...element}] on token objects: every member of [element]
    wins; an optional member [element] lacks is inherited from [old]. *)
Definition spreadToken (old : option TToken) (element : TToken) : TToken :=
  match old with
  | None => element
  | Some o =>
      {| address := address element; name := name element;
         symbol := symbol element; decimals := decimals element;
         chainID := chainID element;
         logoURI := match logoURI element with Some u => Some u | None => logoURI o end;
         value := value element;
         price := match price element with Some p => Some p | None => price o end;
         balance := balance element |}
  end.

(** Lines 74-81 (again 164-171 and 254-261): a different owner empties the
    cell, nonce included. [owner] is the normalized address. *)
Definition adoptOwner (owner : string) (d : TDataRef) : TDataRef :=
  let d' :=
    if bool_decide (owner ≠ ref_address d)
    then {| ref_nonce := 0; ref_address := owner; ref_balances := ∅ |}
    else d in
  {| ref_nonce := ref_nonce d'; ref_address := owner; ref_balances := ref_balances d' |}.

(** Lines 84-90 (again 178-184 and 269-275). *)
Definition storeEntry (chainID : Z) (a : string) (element : TToken)
    (cache : TChainTokens) : TChainTokens :=
  let withChain :=
    match cache !! JNum chainID with
    | Some _ => cache
    | None => <[JNum chainID := ∅]> cache
    end in
  let perChain := default ∅ (withChain !! JNum chainID) in
  <[JNum chainID := <[a := spreadToken (perChain !! a) element]> perChain]> withChain.

(** Lines 173-176 (again 264-267). *)
Definition recordEntry (chainID : Z) (a : string) (element : TToken)
    (updated : TChainTokens) : TChainTokens :=
  let withChain :=
    match updated !! JNum chainID with
    | Some _ => updated
    | None => <[JNum chainID := ∅]> updated
    end in
  <[JNum chainID := <[a := element]> (default ∅ (withChain !! JNum chainID))]> withChain.

Definition bump (d : TDataRef) (cache : TChainTokens) : TDataRef :=
  {| ref_nonce := ref_nonce d + 1; ref_address := ref_address d; ref_balances := cache |}.

(** Lines 94-102 (again 189-197): the state updater. It is run at once,
    that is a render separates two merges. *)
Definition publishChain (chainID : Z) (cache : TChainTokens) (b : TChainTokens)
    : TChainTokens :=
  <[JNum chainID := spread (default ∅ (b !! JNum chainID))
                           (default ∅ (cache !! JNum chainID))]> b.

(** Lines 72-106. Returns the new hook and [data.current.balances]. *)
Definition updateBalancesCall (currentUserAddress : string) (chainID : Z)
    (newRawData : TDict TToken) (h : Hook) : Hook * TChainTokens :=
  let d := adoptOwner (toAddress (Some currentUserAddress)) (data h) in
  let cache := map_fold (storeEntry chainID) (ref_balances d) newRawData in
  let h' := set_balances (publishChain chainID cache) (set_data (bump d cache) h) in
  (h', cache).

(** Lines 134-149 (again 222-241 and 310-325): keep the tokens of the
    active chain, once per normalized address. [alreadyAdded] is the set of
    addresses seen. *)
Fixpoint tokensOfChain (chainID : Z) (alreadyAdded : gset string)
    (tokens : list TUseBalancesTokens) : list TUseBalancesTokens :=
  match tokens with
  | [] => []
  | token :: rest =>
      if strict_neq (ub_chainID token) (JNum chainID)
      then tokensOfChain chainID alreadyAdded rest
      else
        let a := toAddress (Some (ub_address token)) in
        if bool_decide (a ∈ alreadyAdded)
        then tokensOfChain chainID alreadyAdded rest
        else token :: tokensOfChain chainID ({[a]} ∪ alreadyAdded) rest
  end.

(** Lines 153-156: [for (i = 0; i < tokens.length; i += size)
    chunks.push(tokens.slice(i, i + size))]. The loop runs at most
    [length tokens] times, which is the fuel. *)
Fixpoint chunksFrom {A} (fuel : nat) (size : nat) (tokens : list A) : list (list A) :=
  match fuel with
  | O => []
  | S fuel' =>
      match tokens with
      | [] => []
      | _ => take size tokens :: chunksFrom fuel' size (drop size tokens)
      end
  end.

Definition chunksOf {A} (size : nat) (tokens : list A) : list (list A) :=
  chunksFrom (length tokens) size tokens.

(** A call of the balance read service. *)
Record Call : Type := {
  call_chain : JsNum;
  call_owner : option string;
  call_tokens : list TUseBalancesTokens
}.

(** What a refresh does with the read service, in the order it does it:
    it issues a call and, later, takes up the answer. *)
Inductive Event : Type :=
  | Issued (call : Call)
  | Answered (call : Call).

(** What a refresh carries from one batch to the next. *)
Record Progress : Type := {
  hook : Hook;
  updated : TChainTokens;
  calls : list Call;
  events : list Event
}.

(** What the other callbacks of the hook (merges of the automatic refresh,
    batches of another refresh, state updaters) make of the hook while a
    call is awaited: [during i] runs while the call of batch [i] is
    awaited. *)
Definition Interference : Type := nat → Hook → Hook.

(** Nothing else runs. *)
Definition quiet : Interference := λ _ h, h.

(** [await]: the other callbacks run before the function goes on. The
    local variables of the function are out of their reach. *)
Definition awaited (during : Hook → Hook) (p : Progress) : Progress :=
  {| hook := during (hook p); updated := updated p; calls := calls p;
     events := events p |}.

(** Line 159 (again 250), up to the [await]: the call of a batch is issued.
    Its arguments are fixed from here on. [ownerArg] is the owner as passed
    to the service. *)
Definition issueCall (ownerArg : option string) (chainID : Z)
    (p : Progress) (chunkTokens : list TUseBalancesTokens) : Progress :=
  let call := {| call_chain := js_or (JNum chainID) (JNum 1); call_owner := ownerArg;
                 call_tokens := chunkTokens |} in
  {| hook := hook p; updated := updated p;
     calls := calls p ++ [call];
     events := events p ++ [Issued call] |}.

(** Lines 159-186 (again 250-277), from the [await] on: the answer of the
    call is taken up and merged. [p] holds the hook as it is then. *)
Definition takeAnswer (ownerArg userAddress : option string) (chainID : Z)
    (p : Progress) (chunkTokens : list TUseBalancesTokens) : Progress :=
  let chainArg := js_or (JNum chainID) (JNum 1) in
  let call := {| call_chain := chainArg; call_owner := ownerArg;
                 call_tokens := chunkTokens |} in
  let '(newRawData, err) := getBalances chainArg ownerArg chunkTokens in
  let h1 := match err with Some e => set_error (Some e) (hook p) | None => hook p end in
  let d := adoptOwner (toAddress userAddress) (data h1) in
  let '(updated', cache) :=
    map_fold (λ a element '(u, c), (recordEntry chainID a element u,
                                    storeEntry chainID a element c))
             (updated p, ref_balances d) newRawData in
  {| hook := set_data (bump d cache) h1;
     updated := updated';
     calls := calls p;
     events := events p ++ [Answered call] |}.

(** One batch when nothing runs while its call is awaited. *)
Definition fetchChunk (ownerArg userAddress : option string) (chainID : Z)
    (p : Progress) (chunkTokens : list TUseBalancesTokens) : Progress :=
  takeAnswer ownerArg userAddress chainID
    (issueCall ownerArg chainID p chunkTokens) chunkTokens.

(** Lines 158-187 (again 249-278): the batches, one after the other. The
    call of a batch is issued when the batch before it has been merged, and
    it is awaited: the other callbacks run before its answer is taken up.
    [i] is the number of the first batch. *)
Fixpoint fetchChunks (during : Interference) (ownerArg userAddress : option string)
    (chainID : Z) (i : nat) (p : Progress) (chunks : list (list TUseBalancesTokens))
    : Progress :=
  match chunks with
  | [] => p
  | chunkTokens :: rest =>
      fetchChunks during ownerArg userAddress chainID (S i)
        (takeAnswer ownerArg userAddress chainID
           (awaited (during i) (issueCall ownerArg chainID p chunkTokens))
           chunkTokens)
        rest
  end.

(** Lines 114-202. [tokenList] is [deserialize(stringifiedTokens)]. The
    [chunks] of lines 127-130 (slices of 5000) are never read and are left
    out. *)
Definition onUpdate (during : Interference) (userAddress : option string)
    (chainID : Z) (tokenList : list TUseBalancesTokens) (h : Hook) : Progress :=
  let tokens := filter (λ t, isZeroAddress (Some (ub_address t)) = false) tokenList in
  if bool_decide (length tokens = 0%nat)
  then {| hook := h; updated := ∅; calls := []; events := [] |}
  else
    let h1 := set_status loadingStatus h in
    match tokensOfChain chainID ∅ tokens with
    | [] => {| hook := h1; updated := ∅; calls := []; events := [] |}
    | perChain =>
        let p := fetchChunks during userAddress userAddress chainID 0
                   {| hook := h1; updated := ∅; calls := []; events := [] |}
                   (chunksOf 500 perChain) in
        let cache := ref_balances (data (hook p)) in
        {| hook := set_status successStatus
                     (set_balances (publishChain chainID cache) (hook p));
           updated := updated p; calls := calls p; events := events p |}
    end.

(** Lines 281-287: publish every chain of the cell. *)
Definition publishAll (cache : TChainTokens) (previous : TChainTokens) : TChainTokens :=
  map_fold (λ chainID chainData acc,
              <[Number_of_key chainID :=
                  spread (default ∅ (acc !! Number_of_key chainID)) chainData]> acc)
           previous cache.

(** Lines 209-292. *)
Definition onUpdateSome (during : Interference) (userAddress : option string)
    (chainID : Z) (tokenList : list TUseBalancesTokens) (h : Hook) : Progress :=
  let h1 := set_status loadingStatus h in
  let tokens := filter (λ t, isZeroAddress (Some (ub_address t)) = false) tokenList in
  let perChain := tokensOfChain chainID ∅ tokens in
  let p := fetchChunks during (Some (toAddress userAddress)) userAddress chainID 0
             {| hook := h1; updated := ∅; calls := []; events := [] |}
             (chunksOf 500 perChain) in
  let cache := ref_balances (data (hook p)) in
  {| hook := set_status successStatus (set_balances (publishAll cache) (hook p));
     updated := updated p; calls := calls p; events := events p |}.

(** Lines 333-340: a batch of the automatic refresh and its [then]
    callback. The service gets [chainID] and [userAddress] as they are. *)
Definition triggerChunk (userAddress : option string) (chainID : Z)
    (p : Progress) (chunkTokens : list TUseBalancesTokens) : Progress :=
  let call := {| call_chain := JNum chainID; call_owner := userAddress;
                 call_tokens := chunkTokens |} in
  let '(newRawData, err) := getBalances (JNum chainID) userAddress chunkTokens in
  let '(h', _) := updateBalancesCall (toAddress userAddress) chainID newRawData (hook p) in
  {| hook := set_error err h';
     updated := updated p;
     calls := calls p ++ [call];
     events := events p ++ [Answered call] |}.

(** Lines 299-345, the automatic refresh. [tokens] is
    [JSON.parse(stringifiedTokens)]. The batches are all issued before any
    answer is awaited; the callbacks are run here in the order of issue. *)
Definition refreshTrigger (userAddress : option string) (chainID : Z)
    (tokens : list TUseBalancesTokens) (h : Hook) : Progress :=
  let h1 := set_status loadingStatus h in
  let perChain := tokensOfChain chainID ∅ tokens in
  let issued :=
    (λ chunkTokens, Issued {| call_chain := JNum chainID; call_owner := userAddress;
                              call_tokens := chunkTokens |})
      <$> chunksOf 500 perChain in
  let p := foldl (triggerChunk userAddress chainID)
                 {| hook := h1; updated := ∅; calls := []; events := issued |}
                 (chunksOf 500 perChain) in
  {| hook := set_status successStatus (hook p); updated := updated p; calls := calls p;
     events := events p |}.

End hook.
End UseBalances.

(* ===================================================================== *)
(** ** contexts/useWallet.tsx                                             *)
(* ===================================================================== *)

Module UseWallet.
Section controller.
Context `{AddressTools}.

(** [ETH_TOKEN_ADDRESS] of [utils/constants] and [DEFAULT_ERC20] of [utils],
    the default token, are not among the sources. *)
Variable ETH_TOKEN_ADDRESS : string.
Variable DEFAULT_ERC20 : TToken.

(** The two refresh operations of the balances hook in use, as the
    mappings their promises resolve to. *)
Variable onUpdate : TChainTokens.
Variable onUpdateSome : list TUseBalancesTokens → TChainTokens.

(** [TWrappedChainToken] of [utils/wagmi/utils.ts], the members read here. *)
Record TWrappedChainToken : Type := {
  wt_decimals : Z;
  wt_coinName : string;
  wt_coinSymbol : string
}.

(** A dictionary as [Object.values] goes through it: its entries in the
    order JavaScript lists them, which for keys that are not array indices,
    as addresses are, is the order in which they were inserted. The keys of
    an object are pairwise different; nothing below needs it. *)
Definition TListedDict (T : Type) : Type := list (string * T).

(** [Object.values(dict)] *)
Definition Object_values {T} (dict : TListedDict T) : list T := dict.*2.

(** Lines 59-65 and 119-125. *)
Definition toBalancesToken (token : TToken) : TUseBalancesTokens :=
  {| ub_address := toAddress (Some (address token));
     ub_chainID := chainID token;
     ub_decimals := Some (decimals token);
     ub_name := Some (name token);
     ub_symbol := Some (symbol token) |}.

(** Lines 55-79. *)
Definition availableTokens (currentNetworkTokenList : TListedDict TToken)
    (safeChainID : Z) (wrappedToken : option TWrappedChainToken)
    : list TUseBalancesTokens :=
  let tokens := toBalancesToken <$> Object_values currentNetworkTokenList in
  match wrappedToken with
  | Some w =>
      tokens ++ [{| ub_address := toAddress (Some ETH_TOKEN_ADDRESS);
                    ub_chainID := JNum safeChainID;
                    ub_decimals := Some (wt_decimals w);
                    ub_name := Some (wt_coinName w);
                    ub_symbol := Some (wt_coinSymbol w) |}]
  | None => tokens
  end.

(** Which operation of the hook a refresh ran. *)
Inductive Request : Type :=
  | UpdateSome (tokens : list TUseBalancesTokens)
  | UpdateAll.

(** Lines 94-107: the operation run, whether the tokens are appended to the
    stored extra tokens, and the mapping returned. *)
Definition onRefresh (tokenToUpdate : option (list TUseBalancesTokens))
    (shouldSaveInStorage : bool) : Request * bool * TChainTokens :=
  match tokenToUpdate with
  | Some (t :: rest) =>
      (UpdateSome (t :: rest), shouldSaveInStorage, onUpdateSome (t :: rest))
  | _ => (UpdateAll, false, onUpdate)
  end.

(** Line 128: [availableTokens.find(a => a.address === token.address)] *)
Definition findAvailable (available : list TUseBalancesTokens)
    (token : TUseBalancesTokens) : option TUseBalancesTokens :=
  List.find (λ availableToken,
               bool_decide (ub_address availableToken = ub_address token))
            available.

(** Lines 127-129. *)
Definition tokensToFetch (available : list TUseBalancesTokens)
    (newTokenList : TListedDict TToken) : list TUseBalancesTokens :=
  List.filter (λ token, match findAvailable available token with
                        | Some _ => false
                        | None => true
                        end)
              (toBalancesToken <$> Object_values newTokenList).

(** Lines 114-136: the operation run, if any, and the mapping returned. *)
Definition onRefreshWithList (available : list TUseBalancesTokens)
    (balances : TChainTokens) (newTokenList : TListedDict TToken)
    : option Request * TChainTokens :=
  let toFetch := tokensToFetch available newTokenList in
  if bool_decide (0 < length toFetch)%nat
  then let '(request, _, result) := onRefresh (Some toFetch) false in
       (Some request, result)
  else (None, balances).

(** Lines 152-155. *)
Definition getToken (balances : TChainTokens) (address : string) (chainID : JsNum)
    : TToken :=
  default DEFAULT_ERC20 (lookup2 balances (js_or chainID (JNum 1)) address).

(** Lines 160-164. *)
Definition getBalance (balances : TChainTokens) (address : string) (chainID : JsNum)
    : TNormalizedBN :=
  default zeroNormalizedBN
          (balance <$> lookup2 balances (js_or chainID (JNum 1)) address).

End controller.
End UseWallet.


(* ===================================================================== *)
(** ** Vocabulary of the statements                                       *)
(* ===================================================================== *)

Section registry_vocabulary.
Context `{AddressTools}.
Import WithTokenList.

(** [chainId ?? chainID] and [chainID ?? chainId] of a token-list entry. *)
Definition chainIdFirst (t : TTokenListToken) : JsNum :=
  nullish (tl_chainId t) (tl_chainID t).
Definition chainIDFirst (t : TTokenListToken) : JsNum :=
  nullish (tl_chainID t) (tl_chainId t).

(** The entry [t] has the identity (chain [k], normalized address [a]) for
    a source that reads the chain with [keyOf]. *)
Definition sameIdentity (keyOf : TTokenListToken → JsNum) (k : JsNum) (a : string)
    (t : TTokenListToken) : Prop :=
  keyOf t = k ∧ toAddress (Some (tl_address t)) = a.

#[global] Instance sameIdentity_dec keyOf k a t : Decision (sameIdentity keyOf k a t).
Proof. unfold sameIdentity. apply _. Defined.

(** Every token of a dictionary sits at the normal form of its address. *)
Definition wellKeyed (m : TNDict (TDict TToken)) : Prop :=
  ∀ k a t, lookup2 m k a = Some t → toAddress (Some (address t)) = a.

(** Every chain of a dictionary is an integer. *)
Definition numericKeys {T} (m : TNDict T) : Prop :=
  ∀ k, is_Some (m !! k) → ∃ z, k = JNum z.

(** The tokens the fulfilled responses carry, in the order of the URIs. *)
Definition tokensOfResponses (responses : list Settled) : list TTokenListToken :=
  mjoin (omap (λ r, match r with Fulfilled d => tokens d | Rejected => None end)
              responses).

(** Every fulfilled response carries a token array. *)
Definition wellFormed (responses : list Settled) : Prop :=
  Forall (λ r, match r with Fulfilled d => is_Some (tokens d) | Rejected => True end)
         responses.

End registry_vocabulary.

Section cache_vocabulary.
Context `{AddressTools}.
Import UseBalances.

(** The dictionary the read service returns for a batch of a refresh. *)
Definition answerOf
    (getBalances : JsNum → option string → list TUseBalancesTokens
                   → TDict TToken * option string)
    (ownerArg : option string) (chainID : Z) (chunk : list TUseBalancesTokens)
    : TDict TToken :=
  (getBalances (js_or (JNum chainID) (JNum 1)) ownerArg chunk).1.

(** The call a refresh issues for a batch. *)
Definition callOf (ownerArg : option string) (chainID : Z)
    (chunk : list TUseBalancesTokens) : Call :=
  {| call_chain := js_or (JNum chainID) (JNum 1); call_owner := ownerArg;
     call_tokens := chunk |}.

(** A merge: the arguments of one [updateBalancesCall]. *)
Record Merge : Type := {
  m_owner : string;
  m_chain : Z;
  m_partial : TDict TToken
}.

Definition applyMerge (h : Hook) (m : Merge) : Hook :=
  (updateBalancesCall (m_owner m) (m_chain m) (m_partial m) h).1.

End cache_vocabulary.

Section refresh_vocabulary.
Context `{AddressTools}.

(** The tokens a full refresh keeps: lines 116 and 134-149. *)
Definition keptTokens (chainID : Z) (tokenList : list TUseBalancesTokens)
    : list TUseBalancesTokens :=
  UseBalances.tokensOfChain chainID ∅
    (filter (λ t, isZeroAddress (Some (ub_address t)) = false) tokenList).

(** The events of calls made one after the other: the answer of a call is
    taken up before the next call is issued. *)
Definition oneAfterTheOther (calls : list UseBalances.Call) : list UseBalances.Event :=
  concat ((λ call, [UseBalances.Issued call; UseBalances.Answered call]) <$> calls).

(** The events of calls issued together: no answer is taken up before the
    last call is issued. *)
Definition allAtOnce (calls : list UseBalances.Call) : list UseBalances.Event :=
  (UseBalances.Issued <$> calls) ++ (UseBalances.Answered <$> calls).

(** What runs while the calls are awaited leaves [owner] the tracked owner
    and takes no entry of the chain out of the cell: no merge for another
    owner lands in between. *)
Definition keepsTheCell (owner : string) (chainID : Z)
    (during : UseBalances.Interference) : Prop :=
  ∀ i h, UseBalances.ref_address (UseBalances.data h) = owner →
    UseBalances.ref_address (UseBalances.data (during i h)) = owner
    ∧ ∀ a, is_Some (lookup2 (UseBalances.ref_balances (UseBalances.data h))
                            (JNum chainID) a) →
           is_Some (lookup2 (UseBalances.ref_balances (UseBalances.data (during i h)))
                            (JNum chainID) a).

(** The read service answers with addresses of the batch it was given. *)
Definition answersRequested
    (getBalances : JsNum → option string → list TUseBalancesTokens
                   → TDict TToken * option string) : Prop :=
  ∀ chain owner chunk a,
    is_Some ((getBalances chain owner chunk).1 !! a) →
    ∃ t, t ∈ chunk ∧ toAddress (Some (ub_address t)) = a.

End refresh_vocabulary.

Section nonce_vocabulary.
Context `{AddressTools}.
Import UseBalances.

(** [mergeBatch owner h h']: one merge batch for [owner] (a normalized
    address) takes the hook from [h] to [h']. The three places that merge
    are [updateBalancesCall], a batch of [onUpdate] or [onUpdateSome], and a
    batch of the automatic refresh. *)
Inductive mergeBatch : string → Hook → Hook → Prop :=
  | merge_call currentUserAddress chainID newRawData h :
      mergeBatch (toAddress (Some currentUserAddress)) h
                 (updateBalancesCall currentUserAddress chainID newRawData h).1
  | merge_fetch getBalances ownerArg userAddress chainID p chunk :
      mergeBatch (toAddress userAddress) (hook p)
                 (hook (fetchChunk getBalances ownerArg userAddress chainID p chunk))
  | merge_trigger getBalances userAddress chainID p chunk :
      mergeBatch (toAddress (Some (toAddress userAddress))) (hook p)
                 (hook (triggerChunk getBalances userAddress chainID p chunk)).

(** A sequence of merge batches, with the owner of each. *)
Inductive mergeBatches : list string → Hook → Hook → Prop :=
  | merges_nil h : mergeBatches [] h h
  | merges_cons owner owners h h' h'' :
      mergeBatch owner h h' → mergeBatches owners h' h'' →
      mergeBatches (owner :: owners) h h''.

End nonce_vocabulary.

Section trigger_vocabulary.
Import UseBalances.

(** The call the automatic refresh issues for a batch. *)
Definition triggerCallOf (userAddress : option string) (chainID : Z)
    (chunk : list TUseBalancesTokens) : Call :=
  {| call_chain := JNum chainID; call_owner := userAddress; call_tokens := chunk |}.

End trigger_vocabulary.
(* ===================================================================== *)
(** ** A normalizer to run the examples with                              *)
(* ===================================================================== *)

Module Samples.

Definition isHex (c : ascii) : bool :=
  let n := nat_of_ascii c in
  ((48 <=? n) && (n <=? 57) || (65 <=? n) && (n <=? 70)
   || (97 <=? n) && (n <=? 102))%nat.

Definition lower (c : ascii) : ascii :=
  let n := nat_of_ascii c in
  if ((65 <=? n) && (n <=? 90))%nat then ascii_of_nat (n + 32) else c.

Fixpoint allHex (s : string) : bool :=
  match s with
  | EmptyString => true
  | String c rest => isHex c && allHex rest
  end.

Fixpoint lowercase (s : string) : string :=
  match s with
  | EmptyString => EmptyString
  | String c rest => String (lower c) (lowercase rest)
  end.

Definition zeroAddress : string := "0x0000000000000000000000000000000000000000".

(** Modelled from the spec: the address normalizer is missing; the spec asks
    for a total function giving one fixed-width canonical form (lowercase
    is chosen here) to every well-formed address and the zero address to
    empty or invalid input. *)
Definition normalize (a : option string) : string :=
  match a with
  | Some (String "0" (String "x" digits)) =>
      if bool_decide (String.length digits = 40%nat) && allHex digits
      then String "0" (String "x" (lowercase digits))
      else zeroAddress
  | _ => zeroAddress
  end.

#[export] Instance tools : AddressTools := normalize.

Definition addrA : string := "0xaaaaaaaaaaaaaaaaaaaaaaaaaaaaaaaaaaaaaaaa".
Definition addrB : string := "0xbbbbbbbbbbbbbbbbbbbbbbbbbbbbbbbbbbbbbbbb".
Definition addrX : string := "0x1111111111111111111111111111111111111111".
Definition addrY : string := "0x2222222222222222222222222222222222222222".

(** A token-list entry on [chain], spelled [chainId]. *)
Definition entry (a : string) (sym : string) (chain : Z) : TTokenListToken :=
  {| tl_address := a; tl_name := sym; tl_symbol := sym; tl_decimals := 18;
     tl_chainId := JNum chain; tl_chainID := JUndef; tl_logoURI := None |}.

(** The same entry spelled [chainID]. *)
Definition entryID (a : string) (sym : string) (chain : Z) : TTokenListToken :=
  {| tl_address := a; tl_name := sym; tl_symbol := sym; tl_decimals := 18;
     tl_chainId := JUndef; tl_chainID := JNum chain; tl_logoURI := None |}.

(** A balance entry as the read service returns it. *)
Definition held (a : string) (chain : Z) (amount : Z) : TToken :=
  {| address := a; name := "T"; symbol := "T"; decimals := 18;
     chainID := JNum chain; logoURI := None; value := 0; price := None;
     balance := {| raw := amount; normalized := amount; display := "" |} |}.

Definition wanted (a : string) (chain : Z) : TUseBalancesTokens :=
  {| ub_address := a; ub_chainID := JNum chain; ub_decimals := Some 18;
     ub_name := None; ub_symbol := None |}.

(** Responses of token-list URIs. *)
Definition baseDoc : WithTokenList.Settled :=
  WithTokenList.Fulfilled {| WithTokenList.tokens := Some [entry addrX "BASE" 1] |}.
Definition overrideDoc : WithTokenList.Settled :=
  WithTokenList.Fulfilled {| WithTokenList.tokens := Some [entry addrX "OVERRIDE" 1] |}.
Definition chainIDDoc : WithTokenList.Settled :=
  WithTokenList.Fulfilled {| WithTokenList.tokens := Some [entryID addrX "TKN" 1] |}.
Definition malformedDoc : WithTokenList.Settled :=
  WithTokenList.Fulfilled {| WithTokenList.tokens := None |}.

(** A read service that answers every token it is asked for. *)
Definition echo (chain : JsNum) (owner : option string)
    (chunk : list TUseBalancesTokens) : TDict TToken * option string :=
  (list_to_map ((λ t, (normalize (Some (ub_address t)), held (ub_address t) 1 1))
                <$> chunk), None).

(** Merges for the accounts A and B, and hooks they lead to. *)
Definition mergeA : Merge :=
  {| m_owner := addrA; m_chain := 1; m_partial := {[addrX := held addrX 1 5]} |}.
Definition mergeB : Merge :=
  {| m_owner := addrB; m_chain := 1; m_partial := {[addrY := held addrY 1 7]} |}.

Definition hookA1 : UseBalances.Hook := applyMerge UseBalances.initialHook mergeA.
Definition hookA2 : UseBalances.Hook := applyMerge hookA1 mergeA.
Definition hookA3 : UseBalances.Hook := applyMerge hookA2 mergeA.
Definition hookAB : UseBalances.Hook := applyMerge hookA1 mergeB.







(** While the second call is awaited, a merge for the account B lands. *)
Definition switchAtSecond : UseBalances.Interference :=
  λ i h, if bool_decide (i = 1%nat) then applyMerge h mergeB else h.

(** Two batches of a refresh for the account A, with that merge in
    between. *)
Definition interrupted : UseBalances.Progress :=
  UseBalances.fetchChunks echo switchAtSecond (Some addrA) (Some addrA) 1 0
    {| UseBalances.hook := UseBalances.initialHook; UseBalances.updated := ∅;
       UseBalances.calls := []; UseBalances.events := [] |}
    [[wanted addrX 1]; [wanted addrA 1]].


(** Balances with one entry, for X on chain 1. *)
Definition balancesX : TChainTokens := {[JNum 1 := {[addrX := held addrX 1 5]}]}.

End Samples.

(* ===================================================================== *)
(** ** contexts/WithTokenList.tsx, the look-ups of the context            *)
(* ===================================================================== *)

Module TokenListContext.
Section context.
Context `{AddressTools}.
Import WithTokenList.

(** Lines 208-211: [aggregatedTokenList?.[safeChainID] || {}]. *)
Definition currentNetworkList (aggregated : TNDict (TDict TToken)) (safeChainID : Z)
    : TDict TToken :=
  default ∅ (aggregated !! JNum safeChainID).

(** Lines 231-236. *)
Definition isFromExtraList (s : State) (address : string) (chainID : JsNum) : bool :=
  bool_decide (is_Some (lookup2 (tokenListExtra s) chainID (toAddress (Some address)))).

(** Lines 242-247. *)
Definition isCustomToken (s : State) (address : string) (chainID : JsNum) : bool :=
  bool_decide (is_Some (lookup2 (tokenListCustom s) chainID (toAddress (Some address)))).

(** [set_tokenList], which the context hands out (line 268): the base
    lists are replaced as a whole. *)
Definition set_tokenList (list : TNDict (TDict TToken)) (s : State) : State :=
  {| tokenList := list; tokenListExtra := tokenListExtra s;
     tokenListCustom := tokenListCustom s |}.

(** What a render hands out: the three dictionaries, and the registry as
    [useMemo] last computed it (lines 174-203). The registry is computed
    again when one of the dictionaries is another object. *)
Record View : Type := {
  view_state : State;
  view_registry : Completion (TNDict (TDict TToken))
}.

Definition render (s : State) : View :=
  {| view_state := s; view_registry := aggregatedTokenList s |}.

(** A setter called with a new dictionary. *)
Definition replaced (f : State → State) (v : View) : View :=
  render (f (view_state v)).

(** Lines 252-260 as a render sees them: the updater writes into
    [previous] and returns it, the same object, so the registry is not
    computed again. *)
Definition addCustomTokenInPlace (token : TToken) (v : View) : View :=
  {| view_state := addCustomToken token (view_state v);
     view_registry := view_registry v |}.

End context.
End TokenListContext.

(* ===================================================================== *)
(** ** The single-chain token list provider (unnamed/part_000)            *)
(* ===================================================================== *)

Module WithTokenListLegacy.
Section provider.
Context `{AddressTools}.
Import WithTokenList.

(** [safeChainID] of [useChainID], the active chain. *)
Variable safeChainID : Z.

(** One turn of the three ingestion loops (lines 64-80, 95-112, 124-141):
    a slot that is taken is left alone; otherwise an entry of another
    chain is skipped and an entry of the active chain stored. *)
Definition ingestToken (tokenListTokens : TDict TToken) (eachToken : TTokenListToken)
    : TDict TToken :=
  let a := toAddress (Some (tl_address eachToken)) in
  match tokenListTokens !! a with
  | Some _ => tokenListTokens
  | None =>
      if strict_neq (tl_chainId eachToken) (JNum safeChainID)
      then tokenListTokens
      else <[a := mkToken eachToken (tl_chainId eachToken)]> tokenListTokens
  end.

(** Lines 48-83, first trigger. *)
Definition loadBaseLists (responses : list Settled) : Completion (TDict TToken) :=
  toks ←! gatherTokens responses [] ;;
  Returns (foldl ingestToken ∅ toks).

(** Lines 85-116, second trigger. *)
Fixpoint loadExtraListsFrom (responses : list Settled) (tokenListTokens : TDict TToken)
    : Completion (TDict TToken) :=
  match responses with
  | [] => Returns tokenListTokens
  | Rejected :: rest => loadExtraListsFrom rest tokenListTokens
  | Fulfilled data :: rest =>
      match tokens data with
      | Some ts => loadExtraListsFrom rest (foldl ingestToken tokenListTokens ts)
      | None => Throws "TypeError: tokens is not iterable"
      end
  end.

Definition loadExtraLists (responses : list Settled) : Completion (TDict TToken) :=
  loadExtraListsFrom responses ∅.

(** Lines 118-144, third trigger: [None] when [set_tokenListCustom] is not
    called. *)
Definition loadExtraTokens (extraTokens : option (list TTokenListToken))
    : option (TDict TToken) :=
  match extraTokens with
  | None => None
  | Some ts =>
      if bool_decide (0 < length ts)%nat
      then Some (foldl ingestToken ∅ ts)
      else None
  end.

(** Lines 43-45. *)
Record State : Type := {
  tokenList : TDict TToken;
  tokenListExtra : TDict TToken;
  tokenListCustom : TDict TToken
}.

Definition initialState : State :=
  {| tokenList := ∅; tokenListExtra := ∅; tokenListCustom := ∅ |}.

Definition runBaseTrigger (responses : list Settled) (s : State) : State :=
  match loadBaseLists responses with
  | Returns t => {| tokenList := t; tokenListExtra := tokenListExtra s;
                    tokenListCustom := tokenListCustom s |}
  | Throws _ => s
  end.

Definition runExtraTrigger (responses : list Settled) (s : State) : State :=
  match loadExtraLists responses with
  | Returns t => {| tokenList := tokenList s; tokenListExtra := t;
                    tokenListCustom := tokenListCustom s |}
  | Throws _ => s
  end.

Definition runCustomTrigger (extraTokens : option (list TTokenListToken))
    (s : State) : State :=
  match loadExtraTokens extraTokens with
  | Some t => {| tokenList := tokenList s; tokenListExtra := tokenListExtra s;
                 tokenListCustom := t |}
  | None => s
  end.

(** Lines 146-149: [{...tokenList, ...tokenListExtra, ...tokenListCustom}]. *)
Definition aggregatedTokenList (s : State) : TDict TToken :=
  spread (spread (tokenList s) (tokenListExtra s)) (tokenListCustom s).

(** Lines 151-160; [None] is the empty object the source returns. *)
Definition getToken (s : State) (tokenAddress : string) : option TToken :=
  aggregatedTokenList s !! toAddress (Some tokenAddress).

End provider.
End WithTokenListLegacy.

(* ===================================================================== *)
(** ** hooks/useBalances.monochain.ts, what the hook returns              *)
(* ===================================================================== *)

Module UseBalancesResult.
Import UseBalances.

(** Lines 360-366. *)
Definition statusOf (s : TDefaultStatus) : string :=
  if isError s then "error"
  else if isLoading s || isFetching s then "loading"
  else if isSuccess s then "success"
  else "unknown".

(** [TUseBalancesRes], the members that are data (lines 347-367). *)
Record TUseBalancesRes : Type := {
  res_data : TChainTokens;
  res_error : option string;
  res_flags : TDefaultStatus;
  res_nonce : Z;
  res_status : string
}.

Definition contextValue (h : Hook) : TUseBalancesRes :=
  {| res_data := balances h;
     res_error := error h;
     res_flags := status h;
     res_nonce := ref_nonce (data h);
     res_status := statusOf (status h) |}.

End UseBalancesResult.

(* ===================================================================== *)
(** ** utils/wagmi/utils.ts, the index of the networks                    *)
(* ===================================================================== *)

Module WagmiUtils.
Import UseWallet.

(** [Chain] of viem, the members read: [id], [rpcUrls?.public?.http?.[0]]
    and [blockExplorers], which holds an optional [etherscan.url] and a
    [default.url]. *)
Record Chain : Type := {
  chain_id : Z;
  chain_publicRPC : option string;
  chain_blockExplorers : option (option string * string)
}.

(** What [viem/chains] exports: chains, and values without an [id]
    (lines 119-121, [isChain]). *)
Inductive ModuleExport : Type :=
  | ChainExport (chain : Chain)
  | OtherExport.

(** [a || b] where [a] is a string or [undefined] and [b] a string. *)
Definition strOr (a : option string) (b : string) : string :=
  match a with
  | Some s => if bool_decide (s = "") then b else s
  | None => b
  end.

(** Lines 37-102, the members read by the wallet. *)
Definition wrappedChainTokens (chainID : Z) : option TWrappedChainToken :=
  let ether := {| wt_decimals := 18; wt_coinName := "Ether"; wt_coinSymbol := "ETH" |} in
  if bool_decide (chainID = 1) then Some ether
  else if bool_decide (chainID = 10) then Some ether
  else if bool_decide (chainID = 137)
       then Some {| wt_decimals := 18; wt_coinName := "Matic"; wt_coinSymbol := "MATIC" |}
  else if bool_decide (chainID = 250)
       then Some {| wt_decimals := 18; wt_coinName := "Fantom"; wt_coinSymbol := "FTM" |}
  else if bool_decide (chainID = 1101) then Some ether
  else if bool_decide (chainID = 8453) then Some ether
  else if bool_decide (chainID = 42161) then Some ether
  else if bool_decide (chainID = 1337) then Some ether
  else None.

(** Lines 123-137. *)
Definition getAlchemyBaseURL (chainID : Z) : string :=
  if bool_decide (chainID = 1) then "https://eth-mainnet.g.alchemy.com/v2"
  else if bool_decide (chainID = 10) then "https://opt-mainnet.g.alchemy.com/v2"
  else if bool_decide (chainID = 137) then "https://polygon-mainnet.g.alchemy.com/v2"
  else if bool_decide (chainID = 8453) then "https://base-mainnet.g.alchemy.com/v2"
  else if bool_decide (chainID = 42161) then "https://arb-mainnet.g.alchemy.com/v2"
  else "".

(** Lines 139-155. *)
Definition getInfuraBaseURL (chainID : Z) : string :=
  if bool_decide (chainID = 1) then "https://mainnet.infura.io/v3"
  else if bool_decide (chainID = 10) then "https://optimism-mainnet.infura.io/v3"
  else if bool_decide (chainID = 137) then "https://polygon-mainnet.infura.io/v3"
  else if bool_decide (chainID = 42161) then "https://arbitrum-mainnet.infura.io/v3"
  else if bool_decide (chainID = 42220) then "https://celo-mainnet.infura.io/v3"
  else if bool_decide (chainID = 59144) then "https://linea-mainnet.infura.io/v3"
  else "".

(** [TExtendedChain], the members the index sets. *)
Record TExtendedChain : Type := {
  x_id : Z;
  x_wrappedToken : option TWrappedChainToken;
  x_defaultRPC : string;
  x_alchemy : string;
  x_infura : string;
  x_defaultBlockExplorer : string
}.

Section index.

(** [localhost] and [anotherLocalhost] of [./networks] are not among the
    sources; neither is the environment, read as
    [process.env.JSON_RPC_URL?.[id]], nor the printing of a number in a
    template literal. *)
Variables localhost anotherLocalhost : Chain.
Variable JSON_RPC_URL : Z → option string.
Variable String_of_number : Z → string.

(** Lines 161-180, one chain. *)
Definition extendChain (chain : Chain) : TExtendedChain :=
  let chain1 := if bool_decide (chain_id chain = 1337) then localhost else chain in
  let chain2 := if bool_decide (chain_id chain1 = 5402) then anotherLocalhost else chain1 in
  let id := chain_id chain2 in
  {| x_id := id;
     x_wrappedToken := wrappedChainTokens id;
     x_defaultRPC := strOr (JSON_RPC_URL id) (strOr (chain_publicRPC chain2) "");
     x_alchemy := getAlchemyBaseURL id;
     x_infura := getInfuraBaseURL id;
     x_defaultBlockExplorer :=
       match chain_blockExplorers chain2 with
       | Some (etherscan, explorer) =>
           strOr etherscan (strOr (Some explorer) "https://etherscan.io")
       | None => "https://etherscan.io"
       end |}.

(** Lines 157-185. *)
Definition initIndexedWagmiChains (wagmiChains : list ModuleExport)
    : TNDict TExtendedChain :=
  foldl (λ _indexedWagmiChains export,
           match export with
           | ChainExport chain =>
               let extendedChain := extendChain chain in
               <[JNum (x_id extendedChain) := extendedChain]> _indexedWagmiChains
           | OtherExport => _indexedWagmiChains
           end)
        ∅ wagmiChains.

(** Lines 188-193. *)
Definition getNetwork (indexedWagmiChains : TNDict TExtendedChain) (chainID : Z)
    : Completion TExtendedChain :=
  match indexedWagmiChains !! JNum chainID with
  | None => Throws ("Chain " +:+ String_of_number chainID +:+ " is not supported")
  | Some network => Returns network
  end.

End index.
End WagmiUtils.

(* ===================================================================== *)
(** ** contexts/useWallet.tsx, the available tokens of a network          *)
(* ===================================================================== *)

Module WalletNetworks.
Section available.
Context `{AddressTools}.
Import UseWallet WagmiUtils.

Variable ETH_TOKEN_ADDRESS : string.
Variable String_of_number : Z → string.

(** Lines 55-79 of [useWallet.tsx], with the call of [getNetwork] of
    line 68: on a chain that is not indexed the computation throws. *)
Definition availableTokensOf (indexedWagmiChains : TNDict TExtendedChain)
    (currentNetworkTokenList : TListedDict TToken) (safeChainID : Z)
    : Completion (list TUseBalancesTokens) :=
  network ←! getNetwork String_of_number indexedWagmiChains safeChainID ;;
  Returns (availableTokens ETH_TOKEN_ADDRESS currentNetworkTokenList safeChainID
             (x_wrappedToken network)).

End available.
End WalletNetworks.

(* ===================================================================== *)
(** ** contexts/useWeb3 (second part of useWallet.tsx)                    *)
(* ===================================================================== *)

Module UseWeb3.
Import WagmiUtils.

(** A wagmi connector, the members read; [connector_wallet] is
    [_wallets?.[0]?.id]. *)
Record Connector : Type := {
  connector_id : string;
  connector_chains : list Chain;
  connector_wallet : option string
}.

(** What the wagmi and RainbowKit hooks hand to the provider
    (lines 249-259). [w_switchNetwork] tells whether [switchNetwork] is
    defined. *)
Record Wagmi : Type := {
  w_address : option string;
  w_isConnecting : bool;
  w_isConnected : bool;
  w_isDisconnected : bool;
  w_connector : option Connector;
  w_connectors : list Connector;
  w_ensName : option string;
  w_walletClient : bool;
  w_publicClient : bool;
  w_chain : option Chain;
  w_switchNetwork : bool;
  w_isMounted : bool
}.

(** The values of [TWeb3Context] (lines 211-227). *)
Record TWeb3Context : Type := {
  ctx_address : option string;
  ctx_ens : string;
  ctx_chainID : JsNum;
  ctx_isDisconnected : bool;
  ctx_isActive : bool;
  ctx_isConnecting : bool;
  ctx_isWalletSafe : bool;
  ctx_isWalletLedger : bool;
  ctx_hasProvider : bool;
  ctx_provider : option Connector
}.

Section provider.
Context `{AddressTools}.

(** [String.prototype.toLocaleLowerCase] *)
Variable toLocaleLowerCase : string → string.

(** [chain?.id] *)
Definition chainIdOf (chain : option Chain) : JsNum :=
  match chain with Some c => JNum (chain_id c) | None => JUndef end.

(** [list.includes(v)] on a list of integers. *)
Definition includes (list : list Z) (v : JsNum) : bool :=
  match v with JNum z => bool_decide (z ∈ list) | JNaN | JUndef => false end.

(** Lines 261-267. Without an injected connector the function throws: in
    [assert], or at [injectedConnector.chains]. *)
Definition supportedChainsID (connectors : list Connector) : Completion (list Z) :=
  match List.find (λ e, bool_decide (toLocaleLowerCase (connector_id e) = "injected"))
                  connectors with
  | None => Throws "No injected connector found"
  | Some injectedConnector =>
      let chainsForInjected := connector_chains injectedConnector in
      let noTestnet := filter (λ c, chain_id c ≠ 1337) chainsForInjected in
      Returns (chain_id <$> noTestnet)
  end.

(** Lines 269-271. *)
Definition onChainChange (w : Wagmi) (currentChainID : JsNum) : JsNum :=
  chainIdOf (w_chain w).

(** Lines 301-312: the new [currentChainID], and the chain the wallet is
    asked to switch to, if any. The state is set before the throw. *)
Definition onSwitchChain (w : Wagmi) (newChainID : Z) (currentChainID : JsNum)
    : JsNum * Completion (option Z) :=
  (JNum newChainID,
   if w_isConnected w
   then if w_switchNetwork w
        then Returns (Some newChainID)
        else Throws "Switch network function is not defined"
   else Returns None).

Definition connectorIs (connector : option Connector) (id : string) : bool :=
  match connector with
  | Some c => bool_decide (connector_id c = id)
  | None => false
  end.

Definition walletIs (connector : option Connector) (id : string) : bool :=
  match connector with
  | Some c => bool_decide (connector_wallet c = Some id)
  | None => false
  end.

(** Lines 328-347. *)
Definition contextValue (w : Wagmi) (currentChainID : JsNum) : Completion TWeb3Context :=
  supported ←! supportedChainsID (w_connectors w) ;;
  Returns
    {| ctx_address :=
         match w_address w with
         | Some a => if bool_decide (a = "") then None else Some (toAddress (Some a))
         | None => None
         end;
       ctx_isConnecting := w_isConnecting w;
       ctx_isDisconnected := w_isDisconnected w;
       ctx_ens := WagmiUtils.strOr (w_ensName w) "";
       ctx_isActive :=
         w_isConnected w
         && includes (supported ++ [1337]) (js_or (chainIdOf (w_chain w)) (JNum (-1)))
         && w_isMounted w;
       ctx_isWalletSafe :=
         connectorIs (w_connector w) "safe" || walletIs (w_connector w) "safe";
       ctx_isWalletLedger :=
         connectorIs (w_connector w) "ledger" || walletIs (w_connector w) "ledger"
         || connectorIs (w_connector w) "ledgerLive";
       ctx_hasProvider := w_walletClient w || w_publicClient w;
       ctx_provider := w_connector w;
       ctx_chainID :=
         if w_isConnected w
         then js_or (chainIdOf (w_chain w)) (JNum 1)
         else js_or currentChainID (JNum 1) |}.

End provider.
End UseWeb3.

(* ===================================================================== *)
(** ** Vocabulary of the further statements                               *)
(* ===================================================================== *)

Section registry_states.
Context `{AddressTools}.
Import WithTokenList.

(** The states the three triggers lead to. *)
Inductive loaded : State → Prop :=
  | loaded_initial : loaded initialState
  | loaded_base responses s : loaded s → loaded (runBaseTrigger responses s)
  | loaded_extra responses s : loaded s → loaded (runExtraTrigger responses s)
  | loaded_custom extraTokens s : loaded s → loaded (runCustomTrigger extraTokens s).

(** The tokens of a dictionary are as an ingestion loop writes them: at
    the normal form of their address, with no value, price or balance. *)
Definition freshTokens (m : TNDict (TDict TToken)) : Prop :=
  ∀ k a t, lookup2 m k a = Some t →
    toAddress (Some (address t)) = a ∧ value t = 0
    ∧ price t = Some zeroNormalizedBN ∧ balance t = zeroNormalizedBN.

(** The three dictionaries of a state have integer chains and hold every
    token at the normal form of its address. *)
Definition wellBuilt (s : State) : Prop :=
  (numericKeys (tokenList s) ∧ wellKeyed (tokenList s))
  ∧ (numericKeys (tokenListExtra s) ∧ wellKeyed (tokenListExtra s))
  ∧ (numericKeys (tokenListCustom s) ∧ wellKeyed (tokenListCustom s)).

End registry_states.

Section legacy_vocabulary.
Context `{AddressTools}.

(** The entry is of the active chain and has the normalized address [a]. *)
Definition onChainAt (safeChainID : Z) (a : string) (t : TTokenListToken) : Prop :=
  tl_chainId t = JNum safeChainID ∧ toAddress (Some (tl_address t)) = a.

#[global] Instance onChainAt_dec safeChainID a t : Decision (onChainAt safeChainID a t).
Proof. unfold onChainAt. apply _. Defined.

End legacy_vocabulary.

Module MoreSamples.
Import Samples.

(** An entry that carries both spellings of the chain. *)
Definition entryBoth (a : string) (sym : string) (chainId chainID : Z)
    : TTokenListToken :=
  {| tl_address := a; tl_name := sym; tl_symbol := sym; tl_decimals := 18;
     tl_chainId := JNum chainId; tl_chainID := JNum chainID; tl_logoURI := None |}.

Definition docOf (ts : list TTokenListToken) : WithTokenList.Settled :=
  WithTokenList.Fulfilled {| WithTokenList.tokens := Some ts |}.

End MoreSamples.

Section legacy_states.
Context `{AddressTools}.
Import WithTokenListLegacy.

(** The states the triggers of the single-chain provider lead to while
    the active chain is [safeChainID]. *)
Inductive legacyLoaded (safeChainID : Z) : State → Prop :=
  | legacy_initial : legacyLoaded safeChainID initialState
  | legacy_base responses s :
      legacyLoaded safeChainID s →
      legacyLoaded safeChainID (runBaseTrigger safeChainID responses s)
  | legacy_extra responses s :
      legacyLoaded safeChainID s →
      legacyLoaded safeChainID (runExtraTrigger safeChainID responses s)
  | legacy_custom extraTokens s :
      legacyLoaded safeChainID s →
      legacyLoaded safeChainID (runCustomTrigger safeChainID extraTokens s).

(** Every token of the dictionary is of the chain, at the normal form of
    its address, with a zero balance. *)
Definition singleChain (safeChainID : Z) (m : TDict TToken) : Prop :=
  ∀ a t, m !! a = Some t →
    chainID t = JNum safeChainID ∧ toAddress (Some (address t)) = a
    ∧ balance t = zeroNormalizedBN.

End legacy_states.

Section hook_operations.
Context `{AddressTools}.
Import UseBalances.

(** [operation h h']: one of the four operations of the balances hook
    takes it from [h] to [h'], with whatever read service and arguments,
    and with nothing else running while it awaits. *)
Inductive operation : Hook → Hook → Prop :=
  | op_merge currentUserAddress chainID newRawData h :
      operation h (updateBalancesCall currentUserAddress chainID newRawData h).1
  | op_onUpdate getBalances userAddress chainID tokenList h :
      operation h (hook (onUpdate getBalances quiet userAddress chainID tokenList h))
  | op_onUpdateSome getBalances userAddress chainID tokenList h :
      operation h (hook (onUpdateSome getBalances quiet userAddress chainID tokenList h))
  | op_refresh getBalances userAddress chainID tokens h :
      operation h (hook (refreshTrigger getBalances userAddress chainID tokens h)).

(** The hooks that operations lead to from the initial one, run one after
    the other. *)
Inductive reachable : Hook → Prop :=
  | reachable_initial : reachable initialHook
  | reachable_step h h' : reachable h → operation h h' → reachable h'.

(** The normalized address of a requested token. *)
Definition normalizedAddress (t : TUseBalancesTokens) : string :=
  toAddress (Some (ub_address t)).

(** The errors the batches of a refresh report, in the order of the
    batches. *)
Definition reportedErrors
    (getBalances : JsNum → option string → list TUseBalancesTokens
                   → TDict TToken * option string)
    (ownerArg : option string) (chainID : Z)
    (batches : list (list TUseBalancesTokens)) : list string :=
  omap (λ batch, (getBalances (js_or (JNum chainID) (JNum 1)) ownerArg batch).2) batches.

(** Whatever the cell holds is published, with the same value. *)
Definition publishedCoversCell (h : Hook) : Prop :=
  ∀ k a x, lookup2 (ref_balances (data h)) k a = Some x →
           lookup2 (balances h) k a = Some x.

(** What every operation keeps true of the hook. *)
Definition sound (h : Hook) : Prop :=
  numericKeys (ref_balances (data h))
  ∧ publishedCoversCell h
  ∧ (status h = defaultStatus ∨ status h = loadingStatus ∨ status h = successStatus)
  ∧ (0 ≤ ref_nonce (data h))%Z.

(** What runs while the calls are awaited does not write the cell. *)
Definition leavesTheCell (during : Interference) : Prop :=
  ∀ i h, data (during i h) = data h.

(** The nonce after [n] batches for [owner], from the cell [d]: batches
    for the tracked owner count on, the first batch for another owner
    starts from 0. *)
Definition countedNonce (owner : string) (d : TDataRef) (n : nat) : Z :=
  match n with
  | O => ref_nonce d
  | _ => (if bool_decide (owner = ref_address d) then ref_nonce d else 0) + Z.of_nat n
  end.

End hook_operations.

(** Data of the examples of the further statements. *)
Module WalletSamples.
Import Samples MoreSamples.

(** A state of the registry with X in a base list and in an extra list. *)
Definition listedTwice : WithTokenList.State :=
  {| WithTokenList.tokenList :=
       foldl WithTokenList.ingestBase ∅ [entry addrX "BASE" 1];
     WithTokenList.tokenListExtra :=
       foldl WithTokenList.ingestExtra ∅ [entry addrX "OVERRIDE" 1];
     WithTokenList.tokenListCustom := foldl WithTokenList.ingestCustom ∅ [] |}.

(** A merge for the account A on chain 10. *)
Definition mergeA10 : Merge :=
  {| m_owner := addrA; m_chain := 10; m_partial := {[addrY := held addrY 10 7]} |}.

Definition ethAddress : string := "0xeeeeeeeeeeeeeeeeeeeeeeeeeeeeeeeeeeeeeeee".

(** A network list in which Y was inserted before X. *)
Definition listedYThenX : UseWallet.TListedDict TToken :=
  [(addrY, held addrY 1 0); (addrX, held addrX 1 0)].

(** Something that runs while a call is awaited and only sets the status,
    as the start of another refresh does. *)
Definition startsLoading : UseBalances.Interference :=
  λ _ h, UseBalances.set_status UseBalances.loadingStatus h.

(** A default token with the zero balance. *)
Definition defaultToken : TToken :=
  {| address := zeroAddress; name := ""; symbol := ""; decimals := 18;
     chainID := JNum 1; logoURI := None; value := 0; price := None;
     balance := zeroNormalizedBN |}.

Definition ether : UseWallet.TWrappedChainToken :=
  {| UseWallet.wt_decimals := 18; UseWallet.wt_coinName := "Ether";
     UseWallet.wt_coinSymbol := "ETH" |}.

Definition mainnet : WagmiUtils.Chain :=
  {| WagmiUtils.chain_id := 1;
     WagmiUtils.chain_publicRPC := Some "https://cloudflare-eth.com";
     WagmiUtils.chain_blockExplorers :=
       Some (Some "https://etherscan.io", "https://etherscan.io") |}.

Definition localChain : WagmiUtils.Chain :=
  {| WagmiUtils.chain_id := 1337;
     WagmiUtils.chain_publicRPC := Some "http://localhost:8545";
     WagmiUtils.chain_blockExplorers := None |}.

Definition noEnvironment (chainID : Z) : option string := None.

(** Enough of a number printer for the examples. *)
Definition printed (chainID : Z) : string :=
  if bool_decide (chainID = 1) then "1" else "5".

Definition injected : UseWeb3.Connector :=
  {| UseWeb3.connector_id := "Injected";
     UseWeb3.connector_chains := [mainnet; localChain];
     UseWeb3.connector_wallet := None |}.

(** A wallet that is not connected. *)
Definition idle : UseWeb3.Wagmi :=
  {| UseWeb3.w_address := None; UseWeb3.w_isConnecting := false;
     UseWeb3.w_isConnected := false; UseWeb3.w_isDisconnected := true;
     UseWeb3.w_connector := None; UseWeb3.w_connectors := [injected];
     UseWeb3.w_ensName := None; UseWeb3.w_walletClient := false;
     UseWeb3.w_publicClient := true; UseWeb3.w_chain := None;
     UseWeb3.w_switchNetwork := false; UseWeb3.w_isMounted := true |}.

(** A wallet connected to chain 1. *)
Definition connected : UseWeb3.Wagmi :=
  {| UseWeb3.w_address := Some addrA; UseWeb3.w_isConnecting := false;
     UseWeb3.w_isConnected := true; UseWeb3.w_isDisconnected := false;
     UseWeb3.w_connector := Some injected; UseWeb3.w_connectors := [injected];
     UseWeb3.w_ensName := None; UseWeb3.w_walletClient := true;
     UseWeb3.w_publicClient := true; UseWeb3.w_chain := Some mainnet;
     UseWeb3.w_switchNetwork := true; UseWeb3.w_isMounted := true |}.

End WalletSamples.

(* ===================================================================== *)
(** ** Properties of the token registry                                   *)
(* ===================================================================== *)

Section registry_facts.
Context `{AddressTools}.
Import WithTokenList.

Lemma lookup2_empty {T} k a : lookup2 (T:=T) ∅ k a = None.
Proof. unfold lookup2. by rewrite lookup_empty. Qed.

Lemma lookup2_insert {T} (m : TNDict (TDict T)) k k' d a :
  lookup2 (<[k := d]> m) k' a = if decide (k = k') then d !! a else lookup2 m k' a.
Proof.
  unfold lookup2. rewrite lookup_insert. by case_decide.
Qed.

Lemma lookup2_ingestToken key chain acc t k a :
  lookup2 (ingestToken key chain acc t) k a =
    match lookup2 acc k a with
    | Some x => Some x
    | None => if decide (key = k ∧ toAddress (Some (tl_address t)) = a)
              then Some (mkToken t chain) else None
    end.
Proof.
  unfold ingestToken.
  set (withChain := match acc !! key with Some _ => acc | None => <[key:=∅]> acc end).
  assert (Hw : ∀ k' a', lookup2 withChain k' a' = lookup2 acc k' a').
  { intros k' a'. subst withChain. destruct (acc !! key) eqn:E; [done|].
    rewrite lookup2_insert. case_decide; [|done]. subst.
    unfold lookup2. by rewrite E. }
  assert (Hd : ∀ a', default ∅ (withChain !! key) !! a' = lookup2 acc key a').
  { intros a'. rewrite <- Hw. unfold lookup2.
    destruct (withChain !! key); simpl; [done|]. by rewrite lookup_empty. }
  destruct (default ∅ (withChain !! key) !! toAddress (Some (tl_address t))) eqn:E.
  - rewrite Hw. destruct (lookup2 acc k a) eqn:E2; [done|].
    case_decide as Hk; [|done]. destruct Hk as [-> <-].
    rewrite Hd in E. congruence.
  - rewrite lookup2_insert. case_decide as Hk.
    + subst k. rewrite lookup_insert. case_decide as Ha.
      * subst a. rewrite Hd in E. rewrite E. by rewrite decide_True.
      * rewrite Hd. destruct (lookup2 acc key a); [done|].
        rewrite decide_False; [done|]. intros [_ ?]. done.
    + rewrite Hw. destruct (lookup2 acc k a); [done|].
      rewrite decide_False; [done|]. intros [? _]. done.
Qed.

(** A source keeps, for every identity, the first entry it meets. *)
Lemma lookup2_ingest_fold keyOf labelOf (ts : list TTokenListToken) acc k a :
  lookup2 (foldl (λ m t, ingestToken (keyOf t) (labelOf t) m t) acc ts) k a =
    match lookup2 acc k a with
    | Some x => Some x
    | None => (λ t, mkToken t (labelOf t)) <$> List.find (λ t, bool_decide (sameIdentity keyOf k a t)) ts
    end.
Proof.
  revert acc. induction ts as [|t ts IH]; intros acc; simpl.
  - by destruct (lookup2 acc k a).
  - rewrite IH, lookup2_ingestToken.
    destruct (lookup2 acc k a); [done|].
    unfold sameIdentity at 2. case_bool_decide as Hd.
    + by rewrite decide_True.
    + by rewrite decide_False.
Qed.

Lemma wellKeyed_ingest_fold keyOf labelOf (ts : list TTokenListToken) :
  wellKeyed (foldl (λ m t, ingestToken (keyOf t) (labelOf t) m t) ∅ ts).
Proof.
  intros k a t. rewrite lookup2_ingest_fold, lookup2_empty.
  destruct (List.find _ ts) as [t0|] eqn:E; [|done].
  apply find_some in E as [_ Hd]. apply bool_decide_eq_true in Hd as [_ Ha].
  simpl. intros [= <-]. done.
Qed.

Lemma ingestToken_keys key chain acc t k :
  is_Some (ingestToken key chain acc t !! k) → k = key ∨ is_Some (acc !! k).
Proof.
  unfold ingestToken.
  set (withChain := match acc !! key with Some _ => acc | None => <[key:=∅]> acc end).
  assert (Hw : is_Some (withChain !! k) → k = key ∨ is_Some (acc !! k)).
  { subst withChain. destruct (acc !! key); [by right|].
    rewrite lookup_insert. case_decide; [by left|by right]. }
  destruct (default ∅ (withChain !! key) !! _); [done|].
  rewrite lookup_insert. case_decide; [by left|done].
Qed.

Lemma numericKeys_ingest_fold keyOf labelOf (ts : list TTokenListToken) acc :
  Forall (λ t, ∃ z, keyOf t = JNum z) ts → numericKeys acc →
  numericKeys (foldl (λ m t, ingestToken (keyOf t) (labelOf t) m t) acc ts).
Proof.
  intros Hts. revert acc. induction Hts as [|t ts [z Hz] _ IH]; intros acc Hacc; [done|].
  simpl. apply IH. intros k Hk.
  apply ingestToken_keys in Hk as [->|Hk]; [by exists z|by apply Hacc].
Qed.

Lemma copyTokens_lookup (perChain into : TDict TToken) :
  (∀ a t, perChain !! a = Some t → toAddress (Some (address t)) = a) →
  ∀ a, copyTokens perChain into !! a =
         match perChain !! a with Some t => Some t | None => into !! a end.
Proof.
  unfold copyTokens.
  apply (map_fold_weak_ind (λ r (m : TDict TToken),
    (∀ a t, m !! a = Some t → toAddress (Some (address t)) = a) →
    ∀ a, r !! a = match m !! a with Some t => Some t | None => into !! a end)).
  - intros _ a. by rewrite lookup_empty.
  - intros i x m r Hi IH Hkeys a.
    assert (Hx : toAddress (Some (address x)) = i).
    { apply Hkeys. by rewrite lookup_insert_eq. }
    rewrite Hx, !lookup_insert. case_decide; [done|].
    apply IH. intros a' t' Ha'. apply Hkeys.
    rewrite lookup_insert_ne; [done|]. congruence.
Qed.

Lemma aggregate_fold_lookup (list agg m : TNDict (TDict TToken)) :
  numericKeys list → wellKeyed list → m ⊆ list →
  ∃ agg',
    map_fold (λ eachChainID _ acc, a ←! acc ;; aggregateChain list eachChainID a)
             (Returns agg) m = Returns agg' ∧
    ∀ k a, lookup2 agg' k a =
             match lookup2 m k a with Some t => Some t | None => lookup2 agg k a end.
Proof.
  intros Hnum Hwk. revert m.
  apply (map_fold_weak_ind (λ r (m : TNDict (TDict TToken)),
    m ⊆ list → ∃ agg', r = Returns agg' ∧
      ∀ k a, lookup2 agg' k a =
               match lookup2 m k a with Some t => Some t | None => lookup2 agg k a end)).
  - intros _. exists agg. split; [done|]. intros k a. by rewrite lookup2_empty.
  - intros i x m r Hi IH Hsub.
    assert (Hlx : list !! i = Some x).
    { eapply lookup_weaken; [|exact Hsub]. by rewrite lookup_insert_eq. }
    destruct IH as (agg1 & -> & Hagg1).
    { etrans; [|exact Hsub]. by apply insert_subseteq. }
    destruct (Hnum i) as [z ->]; [by rewrite Hlx|].
    simpl. unfold aggregateChain. simpl. rewrite Hlx.
    eexists. split; [done|]. intros k a.
    set (withChain := match agg1 !! JNum z with
                      | Some _ => agg1 | None => <[JNum z:=∅]> agg1 end).
    assert (Hw : ∀ k' a', lookup2 withChain k' a' = lookup2 agg1 k' a').
    { intros k' a'. subst withChain. destruct (agg1 !! JNum z) eqn:E; [done|].
      rewrite lookup2_insert. case_decide; [|done]. subst.
      unfold lookup2. by rewrite E. }
    rewrite !lookup2_insert. case_decide as Hk.
    + subst k. rewrite copyTokens_lookup.
      * destruct (x !! a); [done|].
        transitivity (lookup2 withChain (JNum z) a).
        { unfold lookup2. destruct (withChain !! JNum z); simpl; [done|].
          by rewrite lookup_empty. }
        rewrite Hw, Hagg1. unfold lookup2 at 1. by rewrite Hi.
      * intros a' t' Ha'. apply (Hwk (JNum z) a' t'). unfold lookup2.
        by rewrite Hlx.
    + by rewrite Hw, Hagg1.
Qed.

Lemma aggregateList_lookup (list agg : TNDict (TDict TToken)) :
  numericKeys list → wellKeyed list →
  ∃ agg', aggregateList list (Returns agg) = Returns agg' ∧
    ∀ k a, lookup2 agg' k a =
             match lookup2 list k a with Some t => Some t | None => lookup2 agg k a end.
Proof. intros Hnum Hwk. by apply aggregate_fold_lookup. Qed.

(** A dictionary with a key ["undefined"] and no key ["NaN"] cannot be
    aggregated: [Number("undefined")] is [NaN]. *)
Lemma aggregate_fold_undefined_key (list m : TNDict (TDict TToken)) acc :
  list !! JNaN = None → is_Some (m !! JUndef) →
  ∃ e, map_fold (λ eachChainID _ acc, a ←! acc ;; aggregateChain list eachChainID a)
                acc m = Throws e.
Proof.
  intros Hn. revert m.
  apply (map_fold_weak_ind (λ r (m : TNDict (TDict TToken)),
    is_Some (m !! JUndef) → ∃ e, r = Throws e)).
  - intros [? Hx]. by rewrite lookup_empty in Hx.
  - intros i x m r Hi IH Hsome.
    destruct (decide (i = JUndef)) as [->|Hne].
    + destruct r as [a|e]; simpl; [|by eexists].
      unfold aggregateChain. simpl. rewrite Hn. by eexists.
    + rewrite lookup_insert_ne in Hsome by done.
      destruct IH as [e ->]; [done|by eexists].
Qed.

Lemma aggregateList_undefined_key (list : TNDict (TDict TToken)) acc :
  is_Some (list !! JUndef) → list !! JNaN = None →
  ∃ e, aggregateList list acc = Throws e.
Proof. intros Hu Hn. by apply aggregate_fold_undefined_key. Qed.

Lemma gatherTokens_wellFormed responses acc :
  wellFormed responses →
  gatherTokens responses acc = Returns (acc ++ tokensOfResponses responses).
Proof.
  intros Hwf. revert acc.
  induction Hwf as [|r rs Hr _ IH]; intros acc; simpl.
  - unfold tokensOfResponses. simpl. by rewrite app_nil_r.
  - destruct r as [d|]; simpl.
    + destruct Hr as [ts Hts]. rewrite Hts.
      rewrite IH. unfold tokensOfResponses. simpl. rewrite Hts. simpl.
      by rewrite <- app_assoc.
    + by rewrite IH.
Qed.

Lemma loadBaseLists_wellFormed responses :
  wellFormed responses →
  loadBaseLists responses = Returns (foldl ingestBase ∅ (tokensOfResponses responses)).
Proof.
  intros Hwf. unfold loadBaseLists. by rewrite gatherTokens_wellFormed.
Qed.

Lemma loadExtraListsFrom_wellFormed responses m :
  wellFormed responses →
  loadExtraListsFrom responses m =
    Returns (foldl ingestExtra m (tokensOfResponses responses)).
Proof.
  intros Hwf. revert m.
  induction Hwf as [|r rs Hr _ IH]; intros m; simpl; [done|].
  destruct r as [d|]; simpl.
  - destruct Hr as [ts Hts]. rewrite Hts.
    rewrite IH. unfold tokensOfResponses. simpl. rewrite Hts. simpl.
    by rewrite foldl_app.
  - by rewrite IH.
Qed.

Lemma gatherTokens_malformed responses acc :
  Fulfilled {| tokens := None |} ∈ responses →
  ∃ e, gatherTokens responses acc = Throws e.
Proof.
  revert acc. induction responses as [|r rs IH]; intros acc Hin.
  - by apply elem_of_nil in Hin.
  - apply elem_of_cons in Hin as [<-|Hin]; simpl; [by eexists|].
    destruct r as [[[ts|]]|]; simpl; [by apply IH|by eexists|by apply IH].
Qed.

(** A fulfilled response without a token array stops the first trigger
    before [set_tokenList]: the base lists stay what they were. *)
Lemma runBaseTrigger_malformed responses s :
  Fulfilled {| tokens := None |} ∈ responses →
  runBaseTrigger responses s = s.
Proof.
  intros Hin. unfold runBaseTrigger, loadBaseLists.
  destruct (gatherTokens_malformed responses [] Hin) as [e ->]. done.
Qed.

(** URIs whose fetch is rejected do not keep the tokens of the others out
    of the base lists. *)
Lemma rejected_uris_do_not_block responses :
  wellFormed responses →
  ∃ list, loadBaseLists responses = Returns list ∧
    ∀ d ts t, Fulfilled d ∈ responses → tokens d = Some ts → t ∈ ts →
      is_Some (lookup2 list (tl_chainId t) (toAddress (Some (tl_address t)))).
Proof.
  intros Hwf. rewrite loadBaseLists_wellFormed by done.
  eexists. split; [done|]. intros d ts t Hd Hts Ht.
  unfold ingestBase.
  rewrite (lookup2_ingest_fold tl_chainId tl_chainId), lookup2_empty.
  destruct (List.find _ _) eqn:E; [done|].
  exfalso. assert (Hin : In t (tokensOfResponses responses)).
  { apply list_elem_of_In. unfold tokensOfResponses.
    apply list_elem_of_join. exists ts. split; [done|].
    apply list_elem_of_omap. exists (Fulfilled d). done. }
  apply (find_none _ _ E) in Hin.
  apply bool_decide_eq_false in Hin. by apply Hin.
Qed.

Lemma triggers_from_initial baseResponses extraResponses custom :
  wellFormed baseResponses → wellFormed extraResponses →
  runCustomTrigger (Some custom)
    (runExtraTrigger extraResponses (runBaseTrigger baseResponses initialState)) =
  {| tokenList := foldl ingestBase ∅ (tokensOfResponses baseResponses);
     tokenListExtra := foldl ingestExtra ∅ (tokensOfResponses extraResponses);
     tokenListCustom := foldl ingestCustom ∅ custom |}.
Proof.
  intros Hb He.
  unfold runCustomTrigger, runExtraTrigger, runBaseTrigger, loadExtraLists.
  rewrite loadBaseLists_wellFormed, loadExtraListsFrom_wellFormed by done.
  unfold loadExtraTokens. destruct custom; simpl; done.
Qed.

Lemma ingestToken_key_kept key chain acc t k :
  k = key ∨ is_Some (acc !! k) → is_Some (ingestToken key chain acc t !! k).
Proof.
  unfold ingestToken.
  set (withChain := match acc !! key with Some _ => acc | None => <[key:=∅]> acc end).
  assert (Hw : k = key ∨ is_Some (acc !! k) → is_Some (withChain !! k)).
  { subst withChain. intros [->|Hk].
    - destruct (acc !! key) eqn:E; [by rewrite E|]. by rewrite lookup_insert_eq.
    - destruct (acc !! key); [done|].
      rewrite lookup_insert. by case_decide. }
  intros Hor. destruct (default ∅ (withChain !! key) !! _); [by apply Hw|].
  rewrite lookup_insert. case_decide; [done|by apply Hw].
Qed.

(** The chains of a source are the chains its entries are filed under. *)
Lemma ingest_fold_keys keyOf labelOf (ts : list TTokenListToken) acc k :
  is_Some (foldl (λ m t, ingestToken (keyOf t) (labelOf t) m t) acc ts !! k) ↔
  is_Some (acc !! k) ∨ ∃ t, t ∈ ts ∧ keyOf t = k.
Proof.
  revert acc. induction ts as [|t ts IH]; intros acc; simpl.
  - split; [by left|]. intros [?|(t & Hin & _)]; [done|].
    by apply elem_of_nil in Hin.
  - rewrite IH. split.
    + intros [Hk|(t' & Hin & Hk)].
      * apply ingestToken_keys in Hk as [->|Hk]; [|by left].
        right. exists t. split; [|done]. by left.
      * right. exists t'. split; [by right|done].
    + intros [Hk|(t' & Hin & Hk)].
      * left. apply ingestToken_key_kept. by right.
      * apply elem_of_cons in Hin as [->|Hin].
        -- left. apply ingestToken_key_kept. by left.
        -- right. by exists t'.
Qed.

Lemma aggregateList_after_throw (tier : TNDict (TDict TToken)) e :
  aggregateList tier (Throws e) = Throws e.
Proof.
  unfold aggregateList.
  apply (map_fold_weak_ind (λ r (m : TNDict (TDict TToken)), r = Throws e)); [done|].
  by intros i x m r _ ->.
Qed.

(** A base list with an entry that has no [chainId] member makes the
    aggregation throw, whatever the other sources hold. *)
Lemma base_entry_without_chainId_breaks_registry responses s t :
  wellFormed responses →
  t ∈ tokensOfResponses responses → tl_chainId t = JUndef →
  Forall (λ t', tl_chainId t' ≠ JNaN) (tokensOfResponses responses) →
  ∃ e, aggregatedTokenList (runBaseTrigger responses s) = Throws e.
Proof.
  intros Hwf Hin Hundef Hnan. unfold runBaseTrigger.
  rewrite loadBaseLists_wellFormed by done.
  unfold aggregatedTokenList. cbn [tokenList tokenListExtra tokenListCustom].
  destruct (aggregateList_undefined_key
              (foldl ingestBase ∅ (tokensOfResponses responses)) (Returns ∅))
    as [e ->].
  - apply (ingest_fold_keys tl_chainId tl_chainId). right. by exists t.
  - apply eq_None_not_Some. intros Hk.
    apply (ingest_fold_keys tl_chainId tl_chainId) in Hk as [Hk|(t' & Hin' & Hk)].
    + rewrite lookup_empty in Hk. by destruct Hk.
    + rewrite list.Forall_forall in Hnan. exact (Hnan t' Hin' Hk).
  - exists e. by rewrite !aggregateList_after_throw.
Qed.


(** C2, as amended: across the three sources the later source wins, and
    the entry is stored whole; within one source the first entry met for
    an identity is the one kept. *)
Theorem registry_later_source_wins baseResponses extraResponses custom :
  wellFormed baseResponses → wellFormed extraResponses →
  Forall (λ t, ∃ z, tl_chainId t = JNum z) (tokensOfResponses baseResponses) →
  Forall (λ t, ∃ z, chainIdFirst t = JNum z) (tokensOfResponses extraResponses) →
  Forall (λ t, ∃ z, chainIDFirst t = JNum z) custom →
  ∃ registry,
    aggregatedTokenList
      (runCustomTrigger (Some custom)
        (runExtraTrigger extraResponses
          (runBaseTrigger baseResponses initialState))) = Returns registry ∧
    ∀ k a, lookup2 registry k a =
      match List.find (λ t, bool_decide (sameIdentity chainIDFirst k a t)) custom with
      | Some t => Some (mkToken t (chainIDFirst t))
      | None =>
        match List.find (λ t, bool_decide (sameIdentity chainIdFirst k a t))
                        (tokensOfResponses extraResponses) with
        | Some t => Some (mkToken t (chainIDFirst t))
        | None =>
            (λ t, mkToken t (tl_chainId t)) <$>
              List.find (λ t, bool_decide (sameIdentity tl_chainId k a t))
                        (tokensOfResponses baseResponses)
        end
      end.
Proof.
  intros Hb He Hkb Hke Hkc.
  rewrite triggers_from_initial by done.
  unfold aggregatedTokenList. simpl.
  destruct (aggregateList_lookup (foldl ingestBase ∅ (tokensOfResponses baseResponses)) ∅)
    as (r1 & -> & H1).
  { by apply (numericKeys_ingest_fold tl_chainId tl_chainId); [|intros k [? Hk]; rewrite lookup_empty in Hk]. }
  { apply (wellKeyed_ingest_fold tl_chainId tl_chainId). }
  destruct (aggregateList_lookup (foldl ingestExtra ∅ (tokensOfResponses extraResponses)) r1)
    as (r2 & -> & H2).
  { by apply (numericKeys_ingest_fold chainIdFirst chainIDFirst); [|intros k [? Hk]; rewrite lookup_empty in Hk]. }
  { apply (wellKeyed_ingest_fold chainIdFirst chainIDFirst). }
  destruct (aggregateList_lookup (foldl ingestCustom ∅ custom) r2) as (r3 & -> & H3).
  { by apply (numericKeys_ingest_fold chainIDFirst chainIDFirst); [|intros k [? Hk]; rewrite lookup_empty in Hk]. }
  { apply (wellKeyed_ingest_fold chainIDFirst chainIDFirst). }
  exists r3. split; [done|]. intros k a.
  rewrite H3, H2, H1.
  unfold ingestCustom, ingestExtra, ingestBase.
  rewrite (lookup2_ingest_fold chainIDFirst chainIDFirst),
          (lookup2_ingest_fold chainIdFirst chainIDFirst),
          (lookup2_ingest_fold tl_chainId tl_chainId), !lookup2_empty.
  destruct (List.find _ custom); [done|]. simpl.
  destruct (List.find _ (tokensOfResponses extraResponses)); [done|]. simpl.
  by destruct (List.find _ (tokensOfResponses baseResponses)).
Qed.

End registry_facts.

Section registry_examples.
Import WithTokenList Samples.

(** The scenario of the specification: a base list and an extra list that
    both declare (1, X); the registry holds the extra list's entry. *)
Lemma registry_later_source_wins_witness :
  wellFormed [baseDoc; Rejected] ∧ wellFormed [overrideDoc] ∧
  ∃ registry,
    aggregatedTokenList
      (runCustomTrigger (Some [])
        (runExtraTrigger [overrideDoc]
          (runBaseTrigger [baseDoc; Rejected] initialState))) = Returns registry ∧
    symbol <$> lookup2 registry (JNum 1) (toAddress (Some addrX)) = Some "OVERRIDE".
Proof.
  assert (Hb : wellFormed [baseDoc; Rejected]) by (repeat constructor; by eexists).
  assert (He : wellFormed [overrideDoc]) by (repeat constructor; by eexists).
  split; [exact Hb|]. split; [exact He|].
  destruct (registry_later_source_wins [baseDoc; Rejected] [overrideDoc] [] Hb He)
    as (registry & Hr & Hl).
  - repeat constructor. by exists 1.
  - repeat constructor. by exists 1.
  - constructor.
  - exists registry. split; [exact Hr|]. rewrite Hl. reflexivity.
Defined.

(** C2 fails as stated: of two base lists that declare the same identity,
    the registry keeps the entry of the first, not of the later one. *)
Lemma registry_same_source_first_wins :
  ∃ registry,
    aggregatedTokenList (runBaseTrigger [baseDoc; overrideDoc] initialState)
      = Returns registry ∧
    lookup2 registry (JNum 1) (toAddress (Some addrX))
      = Some (mkToken (entry addrX "BASE" 1) (JNum 1)) ∧
    lookup2 registry (JNum 1) (toAddress (Some addrX))
      ≠ Some (mkToken (entry addrX "OVERRIDE" 1) (JNum 1)).
Proof.
  eexists. split; [vm_compute; reflexivity|].
  split; [vm_compute; reflexivity|]. vm_compute. discriminate.
Qed.

(** C5: a document whose entries spell the chain [chainID] is filed under
    chain 1 when it comes as an extra list or as individual tokens; when it
    comes as a base list its entry is filed under ["undefined"], labelled
    with no chain, and the registry cannot be built. *)
Theorem base_lists_ignore_chainID_spelling :
  (∃ registry,
     aggregatedTokenList (runExtraTrigger [chainIDDoc] initialState) = Returns registry ∧
     lookup2 registry (JNum 1) (toAddress (Some addrX))
       = Some (mkToken (entryID addrX "TKN" 1) (JNum 1))) ∧
  (∃ registry,
     aggregatedTokenList (runCustomTrigger (Some [entryID addrX "TKN" 1]) initialState)
       = Returns registry ∧
     lookup2 registry (JNum 1) (toAddress (Some addrX))
       = Some (mkToken (entryID addrX "TKN" 1) (JNum 1))) ∧
  lookup2 (tokenList (runBaseTrigger [chainIDDoc] initialState)) JUndef
          (toAddress (Some addrX))
    = Some (mkToken (entryID addrX "TKN" 1) JUndef) ∧
  lookup2 (tokenList (runBaseTrigger [chainIDDoc] initialState)) (JNum 1)
          (toAddress (Some addrX)) = None ∧
  aggregatedTokenList (runBaseTrigger [chainIDDoc] initialState)
    = Throws "TypeError: Cannot convert undefined or null to object".
Proof.
  split; [|split].
  - eexists. split; vm_compute; reflexivity.
  - eexists. split; vm_compute; reflexivity.
  - repeat split; vm_compute; reflexivity.
Qed.

(** C7: of two URIs, one answers with a token list and the other with a
    document that has no token array. The trigger throws before it sets
    the base lists, and the registry lacks the tokens of the good list; had
    the second fetch been rejected, they would be there. *)
Theorem malformed_document_blocks_the_other_lists :
  loadBaseLists [baseDoc; malformedDoc] = Throws "TypeError: tokens is not iterable" ∧
  runBaseTrigger [baseDoc; malformedDoc] initialState = initialState ∧
  (∃ registry,
     aggregatedTokenList (runBaseTrigger [baseDoc; malformedDoc] initialState)
       = Returns registry ∧
     lookup2 registry (JNum 1) (toAddress (Some addrX)) = None) ∧
  (∃ registry,
     aggregatedTokenList (runBaseTrigger [baseDoc; Rejected] initialState)
       = Returns registry ∧
     lookup2 registry (JNum 1) (toAddress (Some addrX))
       = Some (mkToken (entry addrX "BASE" 1) (JNum 1))).
Proof.
  split; [reflexivity|]. split; [reflexivity|].
  split; eexists; split; vm_compute; reflexivity.
Qed.

End registry_examples.

(* ===================================================================== *)
(** ** Properties of the balance cache                                    *)
(* ===================================================================== *)

Section cache_facts.
Context `{AddressTools}.
Import UseBalances.

Lemma lookup2_with_chain {T} (m : TNDict (TDict T)) k k' a :
  lookup2 (match m !! k with Some _ => m | None => <[k := ∅]> m end) k' a
    = lookup2 m k' a.
Proof.
  destruct (m !! k) eqn:E; [done|].
  rewrite lookup2_insert. case_decide; [|done]. subst.
  unfold lookup2. by rewrite E.
Qed.

Lemma lookup_with_chain_ne {T} (m : TNDict (TDict T)) k k' :
  k ≠ k' →
  (match m !! k with Some _ => m | None => <[k := ∅]> m end) !! k' = m !! k'.
Proof. intros Hne. destruct (m !! k); [done|]. by rewrite lookup_insert_ne. Qed.

Lemma lookup_default_lookup2 {T} (m : TNDict (TDict T)) k a :
  default ∅ (m !! k) !! a = lookup2 m k a.
Proof.
  unfold lookup2. destruct (m !! k); simpl; [done|]. by rewrite lookup_empty.
Qed.

Lemma lookup2_storeEntry c i x cache k a :
  lookup2 (storeEntry c i x cache) k a =
    if decide (k = JNum c ∧ a = i)
    then Some (spreadToken (lookup2 cache (JNum c) i) x)
    else lookup2 cache k a.
Proof.
  unfold storeEntry. rewrite lookup2_insert.
  case_decide as Hk.
  - subst k. rewrite lookup_insert, !lookup_default_lookup2, !lookup2_with_chain.
    case_decide as Ha.
    + subst. by rewrite decide_True.
    + rewrite decide_False; [done|]. by intros [_ ->].
  - rewrite lookup2_with_chain. rewrite decide_False; [done|]. by intros [-> _].
Qed.

Lemma lookup2_recordEntry c i x updated k a :
  lookup2 (recordEntry c i x updated) k a =
    if decide (k = JNum c ∧ a = i) then Some x else lookup2 updated k a.
Proof.
  unfold recordEntry. rewrite lookup2_insert.
  case_decide as Hk.
  - subst k. rewrite lookup_insert, !lookup_default_lookup2, !lookup2_with_chain.
    case_decide as Ha.
    + subst. by rewrite decide_True.
    + rewrite decide_False; [done|]. by intros [_ ->].
  - rewrite lookup2_with_chain. rewrite decide_False; [done|]. by intros [-> _].
Qed.

(** Merging a partial overwrites the keys it carries and no other. *)
Lemma lookup2_storeEntries c (newRawData : TDict TToken) cache k a :
  lookup2 (map_fold (storeEntry c) cache newRawData) k a =
    if decide (k = JNum c)
    then match newRawData !! a with
         | Some x => Some (spreadToken (lookup2 cache (JNum c) a) x)
         | None => lookup2 cache k a
         end
    else lookup2 cache k a.
Proof.
  revert k a.
  apply (map_fold_weak_ind (λ r (m : TDict TToken), ∀ k a,
    lookup2 r k a =
      if decide (k = JNum c)
      then match m !! a with
           | Some x => Some (spreadToken (lookup2 cache (JNum c) a) x)
           | None => lookup2 cache k a
           end
      else lookup2 cache k a)).
  - intros k a. rewrite lookup_empty. by case_decide.
  - intros i x m r Hi IH k a. rewrite lookup2_storeEntry.
    case_decide as Hka.
    + destruct Hka as [-> ->]. rewrite decide_True by done.
      rewrite lookup_insert_eq. rewrite IH, decide_True by done. by rewrite Hi.
    + rewrite IH. case_decide as Hk; [|done].
      rewrite lookup_insert_ne; [done|]. intros ->. by apply Hka.
Qed.

Lemma lookup2_recordEntries c (newRawData : TDict TToken) updated k a :
  lookup2 (map_fold (recordEntry c) updated newRawData) k a =
    if decide (k = JNum c)
    then match newRawData !! a with
         | Some x => Some x
         | None => lookup2 updated k a
         end
    else lookup2 updated k a.
Proof.
  revert k a.
  apply (map_fold_weak_ind (λ r (m : TDict TToken), ∀ k a,
    lookup2 r k a =
      if decide (k = JNum c)
      then match m !! a with Some x => Some x | None => lookup2 updated k a end
      else lookup2 updated k a)).
  - intros k a. rewrite lookup_empty. by case_decide.
  - intros i x m r Hi IH k a. rewrite lookup2_recordEntry.
    case_decide as Hka.
    + destruct Hka as [-> ->]. rewrite decide_True by done.
      by rewrite lookup_insert_eq.
    + rewrite IH. case_decide as Hk; [|done].
      rewrite lookup_insert_ne; [done|]. intros ->. by apply Hka.
Qed.

(** The loop of lines 172-185 writes two objects; each can be read alone. *)
Lemma map_fold_pair {K} `{Countable K} {V A B} (f : K → V → A → A) (g : K → V → B → B)
    a0 b0 (m : gmap K V) :
  map_fold (λ k v '(a, b), (f k v a, g k v b)) (a0, b0) m =
    (map_fold f a0 m, map_fold g b0 m).
Proof.
  rewrite !map_fold_foldr.
  induction (map_to_list m) as [|[k v] l IH]; simpl; [done|]. by rewrite IH.
Qed.

Lemma lookup2_publishChain c cache b k a :
  lookup2 (publishChain c cache b) k a =
    if decide (k = JNum c)
    then match lookup2 cache k a with Some x => Some x | None => lookup2 b k a end
    else lookup2 b k a.
Proof.
  unfold publishChain. rewrite lookup2_insert.
  destruct (decide (JNum c = k)) as [<-|Hne].
  - rewrite decide_True by done. unfold spread.
    rewrite lookup_union. rewrite !lookup_default_lookup2.
    destruct (lookup2 cache (JNum c) a), (lookup2 b (JNum c) a); done.
  - by rewrite decide_False.
Qed.

End cache_facts.

(** *** Batches *)

Section chunk_facts.
Import UseBalances.
Local Open Scope nat_scope.

Lemma chunksFrom_concat {A} fuel size (l : list A) :
  0 < size → length l ≤ fuel → concat (chunksFrom fuel size l) = l.
Proof.
  intros Hs. revert l. induction fuel as [|fuel IH]; intros l Hl; simpl.
  - destruct l; simpl in *; [done|lia].
  - destruct l as [|x l]; [done|].
    simpl concat. rewrite IH.
    + apply take_drop.
    + rewrite length_drop. simpl in *. lia.
Qed.

Lemma chunksFrom_sizes {A} fuel size (l : list A) :
  0 < size →
  Forall (λ chunk, 0 < length chunk ≤ size) (chunksFrom fuel size l).
Proof.
  intros Hs. revert l. induction fuel as [|fuel IH]; intros l; simpl; [constructor|].
  destruct l as [|x l]; [constructor|].
  constructor; [|apply IH].
  rewrite length_take. simpl. lia.
Qed.


(** The sizes of the batches depend on the number of tokens only. *)
Lemma chunksFrom_lengths {A} fuel size (l : list A) :
  length <$> chunksFrom fuel size l =
    length <$> chunksFrom fuel size (replicate (length l) ()).
Proof.
  revert l. induction fuel as [|fuel IH]; intros l; [done|].
  destruct l as [|x l]; [done|].
  cbn [chunksFrom length replicate fmap list_fmap].
  f_equal.
  - rewrite !length_take. cbn [length]. by rewrite length_replicate.
  - rewrite IH. rewrite length_drop.
    change (() :: replicate (length l) ()) with (replicate (S (length l)) ()).
    by rewrite drop_replicate.
Qed.

Lemma chunksOf_concat {A} size (l : list A) :
  0 < size → concat (chunksOf size l) = l.
Proof. intros. by apply chunksFrom_concat. Qed.


Lemma chunksOf_elem {A} size (l : list A) chunk x :
  0 < size → chunk ∈ chunksOf size l → x ∈ chunk → x ∈ l.
Proof.
  intros Hs Hc Hx. rewrite <- (chunksOf_concat size l Hs).
  apply list_elem_of_In, in_concat. exists chunk.
  split; by apply list_elem_of_In.
Qed.

End chunk_facts.

(** *** The tokens a refresh keeps *)

Section dedupe_facts.
Context `{AddressTools}.
Import UseBalances.

Lemma tokensOfChain_elem c seen tokens t :
  t ∈ tokensOfChain c seen tokens →
  t ∈ tokens ∧ strict_neq (ub_chainID t) (JNum c) = false
  ∧ toAddress (Some (ub_address t)) ∉ seen.
Proof.
  revert seen. induction tokens as [|x l IH]; intros seen; simpl.
  - intros Hin. by apply elem_of_nil in Hin.
  - destruct (strict_neq (ub_chainID x) (JNum c)) eqn:Hc.
    { intros [? ?]%IH. split; [by right|done]. }
    case_bool_decide as Hseen.
    { intros [? ?]%IH. split; [by right|done]. }
    intros [->|Hin]%elem_of_cons.
    + split; [by left|done].
    + apply IH in Hin as (? & ? & Hn). split; [by right|]. split; [done|].
      by apply not_elem_of_union in Hn as [_ ?].
Qed.

Lemma strict_neq_false a c : strict_neq a (JNum c) = false ↔ a = JNum c.
Proof.
  destruct a as [z| |]; simpl; split; try done.
  - intros Hb. apply negb_false_iff, bool_decide_eq_true in Hb. by subst.
  - intros [= ->]. apply negb_false_iff. by apply bool_decide_eq_true.
Qed.

(** Tokens of the active chain with pairwise different normalized addresses
    all pass. *)
Lemma tokensOfChain_id c seen tokens :
  Forall (λ t, ub_chainID t = JNum c) tokens →
  NoDup ((λ t, toAddress (Some (ub_address t))) <$> tokens) →
  (∀ t, t ∈ tokens → toAddress (Some (ub_address t)) ∉ seen) →
  tokensOfChain c seen tokens = tokens.
Proof.
  intros Hc. revert seen. induction Hc as [|x l Hx _ IH]; intros seen Hnd Hseen; [done|].
  simpl. apply strict_neq_false in Hx as ->.
  rewrite bool_decide_eq_false_2 by (apply Hseen; by left).
  f_equal. rewrite fmap_cons in Hnd. apply list.NoDup_cons in Hnd as [Hnx Hnd].
  apply IH; [done|]. intros t Ht.
  apply not_elem_of_union. split.
  - apply not_elem_of_singleton. intros Heq. apply Hnx.
    rewrite <- Heq. by apply (list_elem_of_fmap_2 (λ t, toAddress (Some (ub_address t)))).
  - apply Hseen. by right.
Qed.

Lemma filter_nonzero_id (tokens : list TUseBalancesTokens) :
  Forall (λ t, isZeroAddress (Some (ub_address t)) = false) tokens →
  filter (λ t, isZeroAddress (Some (ub_address t)) = false) tokens = tokens.
Proof.
  induction 1 as [|x l Hx _ IH]; [done|].
  rewrite filter_cons_True by done. by rewrite IH.
Qed.

End dedupe_facts.

(** *** A refresh, batch after batch *)

Section refresh_facts.
Context `{AddressTools}.
Import UseBalances.
Variable getBalances :
  JsNum → option string → list TUseBalancesTokens → TDict TToken * option string.
Variables (ownerArg userAddress : option string) (chainID : Z).

Local Abbreviation answer := (answerOf getBalances ownerArg chainID).
Local Abbreviation step := (fetchChunk getBalances ownerArg userAddress chainID).

Lemma fetchChunk_unfold p chunk :
  step p chunk =
    let d := adoptOwner (toAddress userAddress) (data (hook p)) in
    let cache := map_fold (storeEntry chainID) (ref_balances d) (answer chunk) in
    {| hook := {| data := bump d cache;
                  balances := balances (hook p);
                  status := status (hook p);
                  error := match (getBalances (js_or (JNum chainID) (JNum 1)) ownerArg chunk).2 with
                           | Some e => Some e
                           | None => error (hook p)
                           end |};
       updated := map_fold (recordEntry chainID) (updated p) (answer chunk);
       calls := calls p ++ [callOf ownerArg chainID chunk];
       events := events p ++ [Issued (callOf ownerArg chainID chunk);
                              Answered (callOf ownerArg chainID chunk)] |}.
Proof.
  unfold fetchChunk, takeAnswer, issueCall, answerOf, callOf.
  destruct (getBalances _ ownerArg chunk) as [newRawData err]. simpl.
  rewrite map_fold_pair, <- app_assoc. by destruct err.
Qed.

Lemma fold_calls chunks p :
  calls (foldl step p chunks) = calls p ++ (callOf ownerArg chainID <$> chunks).
Proof.
  revert p. induction chunks as [|ch chunks IH]; intros p; simpl.
  - by rewrite app_nil_r.
  - rewrite IH, fetchChunk_unfold. simpl. by rewrite <- app_assoc.
Qed.

Lemma step_updated p chunk k a :
  lookup2 (updated (step p chunk)) k a =
    if decide (k = JNum chainID)
    then match answer chunk !! a with
         | Some x => Some x
         | None => lookup2 (updated p) k a
         end
    else lookup2 (updated p) k a.
Proof. rewrite fetchChunk_unfold. simpl. apply lookup2_recordEntries. Qed.



(** The returned mapping holds nothing but answers of the batches. *)
Lemma fold_updated_origin chunks p k a :
  is_Some (lookup2 (updated (foldl step p chunks)) k a) →
  is_Some (lookup2 (updated p) k a)
  ∨ (k = JNum chainID ∧ ∃ chunk, chunk ∈ chunks ∧ is_Some (answer chunk !! a)).
Proof.
  revert p. induction chunks as [|ch chunks IH]; intros p; simpl; [by left|].
  intros [Hp|(-> & chunk & Hin & Hsome)]%IH.
  - rewrite step_updated in Hp. case_decide as Hk; [|by left].
    destruct (answer ch !! a) eqn:E; [|by left].
    right. split; [done|]. exists ch. split; [by left|]. by rewrite E.
  - right. split; [done|]. exists chunk. split; [by right|done].
Qed.

Lemma step_owner p chunk :
  ref_address (data (hook (step p chunk))) = toAddress userAddress.
Proof. by rewrite fetchChunk_unfold. Qed.

Lemma adoptOwner_same owner d :
  owner = ref_address d → adoptOwner owner d = d.
Proof.
  intros ->. unfold adoptOwner. rewrite bool_decide_eq_false_2 by (by intros []).
  by destruct d.
Qed.

Lemma step_cache_present p chunk a :
  is_Some (answer chunk !! a)
  ∨ (ref_address (data (hook p)) = toAddress userAddress
     ∧ is_Some (lookup2 (ref_balances (data (hook p))) (JNum chainID) a)) →
  is_Some (lookup2 (ref_balances (data (hook (step p chunk)))) (JNum chainID) a).
Proof.
  rewrite fetchChunk_unfold. simpl.
  rewrite lookup2_storeEntries, decide_True by done.
  intros [[x ->]|[Ho Hc]]; [done|].
  destruct (answer chunk !! a); [done|].
  rewrite bool_decide_eq_false_2; [done|]. intros Hne. by apply Hne.
Qed.

Lemma fold_cache_present chunks p a :
  (ref_address (data (hook p)) = toAddress userAddress
   ∧ is_Some (lookup2 (ref_balances (data (hook p))) (JNum chainID) a))
  ∨ (∃ chunk, chunk ∈ chunks ∧ is_Some (answer chunk !! a)) →
  is_Some (lookup2 (ref_balances (data (hook (foldl step p chunks)))) (JNum chainID) a).
Proof.
  revert p. induction chunks as [|ch chunks IH]; intros p Hor; simpl.
  - destruct Hor as [[_ ?]|(? & Hin & _)]; [done|]. by apply elem_of_nil in Hin.
  - apply IH. destruct Hor as [Hp|(chunk & Hin & Hsome)].
    + left. split; [apply step_owner|]. apply step_cache_present. by right.
    + apply elem_of_cons in Hin as [->|Hin].
      * left. split; [apply step_owner|]. apply step_cache_present. by left.
      * right. by exists chunk.
Qed.

Lemma fold_balances chunks p :
  balances (hook (foldl step p chunks)) = balances (hook p).
Proof.
  revert p. induction chunks as [|ch chunks IH]; intros p; simpl; [done|].
  rewrite IH. by rewrite fetchChunk_unfold.
Qed.

(** *** The batches with what runs during the awaits *)

Local Abbreviation run :=
  (fetchChunks getBalances) (only parsing).

Lemma awaited_quiet i p : awaited (quiet i) p = p.
Proof. by destruct p. Qed.

(** What runs during the await has no hold on the call issued: the batch
    goes as if the call were issued after it. *)
Lemma fetchChunks_cons during chunk chunks i p :
  run during ownerArg userAddress chainID i p (chunk :: chunks)
    = run during ownerArg userAddress chainID (S i)
        (step (awaited (during i) p) chunk) chunks.
Proof. reflexivity. Qed.

(** When nothing else runs, the batches are a fold. *)
Lemma fetchChunks_quiet chunks i p :
  run quiet ownerArg userAddress chainID i p chunks = foldl step p chunks.
Proof.
  revert i p. induction chunks as [|ch chunks IH]; intros i p; [done|].
  rewrite fetchChunks_cons. cbn [foldl]. by rewrite awaited_quiet, IH.
Qed.

Lemma fetchChunks_calls during chunks i p :
  calls (run during ownerArg userAddress chainID i p chunks)
    = calls p ++ (callOf ownerArg chainID <$> chunks).
Proof.
  revert i p. induction chunks as [|ch chunks IH]; intros i p.
  - cbn [fetchChunks]. by rewrite app_nil_r.
  - rewrite fetchChunks_cons, IH, fetchChunk_unfold. cbn [calls awaited].
    by rewrite <- app_assoc.
Qed.


(** The mapping a refresh returns is a local variable: what runs during
    the awaits has no hold on it. *)
Lemma fetchChunks_updated during chunks i p p' :
  updated p = updated p' →
  updated (run during ownerArg userAddress chainID i p chunks)
    = updated (foldl step p' chunks).
Proof.
  revert i p p'. induction chunks as [|ch chunks IH]; intros i p p' Hu; [done|].
  rewrite fetchChunks_cons. cbn [foldl]. apply IH.
  rewrite !fetchChunk_unfold. cbn [updated awaited]. by rewrite Hu.
Qed.


Lemma keepsTheCell_quiet owner : keepsTheCell owner chainID quiet.
Proof. intros i h Ho. by split. Qed.

End refresh_facts.

(** *** The full refresh *)

Section onUpdate_facts.
Context `{AddressTools}.
Import UseBalances.
Variable getBalances :
  JsNum → option string → list TUseBalancesTokens → TDict TToken * option string.
Variable during : Interference.
Variables (userAddress : option string) (chainID : Z).
Variables (tokenList : list TUseBalancesTokens) (h : Hook).

Local Abbreviation answer := (answerOf getBalances userAddress chainID).
Local Abbreviation step := (fetchChunk getBalances userAddress userAddress chainID).
Local Abbreviation refreshed :=
  (onUpdate getBalances during userAddress chainID tokenList h).
Local Abbreviation batches := (chunksOf 500 (keptTokens chainID tokenList)).

(** The refresh is the sequence of its batches, over some starting hook. *)
Lemma onUpdate_progress :
  ∃ h0, data h0 = data h ∧ balances h0 = balances h ∧
    let p := fetchChunks getBalances during userAddress userAddress chainID 0
               {| hook := h0; updated := ∅; calls := []; events := [] |} batches in
    updated refreshed = updated p ∧ calls refreshed = calls p ∧
    events refreshed = events p ∧
    data (hook refreshed) = data (hook p) ∧
    (batches ≠ [] →
       balances (hook refreshed) =
         publishChain chainID (ref_balances (data (hook p))) (balances (hook p))).
Proof.
  unfold onUpdate, keptTokens.
  set (tokens := filter _ tokenList).
  case_bool_decide as Hlen.
  - apply nil_length_inv in Hlen. rewrite Hlen. simpl.
    exists h. do 6 (split; [done|]). intros Hne. exfalso. apply Hne. reflexivity.
  - destruct (tokensOfChain chainID ∅ tokens) as [|t kept] eqn:Hkept.
    + exists (set_status loadingStatus h). do 6 (split; [done|]).
      intros Hne. exfalso. apply Hne. reflexivity.
    + exists (set_status loadingStatus h). do 6 (split; [reflexivity|]).
      intros _. reflexivity.
Qed.

Lemma onUpdate_calls :
  calls refreshed = callOf userAddress chainID <$> batches.
Proof.
  destruct onUpdate_progress as (h0 & _ & _ & _ & -> & _).
  by rewrite fetchChunks_calls.
Qed.


(** The returned mapping is that of the batches folded, whatever runs
    during the awaits. *)
Lemma onUpdate_updated :
  updated refreshed
    = updated (foldl step {| hook := h; updated := ∅; calls := []; events := [] |}
                     batches).
Proof.
  destruct onUpdate_progress as (h0 & _ & _ & -> & _).
  by apply fetchChunks_updated.
Qed.

Lemma batch_tokens_kept batch t :
  batch ∈ batches → t ∈ batch →
  t ∈ tokenList ∧ isZeroAddress (Some (ub_address t)) = false
  ∧ ub_chainID t = JNum chainID.
Proof.
  intros Hb Ht.
  assert (Hk : t ∈ keptTokens chainID tokenList).
  { eapply chunksOf_elem; [|exact Hb|exact Ht]. lia. }
  apply tokensOfChain_elem in Hk as (Hf & Hc & _).
  apply list_elem_of_filter in Hf as [Hz Hin].
  split; [done|]. split; [done|]. by apply strict_neq_false.
Qed.




Lemma onUpdate_entry_origin k a :
  is_Some (lookup2 (updated refreshed) k a) →
  k = JNum chainID ∧ ∃ batch, batch ∈ batches ∧ is_Some (answer batch !! a).
Proof.
  rewrite onUpdate_updated.
  intros [Hp|?]%fold_updated_origin; [|done].
  simpl in Hp. rewrite lookup2_empty in Hp. by destruct Hp.
Qed.

(** What a full refresh fetches and returns comes from tokens with a
    non-zero address on the active chain. *)
Lemma onUpdate_fetches_only_kept call t :
  call ∈ calls refreshed → t ∈ call_tokens call →
  t ∈ tokenList ∧ isZeroAddress (Some (ub_address t)) = false
  ∧ ub_chainID t = JNum chainID.
Proof.
  rewrite onUpdate_calls. intros (batch & -> & Hb)%list_elem_of_fmap Ht.
  by apply (batch_tokens_kept batch).
Qed.

Lemma onUpdate_returns_only_kept k a :
  answersRequested getBalances →
  is_Some (lookup2 (updated refreshed) k a) →
  k = JNum chainID ∧
  ∃ t, t ∈ tokenList ∧ isZeroAddress (Some (ub_address t)) = false
       ∧ ub_chainID t = JNum chainID ∧ toAddress (Some (ub_address t)) = a.
Proof.
  intros Hservice (-> & batch & Hb & Ha)%onUpdate_entry_origin.
  split; [done|]. apply Hservice in Ha as (t & Ht & <-).
  exists t. destruct (batch_tokens_kept batch t Hb Ht) as (? & ? & ?). done.
Qed.

Lemma keptTokens_id :
  Forall (λ t, ub_chainID t = JNum chainID) tokenList →
  Forall (λ t, isZeroAddress (Some (ub_address t)) = false) tokenList →
  NoDup ((λ t, toAddress (Some (ub_address t))) <$> tokenList) →
  keptTokens chainID tokenList = tokenList.
Proof.
  intros Hc Hz Hnd. unfold keptTokens. rewrite filter_nonzero_id by done.
  apply tokensOfChain_id; [done|done|]. intros t _. apply not_elem_of_empty.
Qed.

End onUpdate_facts.

(** *** Owner and nonce *)

Section nonce_facts.
Context `{AddressTools}.
Import UseBalances.

Lemma adoptOwner_nonce owner d :
  ref_nonce (adoptOwner owner d) =
    if bool_decide (owner = ref_address d) then ref_nonce d else 0.
Proof.
  unfold adoptOwner. destruct (decide (owner = ref_address d)) as [Heq|Hne].
  - rewrite (bool_decide_eq_true_2 _ Heq).
    rewrite bool_decide_eq_false_2; [done|]. by intros [].
  - rewrite (bool_decide_eq_false_2 _ Hne). by rewrite bool_decide_eq_true_2.
Qed.

Lemma adoptOwner_address owner d : ref_address (adoptOwner owner d) = owner.
Proof. done. Qed.

(** A merge batch adds one to the nonce when it keeps the owner and
    restarts the nonce at 1 when it changes the owner. *)
Lemma mergeBatch_nonce owner h h' :
  mergeBatch owner h h' →
  ref_address (data h') = owner ∧
  ref_nonce (data h') =
    if bool_decide (owner = ref_address (data h)) then ref_nonce (data h) + 1 else 1.
Proof.
  intros Hm. destruct Hm as [o c new h|gb oa ua c p chunk|gb ua c p chunk].
  - unfold updateBalancesCall. cbn [fst data set_balances set_data bump ref_nonce ref_address].
    rewrite adoptOwner_nonce. split; [done|]. by case_bool_decide.
  - rewrite fetchChunk_unfold. cbn [hook data bump ref_nonce ref_address].
    rewrite adoptOwner_nonce. split; [done|]. by case_bool_decide.
  - unfold triggerChunk.
    destruct (gb _ _ _) as [new err].
    unfold updateBalancesCall.
    cbn [hook fst data set_error set_balances set_data bump ref_nonce ref_address].
    rewrite adoptOwner_nonce. split; [done|]. by case_bool_decide.
Qed.

Lemma mergeBatches_nonce owners h h' :
  mergeBatches owners h h' →
  Forall (λ owner, owner = ref_address (data h)) owners →
  ref_address (data h') = ref_address (data h) ∧
  ref_nonce (data h') = ref_nonce (data h) + Z.of_nat (length owners).
Proof.
  induction 1 as [h|owner owners h h' h'' Hstep _ IH]; intros Hall.
  - split; [done|]. simpl. lia.
  - apply list.Forall_cons in Hall as [-> Hall].
    apply mergeBatch_nonce in Hstep as [Haddr Hn].
    rewrite bool_decide_eq_true_2 in Hn by done.
    destruct IH as [IHa IHn].
    { rewrite Haddr. done. }
    rewrite IHa, IHn, Haddr, Hn. split; [done|].
    rewrite length_cons. lia.
Qed.

(** C3, as amended: over merge batches for the tracked owner the nonce
    grows by one per batch, so it never decreases; the next batch takes it
    one further when it is for the same owner and back to 1 when it is for
    another owner. *)
Theorem nonce_counts_batches_of_one_owner owners h h' :
  mergeBatches owners h h' →
  Forall (λ owner, owner = ref_address (data h)) owners →
  ref_nonce (data h') = ref_nonce (data h) + Z.of_nat (length owners) ∧
  ∀ owner h'', mergeBatch owner h' h'' →
    ref_nonce (data h'') =
      if bool_decide (owner = ref_address (data h))
      then ref_nonce (data h) + Z.of_nat (length owners) + 1
      else 1.
Proof.
  intros Hms Hall. destruct (mergeBatches_nonce _ _ _ Hms Hall) as [Ha Hn].
  split; [done|]. intros owner h'' Hstep.
  apply mergeBatch_nonce in Hstep as [_ ->]. by rewrite Ha, Hn.
Qed.

(** A merge for a new owner leaves in the cell the incoming partial and
    nothing else. *)
Lemma updateBalancesCall_new_owner currentUserAddress chainID newRawData h k a :
  toAddress (Some currentUserAddress) ≠ ref_address (data h) →
  ref_balances (data (updateBalancesCall currentUserAddress chainID newRawData h).1)
    = (updateBalancesCall currentUserAddress chainID newRawData h).2 ∧
  lookup2 (updateBalancesCall currentUserAddress chainID newRawData h).2 k a =
    if decide (k = JNum chainID) then newRawData !! a else None.
Proof.
  intros Hne. unfold updateBalancesCall. cbn [fst snd data set_balances set_data bump ref_balances].
  split; [done|]. rewrite lookup2_storeEntries.
  unfold adoptOwner. rewrite bool_decide_eq_true_2 by done.
  cbn [ref_balances]. rewrite !lookup2_empty.
  case_decide; [|done]. by destruct (newRawData !! a).
Qed.

(** The published balances never lose an entry, whoever the merge is for. *)
Lemma published_balances_never_shrink currentUserAddress chainID newRawData h k a :
  is_Some (lookup2 (balances h) k a) →
  is_Some (lookup2 (balances
    (updateBalancesCall currentUserAddress chainID newRawData h).1) k a).
Proof.
  intros Hs. unfold updateBalancesCall.
  cbn [fst balances set_balances set_data].
  rewrite lookup2_publishChain. case_decide; [|done].
  destruct Hs as [x ->]. by destruct (lookup2 _ k a).
Qed.


End nonce_facts.


(** The scenario of the specification: 1200 tokens make three batches, of
    500, 500 and 200 tokens. *)
Lemma refresh_of_1200_tokens `{AddressTools}
    (getBalances : JsNum → option string → list TUseBalancesTokens
                   → TDict TToken * option string)
    (during : UseBalances.Interference)
    (userAddress : option string) (chainID : Z)
    (tokenList : list TUseBalancesTokens) (h : UseBalances.Hook) :
  length tokenList = 1200%nat →
  Forall (λ t, ub_chainID t = JNum chainID) tokenList →
  Forall (λ t, isZeroAddress (Some (ub_address t)) = false) tokenList →
  NoDup ((λ t, toAddress (Some (ub_address t))) <$> tokenList) →
  length <$> (UseBalances.call_tokens <$> UseBalances.calls
            (UseBalances.onUpdate getBalances during userAddress chainID tokenList h))
    = [500; 500; 200]%nat.
Proof.
  intros Hlen Hc Hz Hnd.
  rewrite onUpdate_calls, (keptTokens_id chainID tokenList Hc Hz Hnd).
  rewrite <- !list_fmap_compose.
  change (length <$> UseBalances.chunksOf 500 tokenList = [500; 500; 200]%nat).
  unfold UseBalances.chunksOf. rewrite chunksFrom_lengths, Hlen.
  vm_compute. reflexivity.
Qed.

(** *** The automatic refresh *)

Section trigger_facts.
Context `{AddressTools}.
Import UseBalances.
Variable getBalances :
  JsNum → option string → list TUseBalancesTokens → TDict TToken * option string.
Variables (userAddress : option string) (chainID : Z).

Lemma triggerChunk_calls p chunk :
  calls (triggerChunk getBalances userAddress chainID p chunk) =
    calls p ++ [triggerCallOf userAddress chainID chunk].
Proof.
  unfold triggerChunk. destruct (getBalances _ _ _) as [newRawData err].
  by destruct (updateBalancesCall _ _ _ _).
Qed.

Lemma trigger_fold_calls chunks p :
  calls (foldl (triggerChunk getBalances userAddress chainID) p chunks) =
    calls p ++ (triggerCallOf userAddress chainID <$> chunks).
Proof.
  revert p. induction chunks as [|ch chunks IH]; intros p; simpl.
  - by rewrite app_nil_r.
  - rewrite IH, triggerChunk_calls. by rewrite <- app_assoc.
Qed.

Lemma refreshTrigger_calls tokens h :
  calls (refreshTrigger getBalances userAddress chainID tokens h) =
    triggerCallOf userAddress chainID <$> chunksOf 500 (tokensOfChain chainID ∅ tokens).
Proof. unfold refreshTrigger. cbn [calls]. by rewrite trigger_fold_calls. Qed.

Lemma triggerChunk_events p chunk :
  events (triggerChunk getBalances userAddress chainID p chunk) =
    events p ++ [Answered (triggerCallOf userAddress chainID chunk)].
Proof.
  unfold triggerChunk. destruct (getBalances _ _ _) as [newRawData err].
  by destruct (updateBalancesCall _ _ _ _).
Qed.

Lemma trigger_fold_events chunks p :
  events (foldl (triggerChunk getBalances userAddress chainID) p chunks) =
    events p ++ (Answered <$> (triggerCallOf userAddress chainID <$> chunks)).
Proof.
  revert p. induction chunks as [|ch chunks IH]; intros p; simpl.
  - by rewrite app_nil_r.
  - rewrite IH, triggerChunk_events. by rewrite <- app_assoc.
Qed.

(** The automatic refresh issues all its calls before it takes up an
    answer, unlike a full refresh. *)
Lemma refreshTrigger_events tokens h :
  events (refreshTrigger getBalances userAddress chainID tokens h) =
    allAtOnce (triggerCallOf userAddress chainID
                 <$> chunksOf 500 (tokensOfChain chainID ∅ tokens)).
Proof.
  unfold refreshTrigger, allAtOnce. cbn [events].
  rewrite trigger_fold_events. cbn [events]. f_equal.
  by rewrite <- list_fmap_compose.
Qed.

(** With two calls or more the two orders differ. *)
Lemma oneAfterTheOther_not_allAtOnce (made : list Call) :
  (2 ≤ length made)%nat → oneAfterTheOther made ≠ allAtOnce made.
Proof.
  destruct made as [|c1 [|c2 rest]]; simpl; [lia|lia|].
  intros _. unfold oneAfterTheOther, allAtOnce. simpl. discriminate.
Qed.

(** Every address of the active chain survives the loop of lines 310-325,
    the zero address like any other. *)
Lemma tokensOfChain_complete seen tokens t :
  t ∈ tokens → ub_chainID t = JNum chainID →
  toAddress (Some (ub_address t)) ∉ seen →
  ∃ t', t' ∈ tokensOfChain chainID seen tokens
        ∧ toAddress (Some (ub_address t')) = toAddress (Some (ub_address t)).
Proof.
  intros Hin Hc. revert seen.
  induction tokens as [|x l IH]; intros seen Hseen.
  - by apply elem_of_nil in Hin.
  - simpl. destruct (strict_neq (ub_chainID x) (JNum chainID)) eqn:Hx.
    { apply elem_of_cons in Hin as [->|Hin]; [|by apply IH].
      apply strict_neq_false in Hc. congruence. }
    case_bool_decide as Hxs.
    { apply elem_of_cons in Hin as [->|Hin]; [done|by apply IH]. }
    destruct (decide (toAddress (Some (ub_address x)) = toAddress (Some (ub_address t))))
      as [Heq|Hne].
    + exists x. split; [by left|done].
    + apply elem_of_cons in Hin as [->|Hin]; [done|].
      destruct (IH Hin ({[toAddress (Some (ub_address x))]} ∪ seen)) as (t' & Ht' & Ha).
      * apply not_elem_of_union. split; [|done].
        apply not_elem_of_singleton. congruence.
      * exists t'. split; [by right|done].
Qed.

Lemma chunksOf_cover {A} size (l : list A) x :
  (0 < size)%nat → x ∈ l → ∃ chunk, chunk ∈ chunksOf size l ∧ x ∈ chunk.
Proof.
  intros Hs Hx. rewrite <- (chunksOf_concat size l Hs) in Hx.
  apply list_elem_of_In, in_concat in Hx as (chunk & Hc & Hx).
  exists chunk. split; by apply list_elem_of_In.
Qed.

(** The automatic refresh asks the service for every address of the active
    chain in its list; it has no test on the zero address. *)
Lemma automatic_refresh_fetches_every_address tokens h t :
  t ∈ tokens → ub_chainID t = JNum chainID →
  ∃ call t',
    call ∈ calls (refreshTrigger getBalances userAddress chainID tokens h)
    ∧ t' ∈ call_tokens call
    ∧ toAddress (Some (ub_address t')) = toAddress (Some (ub_address t)).
Proof.
  intros Hin Hc.
  destruct (tokensOfChain_complete ∅ tokens t Hin Hc) as (t' & Ht' & Ha).
  { apply not_elem_of_empty. }
  destruct (chunksOf_cover 500 _ t' ltac:(lia) Ht') as (chunk & Hchunk & Hx).
  exists (triggerCallOf userAddress chainID chunk), t'.
  rewrite refreshTrigger_calls. split; [|done].
  by apply list_elem_of_fmap_2.
Qed.

End trigger_facts.

Section cache_examples.
Import UseBalances Samples.

(** C1: a merge for account A, then a merge for account B. The cell is
    emptied of A's entry, but the published balances, which the hook
    exposes as [data], still hold it next to B's. The same happens when
    B's merge comes from [onUpdateSome]. *)
Theorem owner_switch_leaves_previous_balances_exposed :
  ref_address (data hookA1) = toAddress (Some addrA) ∧
  ref_address (data hookAB) = toAddress (Some addrB) ∧
  lookup2 (ref_balances (data hookAB)) (JNum 1) addrX = None ∧
  lookup2 (ref_balances (data hookAB)) (JNum 1) addrY = Some (held addrY 1 7) ∧
  lookup2 (balances hookAB) (JNum 1) addrY = Some (held addrY 1 7) ∧
  lookup2 (balances hookAB) (JNum 1) addrX = Some (held addrX 1 5) ∧
  lookup2 (ref_balances (data (hook
      (onUpdateSome echo quiet (Some addrB) 1 [wanted addrY 1] hookA1))))
    (JNum 1) addrX = None ∧
  lookup2 (balances (hook
      (onUpdateSome echo quiet (Some addrB) 1 [wanted addrY 1] hookA1)))
    (JNum 1) addrX = Some (held addrX 1 5).
Proof. repeat split; vm_compute; reflexivity. Qed.

(** C3 fails as stated: after two merges for A the nonce is 2, and the
    merge for B that follows takes it down to 1. *)
Lemma nonce_restarts_on_owner_change :
  ref_nonce (data hookA2) = 2 ∧
  ref_nonce (data (applyMerge hookA2 mergeB)) = 1 ∧
  ref_nonce (data (applyMerge hookA2 mergeB)) < ref_nonce (data hookA2).
Proof. repeat split; vm_compute; reflexivity. Qed.

Lemma nonce_counts_batches_of_one_owner_witness :
  Forall (λ owner, owner = ref_address (data hookA1))
         [toAddress (Some addrA); toAddress (Some addrA)] ∧
  ref_nonce (data hookA3) = ref_nonce (data hookA1) + 2 ∧
  ref_nonce (data (applyMerge hookA3 mergeA)) = ref_nonce (data hookA1) + 2 + 1 ∧
  ref_nonce (data (applyMerge hookA3 mergeB)) = 1.
Proof.
  assert (Hall : Forall (λ owner, owner = ref_address (data hookA1))
                        [toAddress (Some addrA); toAddress (Some addrA)]).
  { repeat constructor. }
  assert (Hms : mergeBatches [toAddress (Some addrA); toAddress (Some addrA)]
                             hookA1 hookA3).
  { eapply merges_cons; [apply (merge_call addrA 1 (m_partial mergeA))|].
    eapply merges_cons; [apply (merge_call addrA 1 (m_partial mergeA))|].
    apply merges_nil. }
  destruct (nonce_counts_batches_of_one_owner _ _ _ Hms Hall) as [Hn Hnext].
  split; [exact Hall|]. split; [exact Hn|]. split.
  - exact (Hnext _ _ (merge_call addrA 1 (m_partial mergeA) hookA3)).
  - exact (Hnext _ _ (merge_call addrB 1 (m_partial mergeB) hookA3)).
Defined.


(** The condition on what runs during the awaits is needed. A refresh for
    the account A fetches X, then A itself; while its second call is
    awaited a merge for the account B lands. The second batch finds B as
    the tracked owner and empties the cell: X is in the mapping the refresh
    returns, but neither in the cell nor in what the refresh goes on to
    publish, and the nonce after the two batches is 1. *)
Lemma merge_between_batches_empties_the_cell :
  length (calls interrupted) = 2%nat ∧
  lookup2 (updated interrupted) (JNum 1) addrX = Some (held addrX 1 1) ∧
  lookup2 (ref_balances (data (hook interrupted))) (JNum 1) addrX = None ∧
  lookup2 (publishChain 1 (ref_balances (data (hook interrupted)))
                        (balances (hook interrupted))) (JNum 1) addrX = None ∧
  ref_nonce (data (hook interrupted)) = 1.
Proof. repeat split; vm_compute; reflexivity. Qed.


(** C10: the automatic refresh on a list with a zero-address token of the
    active chain and a token of another chain. The token of the other chain
    is dropped; the zero address is fetched, and what the service answers
    for it is merged and published. [onUpdate] on the same list fetches
    nothing. *)
Theorem automatic_refresh_fetches_the_zero_address :
  isZeroAddress (Some zeroAddress) = true ∧
  calls (refreshTrigger echo (Some addrA) 1
           [wanted zeroAddress 1; wanted addrX 2] initialHook)
    = [{| call_chain := JNum 1; call_owner := Some addrA;
          call_tokens := [wanted zeroAddress 1] |}] ∧
  lookup2 (balances (hook (refreshTrigger echo (Some addrA) 1
           [wanted zeroAddress 1; wanted addrX 2] initialHook)))
          (JNum 1) zeroAddress
    = Some (held zeroAddress 1 1) ∧
  calls (onUpdate echo quiet (Some addrA) 1
           [wanted zeroAddress 1; wanted addrX 2] initialHook) = [].
Proof. repeat split; vm_compute; reflexivity. Qed.

End cache_examples.

(* ===================================================================== *)
(** ** Properties of the wallet controller                                *)
(* ===================================================================== *)

Section controller_facts.
Context `{AddressTools}.
Import UseWallet.
Variable onUpdate : TChainTokens.
Variable onUpdateSome : list TUseBalancesTokens → TChainTokens.

Lemma findAvailable_None available token :
  findAvailable available token = None ↔
  ∀ known, known ∈ available → ub_address known ≠ ub_address token.
Proof.
  unfold findAvailable. split.
  - intros Hnone known Hin Heq.
    apply list_elem_of_In in Hin. apply (find_none _ _ Hnone) in Hin.
    by apply bool_decide_eq_false in Hin.
  - intros Hall. destruct (List.find _ available) as [known|] eqn:E; [|done].
    apply find_some in E as [Hin Heq]. apply bool_decide_eq_true in Heq.
    exfalso. apply (Hall known); [by apply list_elem_of_In|done].
Qed.

Lemma elem_of_tokensToFetch available newTokenList token :
  token ∈ tokensToFetch available newTokenList ↔
  (∃ listed, listed ∈ Object_values newTokenList ∧ token = toBalancesToken listed)
  ∧ ∀ known, known ∈ available → ub_address known ≠ ub_address token.
Proof.
  unfold tokensToFetch. rewrite <- findAvailable_None.
  rewrite list_elem_of_In, filter_In, <- list_elem_of_In, list_elem_of_fmap.
  split.
  - intros [(listed & -> & Hin) Hf]. split; [by exists listed|].
    by destruct (findAvailable available (toBalancesToken listed)).
  - intros [(listed & Hin & ->) Hf]. split; [by exists listed|]. by rewrite Hf.
Qed.

Lemma onRefreshWithList_outcome available balances newTokenList :
  onRefreshWithList onUpdate onUpdateSome available balances newTokenList =
    match tokensToFetch available newTokenList with
    | [] => (None, balances)
    | toFetch => (Some (UpdateSome toFetch), onUpdateSome toFetch)
    end.
Proof.
  unfold onRefreshWithList.
  destruct (tokensToFetch available newTokenList) as [|t rest]; [done|].
  rewrite bool_decide_eq_true_2 by (simpl; lia). done.
Qed.

End controller_facts.

(** C6, as amended: a refresh with a list fetches exactly the listed tokens
    whose normalized address is the address of no known token, on whatever
    chain; when there is none, nothing is fetched and the current balances
    are returned as they are. *)
Theorem refresh_with_list_fetches_unknown_addresses `{AddressTools}
    (onUpdate : TChainTokens)
    (onUpdateSome : list TUseBalancesTokens → TChainTokens)
    (available : list TUseBalancesTokens) (balances : TChainTokens)
    (newTokenList : UseWallet.TListedDict TToken) :
  (∀ token,
     token ∈ UseWallet.tokensToFetch available newTokenList ↔
     (∃ listed, listed ∈ UseWallet.Object_values newTokenList
                ∧ token = UseWallet.toBalancesToken listed)
     ∧ ∀ known, known ∈ available → ub_address known ≠ ub_address token) ∧
  UseWallet.onRefreshWithList onUpdate onUpdateSome available balances newTokenList =
    match UseWallet.tokensToFetch available newTokenList with
    | [] => (None, balances)
    | toFetch => (Some (UseWallet.UpdateSome toFetch), onUpdateSome toFetch)
    end.
Proof.
  split.
  - intros token. apply elem_of_tokensToFetch.
  - apply onRefreshWithList_outcome.
Qed.

(** C8, as amended: [getBalance] returns the zero-value entry when the
    balances hold no entry for the address under the chain it looks up,
    which is [chainID], or chain 1 when [chainID] is falsy. *)
Theorem getBalance_defaults_to_zero `{AddressTools}
    (balances : TChainTokens) (address : string) (chainID : JsNum) :
  lookup2 balances (js_or chainID (JNum 1)) address = None →
  UseWallet.getBalance balances address chainID = zeroNormalizedBN
  ∧ raw (UseWallet.getBalance balances address chainID) = 0
  ∧ normalized (UseWallet.getBalance balances address chainID) = 0.
Proof. intros Hnone. unfold UseWallet.getBalance. by rewrite Hnone. Qed.

(** C9: with a falsy [chainID], 0 included, [getBalance] and [getToken]
    answer what they answer for chain 1, read from the entries of chain 1. *)
Theorem falsy_chain_reads_chain_1 `{AddressTools} (DEFAULT_ERC20 : TToken)
    (balances : TChainTokens) (address : string) (chainID : JsNum) :
  truthy chainID = false →
  UseWallet.getBalance balances address chainID
    = UseWallet.getBalance balances address (JNum 1)
  ∧ UseWallet.getToken DEFAULT_ERC20 balances address chainID
    = UseWallet.getToken DEFAULT_ERC20 balances address (JNum 1)
  ∧ UseWallet.getBalance balances address chainID
    = default zeroNormalizedBN (balance <$> lookup2 balances (JNum 1) address)
  ∧ UseWallet.getToken DEFAULT_ERC20 balances address chainID
    = default DEFAULT_ERC20 (lookup2 balances (JNum 1) address).
Proof.
  intros Hf. unfold UseWallet.getBalance, UseWallet.getToken, js_or.
  by rewrite Hf.
Qed.

Section controller_examples.
Import UseWallet Samples.

(** C6 fails as stated: X is known on chain 1 and listed on chain 10. The
    identity (10, X) is not among the known tokens, and yet nothing is
    fetched. *)
Lemma refresh_with_list_ignores_the_chain :
  Forall (λ known, (ub_chainID known, ub_address known)
                   ≠ (JNum 10, toAddress (Some addrX)))
         [wanted addrX 1] ∧
  tokensToFetch [wanted addrX 1] [(addrX, held addrX 10 0)] = [] ∧
  onRefreshWithList ∅ (λ _, ∅) [wanted addrX 1] balancesX
                    [(addrX, held addrX 10 0)]
    = (None, balancesX).
Proof.
  split; [|split; vm_compute; reflexivity].
  repeat constructor. vm_compute. discriminate.
Qed.

(** C8 fails as stated: the balances hold no entry for (X, 0), and
    [getBalance] for (X, 0) returns the balance of (X, 1), not zero. *)
Lemma getBalance_of_chain_0_is_not_zero :
  lookup2 balancesX (JNum 0) addrX = None ∧
  getBalance balancesX addrX (JNum 0) = balance (held addrX 1 5) ∧
  getBalance balancesX addrX (JNum 0) ≠ zeroNormalizedBN.
Proof.
  split; [reflexivity|]. split; [reflexivity|]. vm_compute. discriminate.
Qed.

Lemma getBalance_defaults_to_zero_witness :
  lookup2 balancesX (js_or (JNum 1) (JNum 1)) addrY = None ∧
  getBalance balancesX addrY (JNum 1) = zeroNormalizedBN.
Proof.
  assert (Hnone : lookup2 balancesX (js_or (JNum 1) (JNum 1)) addrY = None)
    by reflexivity.
  split; [exact Hnone|].
  exact (proj1 (getBalance_defaults_to_zero balancesX addrY (JNum 1) Hnone)).
Defined.

Lemma falsy_chain_reads_chain_1_witness :
  truthy (JNum 0) = false ∧
  getBalance balancesX addrX (JNum 0) = getBalance balancesX addrX (JNum 1) ∧
  getBalance balancesX addrX (JNum 0) = balance (held addrX 1 5) ∧
  getToken (held zeroAddress 1 0) balancesX addrX (JNum 0) = held addrX 1 5.
Proof.
  destruct (falsy_chain_reads_chain_1 (held zeroAddress 1 0) balancesX addrX
              (JNum 0) eq_refl) as (Hb & _ & Hb1 & Ht1).
  split; [reflexivity|]. split; [exact Hb|]. split; [exact Hb1|exact Ht1].
Defined.

End controller_examples.

(* ===================================================================== *)
(** ** Further properties of the token registry                           *)
(* ===================================================================== *)

Section registry_more.
Context `{AddressTools}.
Import WithTokenList TokenListContext.

Lemma copyTokens_origin (perChain into : TDict TToken) a t :
  copyTokens perChain into !! a = Some t →
  into !! a = Some t
  ∨ (a = toAddress (Some (address t)) ∧ ∃ a', perChain !! a' = Some t).
Proof.
  unfold copyTokens. revert a t.
  apply (map_fold_weak_ind (λ r (m : TDict TToken), ∀ a t,
    r !! a = Some t →
    into !! a = Some t ∨ (a = toAddress (Some (address t)) ∧ ∃ a', m !! a' = Some t))).
  - intros a t Ha. by left.
  - intros i x m r Hi IH a t. rewrite lookup_insert. case_decide as Ha.
    + intros [= <-]. right. split; [done|]. exists i. by rewrite lookup_insert_eq.
    + intros [Hin|(Heq & a' & Ha')]%IH; [by left|].
      right. split; [done|]. exists a'.
      rewrite lookup_insert_ne; [done|]. intros ->. congruence.
Qed.

Lemma aggregate_fold_origin (list agg m : TNDict (TDict TToken)) agg' k a t :
  map_fold (λ eachChainID _ acc, x ←! acc ;; aggregateChain list eachChainID x)
           (Returns agg) m = Returns agg' →
  lookup2 agg' k a = Some t →
  lookup2 agg k a = Some t
  ∨ (a = toAddress (Some (address t)) ∧ ∃ a', lookup2 list k a' = Some t).
Proof.
  revert m agg' k a t.
  apply (map_fold_weak_ind (λ r (m : TNDict (TDict TToken)), ∀ agg' k a t,
    r = Returns agg' → lookup2 agg' k a = Some t →
    lookup2 agg k a = Some t
    ∨ (a = toAddress (Some (address t)) ∧ ∃ a', lookup2 list k a' = Some t))).
  - intros agg' k a t [= <-] Hl. by left.
  - intros i x m r Hi IH agg' k a t Hr Hl.
    destruct r as [agg1|e]; [|done]. simpl in Hr. unfold aggregateChain in Hr.
    destruct (list !! Number_of_key i) as [perChain|] eqn:Hlist; [|done].
    injection Hr as <-. rewrite lookup2_insert in Hl.
    case_decide as Hk.
    + subst k. apply copyTokens_origin in Hl as [Hl|(Ha & a' & Ha')].
      * rewrite lookup_default_lookup2, lookup2_with_chain in Hl.
        by apply (IH agg1).
      * right. split; [done|]. exists a'. unfold lookup2. by rewrite Hlist.
    + rewrite lookup2_with_chain in Hl. by apply (IH agg1).
Qed.

Lemma aggregateList_returns (list : TNDict (TDict TToken)) acc agg' :
  aggregateList list acc = Returns agg' → ∃ agg, acc = Returns agg.
Proof.
  destruct acc as [agg|e]; [by eexists|].
  by rewrite aggregateList_after_throw.
Qed.

Lemma aggregated_origin s registry k a t :
  aggregatedTokenList s = Returns registry →
  lookup2 registry k a = Some t →
  a = toAddress (Some (address t))
  ∧ ∃ a', lookup2 (tokenListCustom s) k a' = Some t
          ∨ lookup2 (tokenListExtra s) k a' = Some t
          ∨ lookup2 (tokenList s) k a' = Some t.
Proof.
  unfold aggregatedTokenList. intros Hr Hl.
  destruct (aggregateList_returns _ _ _ Hr) as [r2 H2]. rewrite H2 in Hr.
  destruct (aggregateList_returns _ _ _ H2) as [r1 H1]. rewrite H1 in H2.
  destruct (aggregate_fold_origin (tokenListCustom s) r2 (tokenListCustom s)
              registry k a t Hr Hl) as [Hl2|(Ha & a' & Ha')];
    [|split; [done|]; exists a'; by left].
  destruct (aggregate_fold_origin (tokenListExtra s) r1 (tokenListExtra s)
              r2 k a t H2 Hl2) as [Hl1|(Ha & a' & Ha')];
    [|split; [done|]; exists a'; right; by left].
  destruct (aggregate_fold_origin (tokenList s) ∅ (tokenList s)
              r1 k a t H1 Hl1) as [Hl0|(Ha & a' & Ha')];
    [|split; [done|]; exists a'; right; by right].
  by rewrite lookup2_empty in Hl0.
Qed.

Lemma freshTokens_empty : freshTokens ∅.
Proof. intros k a t Hl. by rewrite lookup2_empty in Hl. Qed.

Lemma freshTokens_ingest_fold keyOf labelOf (ts : list TTokenListToken) acc :
  freshTokens acc →
  freshTokens (foldl (λ m t, ingestToken (keyOf t) (labelOf t) m t) acc ts).
Proof.
  intros Hacc k a t. rewrite lookup2_ingest_fold.
  destruct (lookup2 acc k a) as [x|] eqn:E.
  - intros [= <-]. by apply (Hacc k a).
  - destruct (List.find _ ts) as [t0|] eqn:Ef; [|done].
    apply find_some in Ef as [_ Hd]. apply bool_decide_eq_true in Hd as [_ Ha].
    simpl. intros [= <-]. done.
Qed.

Lemma loadExtraListsFrom_fresh responses m list :
  freshTokens m → loadExtraListsFrom responses m = Returns list → freshTokens list.
Proof.
  revert m. induction responses as [|[d|] rest IH]; intros m Hm; simpl.
  - by intros [= <-].
  - destruct (tokens d) as [ts|]; [|done]. apply IH.
    by apply (freshTokens_ingest_fold chainIdFirst chainIDFirst).
  - by apply IH.
Qed.

Lemma loaded_fresh s :
  loaded s →
  freshTokens (tokenList s) ∧ freshTokens (tokenListExtra s)
  ∧ freshTokens (tokenListCustom s).
Proof.
  induction 1 as [|responses s _ (Hb & He & Hc)|responses s _ (Hb & He & Hc)
                  |extraTokens s _ (Hb & He & Hc)].
  - split; [|split]; apply freshTokens_empty.
  - unfold runBaseTrigger, loadBaseLists.
    destruct (gatherTokens responses []) as [toks|e]; simpl; [|done].
    split; [|done].
    apply (freshTokens_ingest_fold tl_chainId tl_chainId), freshTokens_empty.
  - unfold runExtraTrigger, loadExtraLists.
    destruct (loadExtraListsFrom responses ∅) as [list|e] eqn:E; simpl; [|done].
    split; [done|]. split; [|done].
    apply (loadExtraListsFrom_fresh responses ∅ list freshTokens_empty E).
  - unfold runCustomTrigger, loadExtraTokens.
    destruct extraTokens as [ts|]; [|done].
    case_bool_decide; simpl; [|done].
    split; [done|]. split; [done|].
    apply (freshTokens_ingest_fold chainIDFirst chainIDFirst), freshTokens_empty.
Qed.

Lemma aggregated_lookup s :
  wellBuilt s →
  ∃ registry, aggregatedTokenList s = Returns registry ∧
    ∀ k a, lookup2 registry k a =
      match lookup2 (tokenListCustom s) k a with
      | Some t => Some t
      | None => match lookup2 (tokenListExtra s) k a with
                | Some t => Some t
                | None => lookup2 (tokenList s) k a
                end
      end.
Proof.
  intros ((Hbn & Hbw) & (Hen & Hew) & (Hcn & Hcw)). unfold aggregatedTokenList.
  destruct (aggregateList_lookup (tokenList s) ∅ Hbn Hbw) as (r1 & -> & H1).
  destruct (aggregateList_lookup (tokenListExtra s) r1 Hen Hew) as (r2 & -> & H2).
  destruct (aggregateList_lookup (tokenListCustom s) r2 Hcn Hcw) as (r3 & -> & H3).
  exists r3. split; [done|]. intros k a. rewrite H3, H2, H1, lookup2_empty.
  destruct (lookup2 (tokenListCustom s) k a); [done|].
  destruct (lookup2 (tokenListExtra s) k a); [done|].
  by destruct (lookup2 (tokenList s) k a).
Qed.

Lemma numericKeys_empty {T} : numericKeys (T:=T) ∅.
Proof. intros k [x Hx]. by rewrite lookup_empty in Hx. Qed.

(** Lists whose entries all declare an integer chain build such a state. *)
Lemma wellBuilt_of_lists (base extra custom : list TTokenListToken) :
  Forall (λ t, ∃ z, tl_chainId t = JNum z) base →
  Forall (λ t, ∃ z, chainIdFirst t = JNum z) extra →
  Forall (λ t, ∃ z, chainIDFirst t = JNum z) custom →
  wellBuilt {| tokenList := foldl ingestBase ∅ base;
               tokenListExtra := foldl ingestExtra ∅ extra;
               tokenListCustom := foldl ingestCustom ∅ custom |}.
Proof.
  intros Hb He Hc. repeat split; cbn [tokenList tokenListExtra tokenListCustom].
  - by apply (numericKeys_ingest_fold tl_chainId tl_chainId); [|apply numericKeys_empty].
  - apply (wellKeyed_ingest_fold tl_chainId tl_chainId).
  - by apply (numericKeys_ingest_fold chainIdFirst chainIDFirst); [|apply numericKeys_empty].
  - apply (wellKeyed_ingest_fold chainIdFirst chainIDFirst).
  - by apply (numericKeys_ingest_fold chainIDFirst chainIDFirst); [|apply numericKeys_empty].
  - apply (wellKeyed_ingest_fold chainIDFirst chainIDFirst).
Qed.

Lemma lookup2_addCustomToken token s k a :
  lookup2 (tokenListCustom (addCustomToken token s)) k a =
    if decide (k = chainID token ∧ a = toAddress (Some (address token)))
    then Some token
    else lookup2 (tokenListCustom s) k a.
Proof.
  unfold addCustomToken. cbn [tokenListCustom]. rewrite lookup2_insert.
  case_decide as Hk.
  - subst k. rewrite lookup_insert, lookup_default_lookup2, !lookup2_with_chain.
    case_decide as Ha.
    + subst a. by rewrite decide_True.
    + rewrite decide_False; [done|]. by intros [_ ->].
  - rewrite lookup2_with_chain. rewrite decide_False; [done|]. by intros [-> _].
Qed.

Lemma wellBuilt_addCustomToken token s c :
  chainID token = JNum c → wellBuilt s → wellBuilt (addCustomToken token s).
Proof.
  intros Hc (Hb & He & (Hcn & Hcw)). split; [done|]. split; [done|]. split.
  - intros k [x Hk]. unfold addCustomToken in Hk. cbn [tokenListCustom] in Hk.
    rewrite lookup_insert in Hk. case_decide as Hkk; [exists c; congruence|].
    destruct (tokenListCustom s !! chainID token) eqn:E.
    + apply Hcn. by rewrite Hk.
    + rewrite lookup_insert_ne in Hk by done. apply Hcn. by rewrite Hk.
  - intros k a t. rewrite lookup2_addCustomToken. case_decide as Hka.
    + destruct Hka as [_ ->]. by intros [= <-].
    + apply Hcw.
Qed.

End registry_more.

(** X1: when every fulfilled response of the base-list URIs carries a
    token array, the first trigger sets the base lists, and every token of
    every fulfilled list has its identity in them, whatever fetches were
    rejected; the extra lists and the individual tokens are not touched. *)
Theorem base_lists_survive_rejected_uris `{AddressTools}
    (responses : list WithTokenList.Settled) (s : WithTokenList.State)
    (d : WithTokenList.Document) (ts : list TTokenListToken) (t : TTokenListToken) :
  wellFormed responses →
  WithTokenList.Fulfilled d ∈ responses → WithTokenList.tokens d = Some ts → t ∈ ts →
  is_Some (lookup2 (WithTokenList.tokenList (WithTokenList.runBaseTrigger responses s))
                   (tl_chainId t) (toAddress (Some (tl_address t))))
  ∧ WithTokenList.tokenListExtra (WithTokenList.runBaseTrigger responses s)
      = WithTokenList.tokenListExtra s
  ∧ WithTokenList.tokenListCustom (WithTokenList.runBaseTrigger responses s)
      = WithTokenList.tokenListCustom s.
Proof.
  intros Hwf Hd Hts Ht. unfold WithTokenList.runBaseTrigger.
  destruct (rejected_uris_do_not_block responses Hwf) as (list & -> & Hall).
  cbn [WithTokenList.tokenList WithTokenList.tokenListExtra
       WithTokenList.tokenListCustom].
  split; [|done]. by apply (Hall d ts t).
Qed.

(** X2: the second trigger rebuilds the extra lists from nothing, going
    through the URIs in order and skipping the rejected ones: for every
    identity it keeps the first entry met, read with [chainId ?? chainID]
    and labelled with [chainID ?? chainId]. *)
Theorem extra_lists_keep_the_first_entry `{AddressTools}
    (responses : list WithTokenList.Settled) (s : WithTokenList.State)
    (k : JsNum) (a : string) :
  wellFormed responses →
  lookup2 (WithTokenList.tokenListExtra (WithTokenList.runExtraTrigger responses s)) k a
    = (λ t, WithTokenList.mkToken t (chainIDFirst t)) <$>
        List.find (λ t, bool_decide (sameIdentity chainIdFirst k a t))
                  (tokensOfResponses responses).
Proof.
  intros Hwf. unfold WithTokenList.runExtraTrigger, WithTokenList.loadExtraLists.
  rewrite loadExtraListsFrom_wellFormed by done.
  cbn [WithTokenList.tokenListExtra]. unfold WithTokenList.ingestExtra.
  by rewrite (lookup2_ingest_fold chainIdFirst chainIDFirst), lookup2_empty.
Qed.

(** X3: whatever the responses were, a token of the aggregated registry
    sits at the normal form of its address and carries no value, a zero
    price and a zero balance: the registry never holds balances. *)
Theorem registry_tokens_are_fresh `{AddressTools}
    (s : WithTokenList.State) (registry : TNDict (TDict TToken))
    (k : JsNum) (a : string) (t : TToken) :
  loaded s →
  WithTokenList.aggregatedTokenList s = Returns registry →
  lookup2 registry k a = Some t →
  toAddress (Some (address t)) = a ∧ value t = 0
  ∧ price t = Some zeroNormalizedBN ∧ balance t = zeroNormalizedBN.
Proof.
  intros Hs Hr Hl.
  destruct (loaded_fresh s Hs) as (Hb & He & Hc).
  destruct (aggregated_origin s registry k a t Hr Hl) as (Ha & a' & [Ht|[Ht|Ht]]).
  - destruct (Hc k a' t Ht) as (Ha' & ? & ? & ?). by rewrite Ha.
  - destruct (He k a' t Ht) as (Ha' & ? & ? & ?). by rewrite Ha.
  - destruct (Hb k a' t Ht) as (Ha' & ? & ? & ?). by rewrite Ha.
Qed.

(** X4: in a state whose dictionaries have integer chains and normalized
    addresses, the registry answers [getToken] with the individual token
    when [isCustomToken] holds, else with the extra-list token when
    [isFromExtraList] holds, else with the base-list token, if any. *)
Theorem getToken_follows_the_tests `{AddressTools}
    (s : WithTokenList.State) (address : string) (chainID : JsNum) :
  wellBuilt s →
  ∃ registry, WithTokenList.aggregatedTokenList s = Returns registry ∧
    WithTokenList.getToken registry address chainID =
      if TokenListContext.isCustomToken s address chainID
      then lookup2 (WithTokenList.tokenListCustom s) chainID (toAddress (Some address))
      else if TokenListContext.isFromExtraList s address chainID
      then lookup2 (WithTokenList.tokenListExtra s) chainID (toAddress (Some address))
      else lookup2 (WithTokenList.tokenList s) chainID (toAddress (Some address)).
Proof.
  intros Hs. destruct (aggregated_lookup s Hs) as (registry & Hr & Hl).
  exists registry. split; [done|].
  unfold WithTokenList.getToken, TokenListContext.isCustomToken,
    TokenListContext.isFromExtraList.
  rewrite Hl.
  destruct (lookup2 (WithTokenList.tokenListCustom s) chainID _) eqn:Ec.
  { by rewrite bool_decide_eq_true_2. }
  rewrite bool_decide_eq_false_2 by (by intros [? ?]).
  destruct (lookup2 (WithTokenList.tokenListExtra s) chainID _) eqn:Ee.
  { by rewrite bool_decide_eq_true_2. }
  by rewrite bool_decide_eq_false_2 by (by intros [? ?]).
Qed.

(** X5: a token added with [addCustomToken] is an individual token at
    once, but the registry handed out is still the one computed before,
    which answers for the identity as the three dictionaries did; the token
    is in the registry, over whatever the lists hold for its identity,
    once a setter has replaced a dictionary, here the base lists. *)
Theorem added_token_reaches_the_registry_later `{AddressTools}
    (s : WithTokenList.State) (token : TToken) (c : Z)
    (list : TNDict (TDict TToken)) :
  wellBuilt s → chainID token = JNum c → numericKeys list → wellKeyed list →
  let v := TokenListContext.addCustomTokenInPlace token (TokenListContext.render s) in
  TokenListContext.isCustomToken (TokenListContext.view_state v)
    (address token) (JNum c) = true
  ∧ (∃ before, TokenListContext.view_registry v = Returns before ∧
       WithTokenList.getToken before (address token) (JNum c) =
         match lookup2 (WithTokenList.tokenListCustom s) (JNum c)
                       (toAddress (Some (address token))) with
         | Some t => Some t
         | None =>
             match lookup2 (WithTokenList.tokenListExtra s) (JNum c)
                           (toAddress (Some (address token))) with
             | Some t => Some t
             | None => lookup2 (WithTokenList.tokenList s) (JNum c)
                               (toAddress (Some (address token)))
             end
         end)
  ∧ ∃ after,
      TokenListContext.view_registry
        (TokenListContext.replaced (TokenListContext.set_tokenList list) v)
        = Returns after
      ∧ WithTokenList.getToken after (address token) (JNum c) = Some token.
Proof.
  intros Hs Hc Hn Hw v. subst v.
  assert (Hnew : lookup2 (WithTokenList.tokenListCustom
                   (WithTokenList.addCustomToken token s)) (JNum c)
                   (toAddress (Some (address token))) = Some token).
  { rewrite lookup2_addCustomToken, decide_True; [done|]. by rewrite Hc. }
  split; [|split].
  - unfold TokenListContext.isCustomToken, TokenListContext.addCustomTokenInPlace,
      TokenListContext.render. cbn [TokenListContext.view_state].
    apply bool_decide_eq_true. by rewrite Hnew.
  - destruct (aggregated_lookup s Hs) as (before & Hb & Hlb).
    exists before. split; [done|]. unfold WithTokenList.getToken. by rewrite Hlb.
  - assert (Hs' : wellBuilt (TokenListContext.set_tokenList list
                               (WithTokenList.addCustomToken token s))).
    { destruct (wellBuilt_addCustomToken token s c Hc Hs) as (_ & He & Hcu).
      split; [done|]. split; done. }
    destruct (aggregated_lookup _ Hs') as (after & Ha & Hla).
    exists after. split; [done|]. unfold WithTokenList.getToken.
    rewrite Hla. cbn [TokenListContext.set_tokenList WithTokenList.tokenListCustom].
    by rewrite Hnew.
Qed.

(** X6: the third trigger does not call its setter when the stored tokens
    are empty or undefined, so tokens that were loaded stay individual
    tokens after the store has been emptied. *)
Theorem emptied_store_keeps_custom_tokens `{AddressTools}
    (s : WithTokenList.State) (ts : list TTokenListToken) (t : TTokenListToken) :
  t ∈ ts →
  TokenListContext.isCustomToken
    (WithTokenList.runCustomTrigger (Some [])
       (WithTokenList.runCustomTrigger (Some ts) s))
    (tl_address t) (chainIDFirst t) = true
  ∧ TokenListContext.isCustomToken
      (WithTokenList.runCustomTrigger None
         (WithTokenList.runCustomTrigger (Some ts) s))
      (tl_address t) (chainIDFirst t) = true.
Proof.
  intros Ht.
  assert (Hlen : (0 < length ts)%nat).
  { destruct ts; [by apply elem_of_nil in Ht|simpl; lia]. }
  unfold WithTokenList.runCustomTrigger, WithTokenList.loadExtraTokens.
  rewrite (bool_decide_eq_true_2 _ Hlen). cbn [length].
  rewrite bool_decide_eq_false_2 by lia.
  cbn [WithTokenList.tokenListCustom].
  assert (Hin : TokenListContext.isCustomToken
    {| WithTokenList.tokenList := WithTokenList.tokenList s;
       WithTokenList.tokenListExtra := WithTokenList.tokenListExtra s;
       WithTokenList.tokenListCustom := foldl WithTokenList.ingestCustom ∅ ts |}
    (tl_address t) (chainIDFirst t) = true).
  { unfold TokenListContext.isCustomToken. apply bool_decide_eq_true.
    cbn [WithTokenList.tokenListCustom]. unfold WithTokenList.ingestCustom.
    rewrite (lookup2_ingest_fold chainIDFirst chainIDFirst), lookup2_empty.
    destruct (List.find _ ts) eqn:E; [done|]. exfalso.
    apply list_elem_of_In in Ht. apply (find_none _ _ E) in Ht.
    apply bool_decide_eq_false in Ht. by apply Ht. }
  by split.
Qed.

(* ===================================================================== *)
(** ** Properties of the single-chain provider                            *)
(* ===================================================================== *)

Section legacy_facts.
Context `{AddressTools}.
Import WithTokenList WithTokenListLegacy.
Variable safeChainID : Z.

Lemma lookup_spread {T} (x y : TDict T) a :
  spread x y !! a = match y !! a with Some t => Some t | None => x !! a end.
Proof.
  unfold spread. rewrite lookup_union.
  by destruct (y !! a), (x !! a).
Qed.

Lemma strict_neq_true a c : strict_neq a (JNum c) = true ↔ a ≠ JNum c.
Proof.
  rewrite <- not_false_iff_true, strict_neq_false. done.
Qed.

Lemma legacy_ingest_lookup acc t a :
  ingestToken safeChainID acc t !! a =
    match acc !! a with
    | Some x => Some x
    | None => if decide (onChainAt safeChainID a t)
              then Some (mkToken t (tl_chainId t)) else None
    end.
Proof.
  unfold ingestToken.
  destruct (acc !! toAddress (Some (tl_address t))) eqn:Eslot.
  - destruct (acc !! a) eqn:Ea; [done|].
    rewrite decide_False; [done|]. intros [_ <-]. congruence.
  - destruct (strict_neq (tl_chainId t) (JNum safeChainID)) eqn:Hc.
    + destruct (acc !! a) eqn:Ea; [done|].
      rewrite decide_False; [done|]. intros [Hon _].
      by apply strict_neq_true in Hc.
    + apply strict_neq_false in Hc. rewrite lookup_insert. case_decide as Ha.
      * subst a. rewrite Eslot. by rewrite decide_True.
      * destruct (acc !! a); [done|].
        rewrite decide_False; [done|]. by intros [_ ?].
Qed.

(** For every address a source keeps the first entry of the active chain. *)
Lemma legacy_fold_lookup (ts : list TTokenListToken) acc a :
  foldl (ingestToken safeChainID) acc ts !! a =
    match acc !! a with
    | Some x => Some x
    | None => (λ t, mkToken t (tl_chainId t)) <$>
                List.find (λ t, bool_decide (onChainAt safeChainID a t)) ts
    end.
Proof.
  revert acc. induction ts as [|t ts IH]; intros acc; simpl.
  - by destruct (acc !! a).
  - rewrite IH, legacy_ingest_lookup.
    destruct (acc !! a); [done|].
    case_bool_decide as Hd.
    + by rewrite decide_True.
    + by rewrite decide_False.
Qed.

Lemma singleChain_fold (ts : list TTokenListToken) acc :
  singleChain safeChainID acc →
  singleChain safeChainID (foldl (ingestToken safeChainID) acc ts).
Proof.
  intros Hacc a t. rewrite legacy_fold_lookup.
  destruct (acc !! a) eqn:E.
  - intros [= <-]. by apply Hacc.
  - destruct (List.find _ ts) as [t0|] eqn:Ef; [|done].
    apply find_some in Ef as [_ Hd]. apply bool_decide_eq_true in Hd as [Hc Ha].
    simpl. intros [= <-]. done.
Qed.

Lemma singleChain_empty : singleChain safeChainID ∅.
Proof. intros a t Hl. by rewrite lookup_empty in Hl. Qed.

Lemma legacy_extra_from_singleChain responses m list :
  singleChain safeChainID m →
  loadExtraListsFrom safeChainID responses m = Returns list →
  singleChain safeChainID list.
Proof.
  revert m. induction responses as [|[d|] rest IH]; intros m Hm; simpl.
  - by intros [= <-].
  - destruct (tokens d) as [ts|]; [|done]. apply IH. by apply singleChain_fold.
  - by apply IH.
Qed.

Lemma legacy_extra_wellFormed responses m :
  wellFormed responses →
  loadExtraListsFrom safeChainID responses m =
    Returns (foldl (ingestToken safeChainID) m (tokensOfResponses responses)).
Proof.
  intros Hwf. revert m.
  induction Hwf as [|r rs Hr _ IH]; intros m; simpl; [done|].
  destruct r as [d|]; simpl.
  - destruct Hr as [ts Hts]. rewrite Hts.
    rewrite IH. unfold tokensOfResponses. simpl. rewrite Hts. simpl.
    by rewrite foldl_app.
  - by rewrite IH.
Qed.

Lemma legacyLoaded_singleChain s :
  legacyLoaded safeChainID s →
  singleChain safeChainID (tokenList s)
  ∧ singleChain safeChainID (tokenListExtra s)
  ∧ singleChain safeChainID (tokenListCustom s).
Proof.
  induction 1 as [|responses s _ (Hb & He & Hc)|responses s _ (Hb & He & Hc)
                  |extraTokens s _ (Hb & He & Hc)].
  - split; [|split]; apply singleChain_empty.
  - unfold runBaseTrigger, loadBaseLists.
    destruct (gatherTokens responses []) as [toks|e]; simpl; [|done].
    split; [|done]. apply singleChain_fold, singleChain_empty.
  - unfold runExtraTrigger, loadExtraLists.
    destruct (loadExtraListsFrom safeChainID responses ∅) as [list|e] eqn:E;
      simpl; [|done].
    split; [done|]. split; [|done].
    apply (legacy_extra_from_singleChain responses ∅ list singleChain_empty E).
  - unfold runCustomTrigger, loadExtraTokens.
    destruct extraTokens as [ts|]; [|done].
    case_bool_decide; simpl; [|done].
    split; [done|]. split; [done|].
    apply singleChain_fold, singleChain_empty.
Qed.

End legacy_facts.

(** X7: in the single-chain provider, whatever the responses were, as
    long as the triggers ran for one active chain every token of the
    aggregated list is of that chain, sits at the normal form of its
    address and carries a zero balance. *)
Theorem legacy_registry_is_single_chain `{AddressTools}
    (safeChainID : Z) (s : WithTokenListLegacy.State) (a : string) (t : TToken) :
  legacyLoaded safeChainID s →
  WithTokenListLegacy.aggregatedTokenList s !! a = Some t →
  chainID t = JNum safeChainID ∧ toAddress (Some (address t)) = a
  ∧ balance t = zeroNormalizedBN.
Proof.
  intros Hs. destruct (legacyLoaded_singleChain safeChainID s Hs) as (Hb & He & Hc).
  unfold WithTokenListLegacy.aggregatedTokenList. rewrite !lookup_spread.
  destruct (WithTokenListLegacy.tokenListCustom s !! a) as [x|] eqn:Ec.
  { intros [= <-]. by apply Hc. }
  destruct (WithTokenListLegacy.tokenListExtra s !! a) as [x|] eqn:Ee.
  { intros [= <-]. by apply He. }
  by apply Hb.
Qed.

(** X8: in the single-chain provider an address resolves to the stored
    individual token if there is one, else to the extra-list token, else
    to the base-list token; and each source keeps, for an address, its
    first entry that is of the active chain, so that an earlier entry of
    another chain with the same address does not shadow it. *)
Theorem legacy_registry_precedence `{AddressTools}
    (safeChainID : Z) (baseResponses extraResponses : list WithTokenList.Settled)
    (custom : list TTokenListToken) (tokenAddress : string) :
  wellFormed baseResponses → wellFormed extraResponses →
  WithTokenListLegacy.getToken
    (WithTokenListLegacy.runCustomTrigger safeChainID (Some custom)
      (WithTokenListLegacy.runExtraTrigger safeChainID extraResponses
        (WithTokenListLegacy.runBaseTrigger safeChainID baseResponses
          WithTokenListLegacy.initialState)))
    tokenAddress
  = (λ t, WithTokenList.mkToken t (JNum safeChainID)) <$>
      match List.find (λ t, bool_decide
              (onChainAt safeChainID (toAddress (Some tokenAddress)) t)) custom with
      | Some t => Some t
      | None =>
        match List.find (λ t, bool_decide
                (onChainAt safeChainID (toAddress (Some tokenAddress)) t))
                (tokensOfResponses extraResponses) with
        | Some t => Some t
        | None =>
            List.find (λ t, bool_decide
                (onChainAt safeChainID (toAddress (Some tokenAddress)) t))
                (tokensOfResponses baseResponses)
        end
      end.
Proof.
  intros Hb He.
  unfold WithTokenListLegacy.getToken, WithTokenListLegacy.aggregatedTokenList,
    WithTokenListLegacy.runCustomTrigger, WithTokenListLegacy.runExtraTrigger,
    WithTokenListLegacy.runBaseTrigger, WithTokenListLegacy.loadBaseLists,
    WithTokenListLegacy.loadExtraLists.
  rewrite gatherTokens_wellFormed, legacy_extra_wellFormed by done.
  cbn [bindC app].
  set (a := toAddress (Some tokenAddress)).
  assert (Hmk : ∀ ts, (λ t, WithTokenList.mkToken t (tl_chainId t)) <$>
      List.find (λ t, bool_decide (onChainAt safeChainID a t)) ts
    = (λ t, WithTokenList.mkToken t (JNum safeChainID)) <$>
      List.find (λ t, bool_decide (onChainAt safeChainID a t)) ts).
  { intros ts. destruct (List.find _ ts) as [t|] eqn:E; [|done].
    apply find_some in E as [_ Hd]. apply bool_decide_eq_true in Hd as [Hc _].
    simpl. by rewrite Hc. }
  unfold WithTokenListLegacy.loadExtraTokens.
  case_bool_decide as Hlen; cbn [WithTokenListLegacy.tokenListCustom
    WithTokenListLegacy.tokenListExtra WithTokenListLegacy.tokenList].
  - rewrite !lookup_spread, !legacy_fold_lookup, !lookup_empty, !Hmk.
    destruct (List.find _ custom); [done|]. simpl.
    destruct (List.find _ (tokensOfResponses extraResponses)); [done|]. simpl.
    by destruct (List.find _ (tokensOfResponses baseResponses)).
  - destruct custom; [|simpl in Hlen; lia]. simpl.
    rewrite !lookup_spread, !legacy_fold_lookup, !lookup_empty, !Hmk.
    destruct (List.find _ (tokensOfResponses extraResponses)); [done|]. simpl.
    by destruct (List.find _ (tokensOfResponses baseResponses)).
Qed.

(* ===================================================================== *)
(** ** Further properties of the balances hook                            *)
(* ===================================================================== *)

Section dedupe_more.
Context `{AddressTools}.
Import UseBalances.
Variable chainID : Z.

Lemma tokensOfChain_find seen tokens a :
  List.find (λ t, bool_decide (normalizedAddress t = a))
            (tokensOfChain chainID seen tokens) =
    if bool_decide (a ∈ seen) then None
    else List.find (λ t, bool_decide (ub_chainID t = JNum chainID
                                      ∧ normalizedAddress t = a)) tokens.
Proof.
  revert seen. induction tokens as [|x l IH]; intros seen; simpl.
  - by case_bool_decide.
  - destruct (strict_neq (ub_chainID x) (JNum chainID)) eqn:Hx.
    { rewrite IH. apply strict_neq_true in Hx.
      rewrite (bool_decide_eq_false_2 (_ ∧ _)); [done|]. by intros [? _]. }
    apply strict_neq_false in Hx.
    destruct (decide (normalizedAddress x ∈ seen)) as [Hin|Hout].
    { rewrite (bool_decide_eq_true_2 _ Hin), IH.
      case_bool_decide as Ha; [done|].
      rewrite (bool_decide_eq_false_2 (_ ∧ _)); [done|].
      intros [_ <-]. done. }
    rewrite (bool_decide_eq_false_2 _ Hout). simpl.
    destruct (decide (normalizedAddress x = a)) as [Heq|Hne].
    + rewrite (bool_decide_eq_true_2 _ Heq).
      rewrite bool_decide_eq_false_2 by (by rewrite <- Heq).
      by rewrite bool_decide_eq_true_2.
    + rewrite (bool_decide_eq_false_2 _ Hne), IH.
      rewrite (bool_decide_eq_false_2 (_ ∧ _)) by (by intros [_ ?]).
      destruct (decide (a ∈ seen)) as [Has|Has].
      * rewrite (bool_decide_eq_true_2 (a ∈ seen) Has).
        rewrite bool_decide_eq_true_2; [done|]. by apply elem_of_union_r.
      * rewrite (bool_decide_eq_false_2 (a ∈ seen) Has).
        rewrite bool_decide_eq_false_2; [done|].
        unfold normalizedAddress in *.
        intros [?%elem_of_singleton|?]%elem_of_union; congruence.
Qed.

Lemma tokensOfChain_NoDup seen tokens :
  NoDup (normalizedAddress <$> tokensOfChain chainID seen tokens).
Proof.
  revert seen. induction tokens as [|x l IH]; intros seen; simpl.
  - constructor.
  - destruct (strict_neq _ _); [apply IH|].
    case_bool_decide; [apply IH|].
    rewrite fmap_cons. apply list.NoDup_cons. split; [|apply IH].
    intros (t & Ha & Hin)%list_elem_of_fmap.
    apply tokensOfChain_elem in Hin as (_ & _ & Hseen).
    apply Hseen. apply elem_of_union_l, elem_of_singleton.
    symmetry. exact Ha.
Qed.

Lemma tokensOfChain_sublist seen tokens :
  sublist (tokensOfChain chainID seen tokens) tokens.
Proof.
  revert seen. induction tokens as [|x l IH]; intros seen; simpl.
  - constructor.
  - destruct (strict_neq _ _); [by apply sublist_cons|].
    case_bool_decide; [by apply sublist_cons|].
    by apply sublist_skip.
Qed.

End dedupe_more.

(** X9: the loop that prepares a refresh keeps, for every normalized
    address, the first token of the list that is of the active chain and
    has that address, and nothing else: the tokens kept are in the order of
    the list and their normalized addresses are pairwise different. *)
Theorem requested_twice_counts_once `{AddressTools}
    (chainID : Z) (tokens : list TUseBalancesTokens) :
  NoDup (normalizedAddress <$> UseBalances.tokensOfChain chainID ∅ tokens)
  ∧ sublist (UseBalances.tokensOfChain chainID ∅ tokens) tokens
  ∧ ∀ a, List.find (λ t, bool_decide (normalizedAddress t = a))
                   (UseBalances.tokensOfChain chainID ∅ tokens)
         = List.find (λ t, bool_decide (ub_chainID t = JNum chainID
                                        ∧ normalizedAddress t = a)) tokens.
Proof.
  split; [apply tokensOfChain_NoDup|]. split; [apply tokensOfChain_sublist|].
  intros a. rewrite tokensOfChain_find.
  rewrite bool_decide_eq_false_2; [done|]. apply not_elem_of_empty.
Qed.

Section chunk_more.
Import UseBalances.
Local Open Scope nat_scope.

Lemma chunksFrom_full {A} fuel size (l : list A) before last :
  0 < size → length l ≤ fuel →
  chunksFrom fuel size l = before ++ [last] →
  Forall (λ chunk, length chunk = size) before.
Proof.
  intros Hs. revert l before. induction fuel as [|fuel IH]; intros l before Hl.
  - simpl. intros Hnil. by destruct before.
  - destruct l as [|x l]; simpl.
    { intros Hnil. by destruct before. }
    destruct before as [|b before]; [constructor|].
    rewrite <- app_comm_cons. intros [= Hb Hrest].
    assert (Hlong : size ≤ length l).
    { destruct (decide (size ≤ length l)) as [|Hshort]; [done|].
      destruct size as [|size]; [lia|].
      simpl in Hrest. rewrite drop_ge in Hrest by lia.
      destruct fuel; simpl in Hrest; by destruct before. }
    constructor.
    + rewrite <- Hb. rewrite length_take. simpl. lia.
    + apply (IH (drop size (x :: l))); [|done].
      rewrite length_drop. simpl in *. lia.
Qed.

End chunk_more.

(** X10: the slices of a list are not empty, hold at most [size] elements,
    give the list back when put end to end, and all of them but the last
    hold exactly [size] elements. *)
Theorem batches_partition_the_list {A} (size : nat) (l : list A) :
  (0 < size)%nat →
  concat (UseBalances.chunksOf size l) = l
  ∧ Forall (λ chunk, (0 < length chunk ≤ size)%nat) (UseBalances.chunksOf size l)
  ∧ ∀ before last, UseBalances.chunksOf size l = before ++ [last] →
      Forall (λ chunk, length chunk = size) before.
Proof.
  intros Hs. split; [by apply chunksOf_concat|].
  split; [by apply chunksFrom_sizes|].
  intros before last. by apply chunksFrom_full.
Qed.

Section hook_invariants.
Context `{AddressTools}.
Import UseBalances.

Lemma storeEntry_keys c a x (cache : TChainTokens) k :
  is_Some (storeEntry c a x cache !! k) → k = JNum c ∨ is_Some (cache !! k).
Proof.
  unfold storeEntry. destruct (decide (k = JNum c)) as [->|Hne]; [by left|].
  rewrite lookup_insert_ne by done.
  rewrite lookup_with_chain_ne by done. by right.
Qed.

Lemma storeEntries_keys c (newRawData : TDict TToken) (cache : TChainTokens) k :
  is_Some (map_fold (storeEntry c) cache newRawData !! k) →
  k = JNum c ∨ is_Some (cache !! k).
Proof.
  apply (map_fold_weak_ind (λ r (_ : TDict TToken),
    is_Some (r !! k) → k = JNum c ∨ is_Some (cache !! k))).
  - by right.
  - intros a x m r _ IH [?|?]%storeEntry_keys; [by left|by apply IH].
Qed.

Lemma numericKeys_storeEntries c (newRawData : TDict TToken) (cache : TChainTokens) :
  numericKeys cache → numericKeys (map_fold (storeEntry c) cache newRawData).
Proof.
  intros Hn k [->|Hk]%storeEntries_keys; [by exists c|by apply Hn].
Qed.

Lemma numericKeys_adoptOwner owner d :
  numericKeys (ref_balances d) → numericKeys (ref_balances (adoptOwner owner d)).
Proof.
  intros Hn. unfold adoptOwner. case_bool_decide; [|done].
  cbn [ref_balances]. intros k. rewrite lookup_empty. by intros [].
Qed.

(** Taking an owner leaves the cell as it is or empties it. *)
Lemma adoptOwner_lookup owner d k a x :
  lookup2 (ref_balances (adoptOwner owner d)) k a = Some x →
  lookup2 (ref_balances d) k a = Some x.
Proof.
  unfold adoptOwner. case_bool_decide; [|done].
  cbn [ref_balances]. by rewrite lookup2_empty.
Qed.

Lemma publishAll_lookup (cache previous : TChainTokens) k a :
  numericKeys cache →
  lookup2 (publishAll cache previous) k a =
    match lookup2 cache k a with Some x => Some x | None => lookup2 previous k a end.
Proof.
  unfold publishAll. revert k a.
  apply (map_fold_weak_ind (λ r (m : TChainTokens), ∀ k a, numericKeys m →
    lookup2 r k a =
      match lookup2 m k a with Some x => Some x | None => lookup2 previous k a end)).
  - intros k a _. by rewrite lookup2_empty.
  - intros i x m r Hi IH k a Hn.
    destruct (Hn i) as [z ->]; [by rewrite lookup_insert_eq|].
    assert (Hm : numericKeys m).
    { intros k' Hk'. apply Hn. rewrite lookup_insert_ne; [done|].
      intros <-. rewrite Hi in Hk'. by destruct Hk'. }
    cbn [Number_of_key]. rewrite !lookup2_insert.
    case_decide as Hk.
    + subst k. rewrite lookup_spread, lookup_default_lookup2.
      destruct (x !! a); [done|]. rewrite IH by done.
      unfold lookup2 at 1. by rewrite Hi.
    + by apply IH.
Qed.

Lemma publishAll_grows (cache previous : TChainTokens) k a :
  is_Some (lookup2 previous k a) →
  is_Some (lookup2 (publishAll cache previous) k a).
Proof.
  intros Hp. unfold publishAll.
  apply (map_fold_weak_ind (λ r (_ : TChainTokens), is_Some (lookup2 r k a))); [done|].
  intros i x m r _ IH. rewrite lookup2_insert.
  case_decide as Hk; [|done]. subst k.
  rewrite lookup_spread, lookup_default_lookup2.
  destruct (x !! a); [done|]. done.
Qed.

Lemma publishChain_grows c cache (b : TChainTokens) k a :
  is_Some (lookup2 b k a) → is_Some (lookup2 (publishChain c cache b) k a).
Proof.
  intros [x Hx]. rewrite lookup2_publishChain, Hx.
  case_decide; [|done]. by destruct (lookup2 cache k a).
Qed.

Section batches.
Variable getBalances :
  JsNum → option string → list TUseBalancesTokens → TDict TToken * option string.
Variables (ownerArg userAddress : option string) (chainID : Z).

Local Abbreviation step := (fetchChunk getBalances ownerArg userAddress chainID).
Local Abbreviation tstep := (triggerChunk getBalances userAddress chainID).

Lemma triggerChunk_unfold p chunk :
  tstep p chunk =
    {| hook := set_error (getBalances (JNum chainID) userAddress chunk).2
                 (updateBalancesCall (toAddress userAddress) chainID
                    (getBalances (JNum chainID) userAddress chunk).1 (hook p)).1;
       updated := updated p;
       calls := calls p ++ [triggerCallOf userAddress chainID chunk];
       events := events p ++ [Answered (triggerCallOf userAddress chainID chunk)] |}.
Proof.
  unfold triggerChunk. by destruct (getBalances _ _ _) as [newRawData err].
Qed.

Lemma fold_status chunks p :
  status (hook (foldl step p chunks)) = status (hook p).
Proof.
  revert p. induction chunks as [|ch chunks IH]; intros p; simpl; [done|].
  rewrite IH. by rewrite fetchChunk_unfold.
Qed.

Lemma fold_numericKeys chunks p :
  numericKeys (ref_balances (data (hook p))) →
  numericKeys (ref_balances (data (hook (foldl step p chunks)))).
Proof.
  revert p. induction chunks as [|ch chunks IH]; intros p Hn; simpl; [done|].
  apply IH. rewrite fetchChunk_unfold. cbn [hook data bump ref_balances].
  by apply numericKeys_storeEntries, numericKeys_adoptOwner.
Qed.

Lemma fold_nonce_pos chunks p :
  (0 ≤ ref_nonce (data (hook p)))%Z →
  (0 ≤ ref_nonce (data (hook (foldl step p chunks))))%Z.
Proof.
  revert p. induction chunks as [|ch chunks IH]; intros p Hn; simpl; [done|].
  apply IH. rewrite fetchChunk_unfold. cbn [hook data bump ref_nonce].
  rewrite adoptOwner_nonce. case_bool_decide; lia.
Qed.

(** The batches of a refresh leave the other chains of the cell as they
    are, or empty them. *)
Lemma fold_cell_elsewhere chunks p k a x :
  k ≠ JNum chainID →
  lookup2 (ref_balances (data (hook (foldl step p chunks)))) k a = Some x →
  lookup2 (ref_balances (data (hook p))) k a = Some x.
Proof.
  intros Hk. revert p. induction chunks as [|ch chunks IH]; intros p; simpl; [done|].
  intros Hx%IH. revert Hx. rewrite fetchChunk_unfold. cbn [hook data bump ref_balances].
  rewrite lookup2_storeEntries, decide_False by done. apply adoptOwner_lookup.
Qed.

End batches.

Lemma merge_sound currentUserAddress chainID newRawData h :
  sound h → sound (updateBalancesCall currentUserAddress chainID newRawData h).1.
Proof.
  intros (Hn & Hc & Hs & Hz). unfold updateBalancesCall, sound, publishedCoversCell.
  cbn [fst data balances status set_balances set_data bump ref_balances ref_nonce].
  split; [by apply numericKeys_storeEntries, numericKeys_adoptOwner|].
  split; [|split; [done|rewrite adoptOwner_nonce; case_bool_decide; lia]].
  intros k a x Hx. rewrite lookup2_publishChain.
  case_decide as Hk; [by rewrite Hx|].
  apply Hc. revert Hx. rewrite lookup2_storeEntries, decide_False by done.
  apply adoptOwner_lookup.
Qed.

Lemma set_error_sound e h : sound h → sound (set_error e h).
Proof. done. Qed.

Lemma operation_sound h h' : operation h h' → sound h → sound h'.
Proof.
  intros Hop (Hn & Hc & Hs & Hz).
  destruct Hop as [o c new h|gb ua c tokenList h|gb ua c tokenList h|gb ua c tokens h].
  - by apply merge_sound.
  - unfold onUpdate. case_bool_decide; [done|].
    destruct (tokensOfChain c ∅ _) as [|t kept]; [by repeat split; auto|].
    rewrite fetchChunks_quiet.
    set (chunks := chunksOf 500 (t :: kept)).
    set (p0 := {| hook := set_status loadingStatus h; updated := ∅; calls := [];
                  events := [] |}).
    unfold sound, publishedCoversCell.
    cbn [hook data balances status set_status set_balances].
    split; [by apply fold_numericKeys|].
    split; [|split; [auto|by apply fold_nonce_pos]].
    intros k a x Hx. rewrite lookup2_publishChain.
    case_decide as Hk; [by rewrite Hx|].
    rewrite fold_balances. apply Hc.
    by apply (fold_cell_elsewhere gb ua ua c chunks p0) in Hx.
  - unfold onUpdateSome. rewrite fetchChunks_quiet.
    set (chunks := chunksOf 500 _).
    set (p0 := {| hook := set_status loadingStatus h; updated := ∅; calls := [];
                  events := [] |}).
    unfold sound, publishedCoversCell.
    cbn [hook data balances status set_status set_balances].
    split; [by apply fold_numericKeys|].
    split; [|split; [auto|by apply fold_nonce_pos]].
    intros k a x Hx. rewrite publishAll_lookup by (by apply fold_numericKeys).
    by rewrite Hx.
  - unfold refreshTrigger.
    set (chunks := chunksOf 500 _).
    assert (Hfold : ∀ p, sound (hook p) →
              sound (hook (foldl (triggerChunk gb ua c) p chunks))).
    { induction chunks as [|ch chunks IH]; intros p Hp; simpl; [done|].
      apply IH. rewrite triggerChunk_unfold. cbn [hook].
      by apply set_error_sound, merge_sound. }
    set (p0 := {| hook := set_status loadingStatus h; updated := ∅; calls := [];
                  events := _ |}).
    destruct (Hfold p0) as (Hn' & Hc' & _ & Hz'); [by repeat split; auto|].
    repeat split; auto.
Qed.

Lemma initialHook_sound : sound initialHook.
Proof.
  split; [|split; [|split; [by left|done]]].
  - intros k. simpl. rewrite lookup_empty. by intros [].
  - intros k a x. simpl. by rewrite lookup2_empty.
Qed.

Lemma reachable_sound h : reachable h → sound h.
Proof.
  induction 1 as [|h h' _ IH Hop]; [apply initialHook_sound|].
  by apply (operation_sound h).
Qed.

End hook_invariants.

(** X11: the hook never reports an error status. Whatever operations ran,
    the flags are those of the initial, the loading or the success status,
    so [isError] is false and the status string is "unknown", "loading" or
    "success", also when the read service reported an error. *)
Theorem status_is_never_error `{AddressTools} (h : UseBalances.Hook) :
  reachable h →
  isError (UseBalances.status h) = false
  ∧ (UseBalancesResult.res_status (UseBalancesResult.contextValue h) = "unknown"
     ∨ UseBalancesResult.res_status (UseBalancesResult.contextValue h) = "loading"
     ∨ UseBalancesResult.res_status (UseBalancesResult.contextValue h) = "success").
Proof.
  intros (_ & _ & Hs & _)%reachable_sound.
  unfold UseBalancesResult.contextValue. cbn [UseBalancesResult.res_status].
  destruct Hs as [->| [->| ->]]; (split; [done|]); auto.
Qed.

(** X12: between operations the published balances hold every entry of
    the cell, with the value the cell has for it, and the nonce is not
    negative. *)
Theorem published_balances_cover_the_cell `{AddressTools}
    (h : UseBalances.Hook) k a x :
  reachable h →
  lookup2 (UseBalances.ref_balances (UseBalances.data h)) k a = Some x →
  lookup2 (UseBalances.balances h) k a = Some x
  ∧ (0 ≤ UseBalances.ref_nonce (UseBalances.data h))%Z.
Proof.
  intros (_ & Hc & _ & Hz)%reachable_sound Hx. split; [by apply Hc|done].
Qed.

(** X13: no operation of the hook takes an entry out of the published
    balances: a merge, a full refresh, a refresh of some tokens and the
    automatic refresh leave every published identity published, also when
    the owner changes. *)
Theorem published_entries_are_never_removed `{AddressTools}
    (h h' : UseBalances.Hook) k a :
  operation h h' →
  is_Some (lookup2 (UseBalances.balances h) k a) →
  is_Some (lookup2 (UseBalances.balances h') k a).
Proof.
  intros Hop Hs.
  destruct Hop as [o c new h|gb ua c tokenList h|gb ua c tokenList h|gb ua c tokens h].
  - by apply published_balances_never_shrink.
  - unfold UseBalances.onUpdate. case_bool_decide; [done|].
    destruct (UseBalances.tokensOfChain c ∅ _) as [|t kept]; [done|].
    rewrite fetchChunks_quiet.
    cbn [UseBalances.hook UseBalances.balances UseBalances.set_status
         UseBalances.set_balances].
    apply publishChain_grows. by rewrite fold_balances.
  - unfold UseBalances.onUpdateSome. rewrite fetchChunks_quiet.
    cbn [UseBalances.hook UseBalances.balances UseBalances.set_status
         UseBalances.set_balances].
    apply publishAll_grows. by rewrite fold_balances.
  - unfold UseBalances.refreshTrigger.
    cbn [UseBalances.hook UseBalances.balances UseBalances.set_status].
    set (chunks := UseBalances.chunksOf 500 _).
    assert (Hfold : ∀ p, is_Some (lookup2 (UseBalances.balances (UseBalances.hook p)) k a) →
      is_Some (lookup2 (UseBalances.balances (UseBalances.hook
        (foldl (UseBalances.triggerChunk gb ua c) p chunks))) k a)).
    { induction chunks as [|ch chunks IH]; intros p Hp; simpl; [done|].
      apply IH. rewrite triggerChunk_unfold.
      cbn [UseBalances.hook UseBalances.set_error UseBalances.balances].
      by apply published_balances_never_shrink. }
    by apply Hfold.
Qed.

Section merge_algebra.
Context `{AddressTools}.
Import UseBalances.

Lemma applyMerge_owner h m :
  ref_address (data (applyMerge h m)) = toAddress (Some (m_owner m)).
Proof. done. Qed.

Lemma applyMerge_nonce h m :
  ref_nonce (data (applyMerge h m)) =
    (if bool_decide (toAddress (Some (m_owner m)) = ref_address (data h))
     then ref_nonce (data h) else 0) + 1.
Proof.
  unfold applyMerge, updateBalancesCall.
  cbn [fst data set_balances set_data bump ref_nonce]. by rewrite adoptOwner_nonce.
Qed.

Lemma applyMerge_cell h m k a :
  lookup2 (ref_balances (data (applyMerge h m))) k a =
    let base := ref_balances (adoptOwner (toAddress (Some (m_owner m))) (data h)) in
    if decide (k = JNum (m_chain m))
    then match m_partial m !! a with
         | Some x => Some (spreadToken (lookup2 base k a) x)
         | None => lookup2 base k a
         end
    else lookup2 base k a.
Proof.
  unfold applyMerge, updateBalancesCall.
  cbn [fst data set_balances set_data bump ref_balances].
  rewrite lookup2_storeEntries. cbv zeta. case_decide; [by subst|done].
Qed.

Lemma applyMerge_published h m k a :
  lookup2 (balances (applyMerge h m)) k a =
    if decide (k = JNum (m_chain m))
    then match lookup2 (ref_balances (data (applyMerge h m))) k a with
         | Some x => Some x
         | None => lookup2 (balances h) k a
         end
    else lookup2 (balances h) k a.
Proof.
  unfold applyMerge, updateBalancesCall.
  cbn [fst data balances set_balances set_data bump ref_balances].
  by rewrite lookup2_publishChain.
Qed.

(** A second merge for the owner of the first finds the cell as the first
    left it. *)
Lemma applyMerge_again h m1 m2 :
  toAddress (Some (m_owner m1)) = toAddress (Some (m_owner m2)) →
  adoptOwner (toAddress (Some (m_owner m2))) (data (applyMerge h m1))
    = data (applyMerge h m1).
Proof. intros Ho. apply adoptOwner_same. by rewrite applyMerge_owner. Qed.

Lemma spreadToken_twice old x :
  spreadToken (Some (spreadToken old x)) x = spreadToken old x.
Proof.
  destruct old as [o|]; destruct x as [? ? ? ? ? [u|] ? [p|] ?]; reflexivity.
Qed.

End merge_algebra.

Section merge_algebra2.
Context `{AddressTools}.
Import UseBalances.

Lemma applyMerge_cell_again h m1 m2 k a :
  toAddress (Some (m_owner m1)) = toAddress (Some (m_owner m2)) →
  lookup2 (ref_balances (data (applyMerge (applyMerge h m1) m2))) k a =
    if decide (k = JNum (m_chain m2))
    then match m_partial m2 !! a with
         | Some x => Some (spreadToken
                             (lookup2 (ref_balances (data (applyMerge h m1))) k a) x)
         | None => lookup2 (ref_balances (data (applyMerge h m1))) k a
         end
    else lookup2 (ref_balances (data (applyMerge h m1))) k a.
Proof.
  intros Ho. rewrite (applyMerge_cell (applyMerge h m1) m2). cbv zeta.
  by rewrite (applyMerge_again h m1 m2 Ho).
Qed.

Lemma applyMerge_cell_kept h m1 m2 k a :
  toAddress (Some (m_owner m1)) = toAddress (Some (m_owner m2)) →
  lookup2 (ref_balances (data (applyMerge (applyMerge h m1) m2))) k a = None →
  lookup2 (ref_balances (data (applyMerge h m1))) k a = None.
Proof.
  intros Ho. rewrite applyMerge_cell_again by done.
  case_decide; [|done]. by destruct (m_partial m2 !! a).
Qed.

End merge_algebra2.

(** X14: two merges for one owner commute when they are for different
    chains or carry no address in common: the cell, the published balances,
    the nonce and the tracked owner are the same in either order. *)
Theorem merges_of_different_keys_commute `{AddressTools}
    (h : UseBalances.Hook) (m1 m2 : Merge) :
  toAddress (Some (m_owner m1)) = toAddress (Some (m_owner m2)) →
  (m_chain m1 ≠ m_chain m2
   ∨ ∀ a, m_partial m1 !! a = None ∨ m_partial m2 !! a = None) →
  let h12 := applyMerge (applyMerge h m1) m2 in
  let h21 := applyMerge (applyMerge h m2) m1 in
  UseBalances.ref_nonce (UseBalances.data h12) = UseBalances.ref_nonce (UseBalances.data h21)
  ∧ UseBalances.ref_address (UseBalances.data h12)
      = UseBalances.ref_address (UseBalances.data h21)
  ∧ ∀ k a,
      lookup2 (UseBalances.ref_balances (UseBalances.data h12)) k a
        = lookup2 (UseBalances.ref_balances (UseBalances.data h21)) k a
      ∧ lookup2 (UseBalances.balances h12) k a = lookup2 (UseBalances.balances h21) k a.
Proof.
  intros Ho Hkeys h12 h21. subst h12 h21.
  assert (Hcell : ∀ k a,
    lookup2 (UseBalances.ref_balances (UseBalances.data (applyMerge (applyMerge h m1) m2))) k a
    = lookup2 (UseBalances.ref_balances (UseBalances.data (applyMerge (applyMerge h m2) m1))) k a).
  { intros k a. rewrite !applyMerge_cell_again by done.
    rewrite !applyMerge_cell. cbv zeta. rewrite <- Ho.
    destruct Hkeys as [Hc|Ha].
    - destruct (decide (k = JNum (m_chain m1))) as [E1|?],
               (decide (k = JNum (m_chain m2))) as [E2|?]; try done.
      exfalso. apply Hc. congruence.
    - destruct (Ha a) as [E|E]; rewrite E;
        repeat case_decide; try done;
        destruct (m_partial m1 !! a), (m_partial m2 !! a); done. }
  split.
  { rewrite !applyMerge_nonce, !applyMerge_owner. rewrite <- Ho.
    by rewrite !(bool_decide_eq_true_2 (toAddress (Some (m_owner m1))
                                        = toAddress (Some (m_owner m1)))). }
  split; [by rewrite !applyMerge_owner|].
  intros k a. split; [apply Hcell|].
  rewrite (applyMerge_published (applyMerge h m1) m2).
  rewrite (applyMerge_published (applyMerge h m2) m1).
  rewrite !(applyMerge_published h).
  destruct (decide (k = JNum (m_chain m1))) as [E1|E1],
           (decide (k = JNum (m_chain m2))) as [E2|E2]; try done.
  - rewrite Hcell.
    destruct (lookup2 _ k a) as [x|] eqn:E21; [done|].
    pose proof E21 as E12. rewrite <- Hcell in E12.
    apply applyMerge_cell_kept in E21; [|done].
    apply applyMerge_cell_kept in E12; [|done].
    by rewrite E12, E21.
  - rewrite <- Hcell, applyMerge_cell_again by done.
    by rewrite decide_False.
  - rewrite Hcell, applyMerge_cell_again by done.
    by rewrite decide_False.
Qed.

(** X15: a merge delivered twice changes nothing but the nonce: the cell
    and the published balances are as after the first delivery, and the
    nonce has counted both. *)
Theorem repeated_merge_changes_only_the_nonce `{AddressTools}
    (h : UseBalances.Hook) (m : Merge) k a :
  lookup2 (UseBalances.ref_balances (UseBalances.data (applyMerge (applyMerge h m) m))) k a
    = lookup2 (UseBalances.ref_balances (UseBalances.data (applyMerge h m))) k a
  ∧ lookup2 (UseBalances.balances (applyMerge (applyMerge h m) m)) k a
    = lookup2 (UseBalances.balances (applyMerge h m)) k a
  ∧ UseBalances.ref_nonce (UseBalances.data (applyMerge (applyMerge h m) m))
    = UseBalances.ref_nonce (UseBalances.data (applyMerge h m)) + 1.
Proof.
  assert (Hcell :
    lookup2 (UseBalances.ref_balances (UseBalances.data (applyMerge (applyMerge h m) m))) k a
    = lookup2 (UseBalances.ref_balances (UseBalances.data (applyMerge h m))) k a).
  { rewrite (applyMerge_cell_again h m m k a eq_refl).
    case_decide as Hk; [|done].
    destruct (m_partial m !! a) as [x|] eqn:E; [|done].
    rewrite applyMerge_cell. cbv zeta. rewrite decide_True, E by done.
    by rewrite spreadToken_twice. }
  split; [done|]. split.
  - rewrite (applyMerge_published (applyMerge h m) m), Hcell.
    case_decide as Hk; [|done].
    rewrite !(applyMerge_published h m), !decide_True by done.
    clear Hcell. by destruct (lookup2 (UseBalances.ref_balances _) k a).
  - rewrite (applyMerge_nonce (applyMerge h m) m), applyMerge_owner.
    by rewrite bool_decide_eq_true_2.
Qed.

Section refresh_counts.
Context `{AddressTools}.
Import UseBalances.
Variable getBalances :
  JsNum → option string → list TUseBalancesTokens → TDict TToken * option string.
Variables (ownerArg userAddress : option string) (chainID : Z).

Local Abbreviation step := (fetchChunk getBalances ownerArg userAddress chainID).
Local Abbreviation tstep := (triggerChunk getBalances userAddress chainID).

Lemma fold_nonce_same chunks p :
  ref_address (data (hook p)) = toAddress userAddress →
  ref_nonce (data (hook (foldl step p chunks)))
    = ref_nonce (data (hook p)) + Z.of_nat (length chunks).
Proof.
  revert p. induction chunks as [|ch chunks IH]; intros p Ho; simpl length.
  - simpl. lia.
  - cbn [foldl]. rewrite IH by apply step_owner.
    rewrite fetchChunk_unfold. cbn [hook data bump ref_nonce].
    rewrite adoptOwner_nonce, bool_decide_eq_true_2 by done. lia.
Qed.

Lemma fold_nonce chunks p :
  chunks ≠ [] →
  ref_nonce (data (hook (foldl step p chunks)))
    = (if bool_decide (toAddress userAddress = ref_address (data (hook p)))
       then ref_nonce (data (hook p)) else 0) + Z.of_nat (length chunks).
Proof.
  destruct chunks as [|ch chunks]; [done|]. intros _.
  cbn [foldl]. rewrite fold_nonce_same by apply step_owner.
  rewrite fetchChunk_unfold. cbn [hook data bump ref_nonce].
  rewrite adoptOwner_nonce. simpl length. lia.
Qed.

Lemma trigger_fold_nonce_same chunks p :
  ref_address (data (hook p)) = toAddress (Some (toAddress userAddress)) →
  ref_nonce (data (hook (foldl tstep p chunks)))
    = ref_nonce (data (hook p)) + Z.of_nat (length chunks).
Proof.
  revert p. induction chunks as [|ch chunks IH]; intros p Ho; simpl length.
  - simpl. lia.
  - cbn [foldl]. rewrite IH by (by rewrite triggerChunk_unfold).
    rewrite triggerChunk_unfold. unfold updateBalancesCall.
    cbn [hook fst data set_error set_balances set_data bump ref_nonce].
    rewrite adoptOwner_nonce, bool_decide_eq_true_2 by done. lia.
Qed.

Lemma trigger_fold_nonce chunks p :
  chunks ≠ [] →
  ref_nonce (data (hook (foldl tstep p chunks)))
    = (if bool_decide (toAddress (Some (toAddress userAddress))
                       = ref_address (data (hook p)))
       then ref_nonce (data (hook p)) else 0) + Z.of_nat (length chunks).
Proof.
  destruct chunks as [|ch chunks]; [done|]. intros _.
  cbn [foldl]. rewrite trigger_fold_nonce_same by (by rewrite triggerChunk_unfold).
  rewrite triggerChunk_unfold. unfold updateBalancesCall.
  cbn [hook fst data set_error set_balances set_data bump ref_nonce].
  rewrite adoptOwner_nonce. simpl length. lia.
Qed.

Lemma reportedErrors_cons ch chunks :
  reportedErrors getBalances ownerArg chainID (ch :: chunks) =
    match (getBalances (js_or (JNum chainID) (JNum 1)) ownerArg ch).2 with
    | Some e => e :: reportedErrors getBalances ownerArg chainID chunks
    | None => reportedErrors getBalances ownerArg chainID chunks
    end.
Proof. reflexivity. Qed.

Lemma fold_error chunks p :
  error (hook (foldl step p chunks)) =
    match list.last (reportedErrors getBalances ownerArg chainID chunks) with
    | Some e => Some e
    | None => error (hook p)
    end.
Proof.
  revert p. induction chunks as [|ch chunks IH]; intros p; [done|].
  cbn [foldl]. rewrite IH, reportedErrors_cons.
  rewrite fetchChunk_unfold. cbn [hook error].
  destruct (getBalances _ ownerArg ch).2 as [e|]; [|done].
  rewrite last_cons. by destruct (list.last _).
Qed.

(** When what runs during the awaits does not write the cell, the cell
    after the batches is the one the batches alone make. *)
Lemma fetchChunks_data during chunks i p p' :
  leavesTheCell during →
  data (hook p) = data (hook p') →
  data (hook (fetchChunks getBalances during ownerArg userAddress chainID i p chunks))
    = data (hook (foldl step p' chunks)).
Proof.
  intros Hleaves. revert i p p'.
  induction chunks as [|ch chunks IH]; intros i p p' Hd; [done|].
  rewrite fetchChunks_cons. cbn [foldl]. apply IH.
  rewrite !fetchChunk_unfold. cbn [hook data awaited]. by rewrite Hleaves, Hd.
Qed.

End refresh_counts.

(** X16: when what runs while the calls are awaited does not write the
    cell, the nonce counts the batches of a refresh: after a full refresh
    or a refresh of some tokens the nonce is the one before plus the number
    of calls made when the owner is the tracked one, the number of calls
    when it is another one, and unchanged when no call was made. A batch
    counts whether its read failed or not. *)
Theorem refresh_nonce_counts_its_batches `{AddressTools}
    (getBalances : JsNum → option string → list TUseBalancesTokens
                   → TDict TToken * option string)
    (during : UseBalances.Interference)
    (userAddress : option string) (chainID : Z)
    (tokens : list TUseBalancesTokens) (h : UseBalances.Hook) :
  leavesTheCell during →
  UseBalances.ref_nonce (UseBalances.data (UseBalances.hook
      (UseBalances.onUpdate getBalances during userAddress chainID tokens h)))
    = countedNonce (toAddress userAddress) (UseBalances.data h)
        (length (UseBalances.calls
           (UseBalances.onUpdate getBalances during userAddress chainID tokens h)))
  ∧ UseBalances.ref_nonce (UseBalances.data (UseBalances.hook
      (UseBalances.onUpdateSome getBalances during userAddress chainID tokens h)))
    = countedNonce (toAddress userAddress) (UseBalances.data h)
        (length (UseBalances.calls
           (UseBalances.onUpdateSome getBalances during userAddress chainID tokens h))).
Proof.
  intros Hleaves.
  assert (Hcount : ∀ owner d (chunks : list (list TUseBalancesTokens)) n,
    (chunks = [] → n = UseBalances.ref_nonce d) →
    (chunks ≠ [] → n = (if bool_decide (owner = UseBalances.ref_address d)
                        then UseBalances.ref_nonce d else 0)
                       + Z.of_nat (length chunks)) →
    n = countedNonce owner d (length chunks)).
  { intros owner d [|ch chunks] n H0 H1; [by apply H0|]. by apply H1. }
  split.
  - destruct (onUpdate_progress getBalances during userAddress chainID tokens h)
      as (h0 & Hd & _ & _ & Hcalls & _ & Hdata & _).
    rewrite Hcalls, Hdata, fetchChunks_calls, app_nil_l, length_fmap.
    rewrite (fetchChunks_data getBalances userAddress userAddress chainID during _ 0 _
               {| UseBalances.hook := h0; UseBalances.updated := ∅;
                  UseBalances.calls := []; UseBalances.events := [] |} Hleaves eq_refl).
    apply Hcount.
    + intros ->. simpl. by rewrite Hd.
    + intros Hne. rewrite fold_nonce by done. cbn [UseBalances.hook]. by rewrite Hd.
  - unfold UseBalances.onUpdateSome.
    cbn [UseBalances.hook UseBalances.calls UseBalances.data
         UseBalances.set_status UseBalances.set_balances].
    rewrite fetchChunks_calls, app_nil_l, length_fmap.
    rewrite (fetchChunks_data getBalances (Some (toAddress userAddress)) userAddress
               chainID during _ 0 _
               {| UseBalances.hook := UseBalances.set_status UseBalances.loadingStatus h;
                  UseBalances.updated := ∅; UseBalances.calls := [];
                  UseBalances.events := [] |} Hleaves eq_refl).
    apply Hcount.
    + intros ->. done.
    + intros Hne. by rewrite fold_nonce.
Qed.

(** X17: with nothing else running while the calls are awaited, neither
    a full refresh nor a refresh of some tokens clears the error:
    afterwards the error is the one the last failing batch reported, and
    the error from before when no batch failed. *)
Theorem refresh_keeps_the_last_error `{AddressTools}
    (getBalances : JsNum → option string → list TUseBalancesTokens
                   → TDict TToken * option string)
    (userAddress : option string) (chainID : Z)
    (tokenList : list TUseBalancesTokens) (h : UseBalances.Hook) :
  let batches := UseBalances.chunksOf 500 (keptTokens chainID tokenList) in
  UseBalances.error (UseBalances.hook
      (UseBalances.onUpdate getBalances UseBalances.quiet userAddress chainID
         tokenList h))
    = match list.last (reportedErrors getBalances userAddress chainID batches) with
      | Some e => Some e
      | None => UseBalances.error h
      end
  ∧ UseBalances.error (UseBalances.hook
      (UseBalances.onUpdateSome getBalances UseBalances.quiet userAddress chainID
         tokenList h))
    = match list.last (reportedErrors getBalances (Some (toAddress userAddress))
                         chainID batches) with
      | Some e => Some e
      | None => UseBalances.error h
      end.
Proof.
  cbv zeta. split.
  - unfold UseBalances.onUpdate, keptTokens.
    case_bool_decide as Hlen.
    { apply nil_length_inv in Hlen. by rewrite Hlen. }
    destruct (UseBalances.tokensOfChain chainID ∅ _) as [|t kept]; [done|].
    rewrite fetchChunks_quiet.
    cbn [UseBalances.hook UseBalances.error UseBalances.set_status
         UseBalances.set_balances].
    by rewrite fold_error.
  - unfold UseBalances.onUpdateSome, keptTokens. rewrite fetchChunks_quiet.
    cbn [UseBalances.hook UseBalances.error UseBalances.set_status
         UseBalances.set_balances].
    by rewrite fold_error.
Qed.

(** X18: a full refresh that has no token of the active chain with a
    non-zero address calls nothing and returns nothing, and leaves the
    cell, the published balances and the error as they are. When all the
    addresses are the zero address the status is untouched as well;
    otherwise the status is set to loading and stays so. *)
Theorem full_refresh_with_nothing_to_fetch `{AddressTools}
    (getBalances : JsNum → option string → list TUseBalancesTokens
                   → TDict TToken * option string)
    (during : UseBalances.Interference)
    (userAddress : option string) (chainID : Z)
    (tokenList : list TUseBalancesTokens) (h : UseBalances.Hook) :
  (∀ t, t ∈ tokenList → isZeroAddress (Some (ub_address t)) = false →
        ub_chainID t ≠ JNum chainID) →
  let r := UseBalances.onUpdate getBalances during userAddress chainID tokenList h in
  UseBalances.calls r = [] ∧ UseBalances.updated r = ∅
  ∧ UseBalances.data (UseBalances.hook r) = UseBalances.data h
  ∧ UseBalances.balances (UseBalances.hook r) = UseBalances.balances h
  ∧ UseBalances.error (UseBalances.hook r) = UseBalances.error h
  ∧ UseBalances.status (UseBalances.hook r) =
      if forallb (λ t, isZeroAddress (Some (ub_address t))) tokenList
      then UseBalances.status h else UseBalances.loadingStatus.
Proof.
  intros Hoff. cbv zeta. unfold UseBalances.onUpdate.
  set (tokens := filter _ tokenList).
  assert (Hkept : UseBalances.tokensOfChain chainID ∅ tokens = []).
  { destruct (UseBalances.tokensOfChain chainID ∅ tokens) as [|t kept] eqn:E; [done|].
    assert (Hin : t ∈ UseBalances.tokensOfChain chainID ∅ tokens)
      by (rewrite E; by left).
    apply tokensOfChain_elem in Hin as (Hin & Hc%strict_neq_false & _).
    apply list_elem_of_filter in Hin as [Hnz Hin].
    by destruct (Hoff t Hin Hnz). }
  assert (Hzero : forallb (λ t, isZeroAddress (Some (ub_address t))) tokenList
                  = bool_decide (length tokens = 0%nat)).
  { subst tokens. clear. induction tokenList as [|t l IH]; [done|].
    cbn [forallb]. destruct (isZeroAddress (Some (ub_address t))) eqn:E.
    - rewrite filter_cons_False by (by rewrite E). by rewrite IH.
    - rewrite filter_cons_True by done. done. }
  rewrite Hzero, Hkept. by case_bool_decide.
Qed.

(** X19: a refresh of some tokens issues the batches a full refresh of the
    same list issues, for the normalized owner, and ends in the success
    status also when there was nothing to fetch. *)
Theorem refresh_of_some_tokens_batches `{AddressTools}
    (getBalances : JsNum → option string → list TUseBalancesTokens
                   → TDict TToken * option string)
    (during during' : UseBalances.Interference)
    (userAddress : option string) (chainID : Z)
    (tokenList : list TUseBalancesTokens) (h : UseBalances.Hook) :
  let r := UseBalances.onUpdateSome getBalances during userAddress chainID
             tokenList h in
  UseBalances.calls r
    = callOf (Some (toAddress userAddress)) chainID
        <$> UseBalances.chunksOf 500 (keptTokens chainID tokenList)
  ∧ UseBalances.call_tokens <$> UseBalances.calls r
    = UseBalances.call_tokens <$> UseBalances.calls
        (UseBalances.onUpdate getBalances during' userAddress chainID tokenList h)
  ∧ UseBalances.status (UseBalances.hook r) = UseBalances.successStatus.
Proof.
  cbv zeta.
  assert (Hcalls : UseBalances.calls
      (UseBalances.onUpdateSome getBalances during userAddress chainID tokenList h)
    = callOf (Some (toAddress userAddress)) chainID
        <$> UseBalances.chunksOf 500 (keptTokens chainID tokenList)).
  { unfold UseBalances.onUpdateSome. cbn [UseBalances.calls].
    by rewrite fetchChunks_calls. }
  split; [done|]. split; [|done].
  rewrite Hcalls, onUpdate_calls. rewrite <- !list_fmap_compose.
  by apply list_fmap_ext.
Qed.

(* ===================================================================== *)
(** ** Further properties of the wallet controller and of its networks    *)
(* ===================================================================== *)

Lemma wrappedChainTokens_chains chainID :
  is_Some (WagmiUtils.wrappedChainTokens chainID)
  ↔ chainID ∈ [1; 10; 137; 250; 1101; 8453; 42161; 1337].
Proof.
  unfold WagmiUtils.wrappedChainTokens. rewrite !elem_of_cons, elem_of_nil.
  repeat case_bool_decide; subst;
    (split; [first [by intros [? [=]] | intros _; auto 10]
            | first [intros _; by eexists | intros Hor; exfalso; intuition congruence]]).
Qed.

Section network_facts.
Import UseWallet WagmiUtils.
Variables localhost anotherLocalhost : Chain.
Variable JSON_RPC_URL : Z → option string.

Local Abbreviation extend := (extendChain localhost anotherLocalhost JSON_RPC_URL).
Local Abbreviation index := (initIndexedWagmiChains localhost anotherLocalhost JSON_RPC_URL).

Lemma index_origin (wagmiChains : list ModuleExport) k network :
  index wagmiChains !! k = Some network →
  k = JNum (x_id network)
  ∧ ∃ chain, ChainExport chain ∈ wagmiChains ∧ network = extend chain.
Proof.
  unfold initIndexedWagmiChains.
  assert (Hgen : ∀ acc : TNDict TExtendedChain,
    (∀ k n, acc !! k = Some n →
       k = JNum (x_id n) ∧ ∃ chain, ChainExport chain ∈ wagmiChains ∧ n = extend chain) →
    ∀ exports, (∀ e, e ∈ exports → e ∈ wagmiChains) →
    ∀ k n, foldl (λ acc export,
             match export with
             | ChainExport chain => <[JNum (x_id (extend chain)) := extend chain]> acc
             | OtherExport => acc
             end) acc exports !! k = Some n →
       k = JNum (x_id n) ∧ ∃ chain, ChainExport chain ∈ wagmiChains ∧ n = extend chain).
  { intros acc Hacc exports. revert acc Hacc.
    induction exports as [|e exports IH]; intros acc Hacc Hsub k' n; [by apply Hacc|].
    cbn [foldl]. apply IH; [|intros e' He'; apply Hsub; by right].
    destruct e as [chain|]; [|done].
    intros k'' n'. rewrite lookup_insert. case_decide as Hk.
    - intros [= <-]. split; [done|]. exists chain. split; [|done].
      apply Hsub. by left.
    - apply Hacc. }
  apply (Hgen ∅); [|done].
  intros k' n. by rewrite lookup_empty.
Qed.

Lemma strOr_not_empty a b : b ≠ "" → strOr a b ≠ "".
Proof.
  intros Hb. unfold strOr. destruct a as [s|]; [|done]. by case_bool_decide.
Qed.

Lemma extend_explorer chain : x_defaultBlockExplorer (extend chain) ≠ "".
Proof.
  unfold extendChain. cbn [x_defaultBlockExplorer].
  destruct (chain_blockExplorers _) as [[etherscan explorer]|]; [|done].
  by apply strOr_not_empty, strOr_not_empty.
Qed.

End network_facts.

(** X20: the index of the networks is keyed by the chain's own id. The
    network [getNetwork] returns for a chain has that chain as its id, the
    wrapped token, Alchemy URL and Infura URL of the tables for that id,
    and a block explorer that is not the empty string; it is the record
    built from one of the chains exported. *)
Theorem getNetwork_returns_the_chain_asked
    (localhost anotherLocalhost : WagmiUtils.Chain)
    (JSON_RPC_URL : Z → option string) (String_of_number : Z → string)
    (wagmiChains : list WagmiUtils.ModuleExport) (chainID : Z)
    (network : WagmiUtils.TExtendedChain) :
  WagmiUtils.getNetwork String_of_number
    (WagmiUtils.initIndexedWagmiChains localhost anotherLocalhost JSON_RPC_URL wagmiChains)
    chainID = Returns network →
  WagmiUtils.x_id network = chainID
  ∧ WagmiUtils.x_wrappedToken network = WagmiUtils.wrappedChainTokens chainID
  ∧ WagmiUtils.x_alchemy network = WagmiUtils.getAlchemyBaseURL chainID
  ∧ WagmiUtils.x_infura network = WagmiUtils.getInfuraBaseURL chainID
  ∧ WagmiUtils.x_defaultBlockExplorer network ≠ ""
  ∧ ∃ chain, WagmiUtils.ChainExport chain ∈ wagmiChains
             ∧ network = WagmiUtils.extendChain localhost anotherLocalhost
                           JSON_RPC_URL chain.
Proof.
  unfold WagmiUtils.getNetwork.
  destruct (_ !! JNum chainID) as [n|] eqn:E; [|done]. intros [= ->].
  apply index_origin in E as ([= Hid] & chain & Hin & ->).
  rewrite Hid. do 4 (split; [done|]).
  split; [apply extend_explorer|]. by exists chain.
Qed.

(** X21: the tokens the wallet asks the balances of are those of the
    current network list, in the order of the list, followed by the native
    coin when the chain is one of the eight chains with a wrapped token;
    on a chain that is not indexed, computing them throws. *)
Theorem available_tokens_of_a_network `{AddressTools}
    (ETH_TOKEN_ADDRESS : string) (String_of_number : Z → string)
    (localhost anotherLocalhost : WagmiUtils.Chain)
    (JSON_RPC_URL : Z → option string)
    (wagmiChains : list WagmiUtils.ModuleExport)
    (currentNetworkTokenList : UseWallet.TListedDict TToken) (safeChainID : Z) :
  let indexed := WagmiUtils.initIndexedWagmiChains localhost anotherLocalhost
                   JSON_RPC_URL wagmiChains in
  WalletNetworks.availableTokensOf ETH_TOKEN_ADDRESS String_of_number indexed
      currentNetworkTokenList safeChainID
    = match indexed !! JNum safeChainID with
      | None => Throws ("Chain " +:+ String_of_number safeChainID +:+ " is not supported")
      | Some _ =>
          Returns
            ((UseWallet.toBalancesToken <$> UseWallet.Object_values currentNetworkTokenList)
             ++ match WagmiUtils.wrappedChainTokens safeChainID with
                | Some w => [{| ub_address := toAddress (Some ETH_TOKEN_ADDRESS);
                                ub_chainID := JNum safeChainID;
                                ub_decimals := Some 18;
                                ub_name := Some (UseWallet.wt_coinName w);
                                ub_symbol := Some (UseWallet.wt_coinSymbol w) |}]
                | None => []
                end)
      end
  ∧ (is_Some (WagmiUtils.wrappedChainTokens safeChainID)
     ↔ safeChainID ∈ [1; 10; 137; 250; 1101; 8453; 42161; 1337]).
Proof.
  cbv zeta. split; [|apply wrappedChainTokens_chains].
  unfold WalletNetworks.availableTokensOf, WagmiUtils.getNetwork.
  destruct (_ !! JNum safeChainID) as [n|] eqn:E; [|done].
  apply index_origin in E as ([= Hid] & chain & Hin & ->).
  cbn [bindC]. f_equal. unfold UseWallet.availableTokens.
  replace (WagmiUtils.x_wrappedToken _) with (WagmiUtils.wrappedChainTokens safeChainID)
    by (by rewrite Hid).
  destruct (WagmiUtils.wrappedChainTokens safeChainID) as [w|] eqn:Ew;
    [|by rewrite app_nil_r].
  assert (Hd : UseWallet.wt_decimals w = 18).
  { unfold WagmiUtils.wrappedChainTokens in Ew.
    repeat case_bool_decide; by simplify_eq. }
  by rewrite Hd.
Qed.

(** X22: a refresh with a list fetches nothing, and returns the balances
    as they are, when every token of the list has the normalized address of
    a token of the current network list, or that of the native coin on a
    chain that has one; so does a refresh with the current network list
    itself. *)
Theorem refresh_with_known_list_fetches_nothing `{AddressTools}
    (ETH_TOKEN_ADDRESS : string)
    (onUpdate : TChainTokens)
    (onUpdateSome : list TUseBalancesTokens → TChainTokens)
    (currentNetworkTokenList newTokenList : UseWallet.TListedDict TToken)
    (safeChainID : Z)
    (wrappedToken : option UseWallet.TWrappedChainToken) (balances : TChainTokens) :
  (∀ token, token ∈ UseWallet.Object_values newTokenList →
     (∃ known, known ∈ UseWallet.Object_values currentNetworkTokenList
               ∧ toAddress (Some (address known)) = toAddress (Some (address token)))
     ∨ (is_Some wrappedToken
        ∧ toAddress (Some ETH_TOKEN_ADDRESS) = toAddress (Some (address token)))) →
  let available := UseWallet.availableTokens ETH_TOKEN_ADDRESS currentNetworkTokenList
                     safeChainID wrappedToken in
  UseWallet.onRefreshWithList onUpdate onUpdateSome available balances newTokenList
    = (None, balances)
  ∧ UseWallet.onRefreshWithList onUpdate onUpdateSome available balances
      currentNetworkTokenList = (None, balances).
Proof.
  intros Hknown available.
  assert (Hnone : ∀ list : UseWallet.TListedDict TToken,
    (∀ token, token ∈ UseWallet.Object_values list →
       (∃ known, known ∈ UseWallet.Object_values currentNetworkTokenList
                 ∧ toAddress (Some (address known)) = toAddress (Some (address token)))
       ∨ (is_Some wrappedToken
          ∧ toAddress (Some ETH_TOKEN_ADDRESS) = toAddress (Some (address token)))) →
    UseWallet.onRefreshWithList onUpdate onUpdateSome available balances list
      = (None, balances)).
  { intros list Hlist. rewrite onRefreshWithList_outcome.
    destruct (UseWallet.tokensToFetch available list) as [|t rest] eqn:E; [done|].
    assert (Hin : t ∈ UseWallet.tokensToFetch available list) by (rewrite E; by left).
    apply elem_of_tokensToFetch in Hin as [(listed & Hin & ->) Hnew].
    exfalso. destruct (Hlist listed Hin) as [(known & Hk & Heq)|[[w Hw] Heq]].
    - apply (Hnew (UseWallet.toBalancesToken known)); [|done].
      subst available. unfold UseWallet.availableTokens.
      assert (UseWallet.toBalancesToken known
              ∈ UseWallet.toBalancesToken <$> UseWallet.Object_values currentNetworkTokenList)
        by (by apply list_elem_of_fmap_2).
      destruct wrappedToken; [by apply elem_of_app; left|done].
    - subst available wrappedToken. unfold UseWallet.availableTokens in Hnew.
      eapply Hnew; [apply elem_of_app; right; by left|]. done. }
  split; [by apply Hnone|]. apply Hnone.
  intros token Hin. left. by exists token.
Qed.

(** X23: when the default token carries the zero balance, [getBalance] is
    the balance of what [getToken] returns, on every chain and for every
    address. *)
Theorem getBalance_reads_getToken `{AddressTools} (DEFAULT_ERC20 : TToken)
    (balances : TChainTokens) (address : string) (chainID : JsNum) :
  balance DEFAULT_ERC20 = zeroNormalizedBN →
  UseWallet.getBalance balances address chainID
    = balance (UseWallet.getToken DEFAULT_ERC20 balances address chainID).
Proof.
  intros Hzero. unfold UseWallet.getBalance, UseWallet.getToken.
  by destruct (lookup2 balances _ address).
Qed.

Section trigger_more.
Context `{AddressTools}.
Import UseBalances.

Lemma refreshTrigger_fetches_only_the_chain getBalances userAddress chainID tokens h call t :
  call ∈ calls (refreshTrigger getBalances userAddress chainID tokens h) →
  t ∈ call_tokens call →
  t ∈ tokens ∧ ub_chainID t = JNum chainID.
Proof.
  rewrite refreshTrigger_calls. intros (chunk & -> & Hchunk)%list_elem_of_fmap Ht.
  cbn [triggerCallOf call_tokens] in Ht.
  assert (Hin : t ∈ tokensOfChain chainID ∅ tokens).
  { apply (chunksOf_elem 500 _ chunk); [lia|done|done]. }
  apply tokensOfChain_elem in Hin as (Hin & Hc%strict_neq_false & _). done.
Qed.

Lemma refreshTrigger_tokens getBalances userAddress chainID tokens h :
  concat (call_tokens <$> calls (refreshTrigger getBalances userAddress chainID tokens h))
    = tokensOfChain chainID ∅ tokens.
Proof.
  rewrite refreshTrigger_calls, <- list_fmap_compose.
  transitivity (concat (id <$> chunksOf 500 (tokensOfChain chainID ∅ tokens)));
    [reflexivity|].
  rewrite list_fmap_id. apply chunksOf_concat. lia.
Qed.

End trigger_more.

(** X24: the automatic refresh asks for nothing but tokens of its list
    that are of the active chain, on that chain and for the owner as given;
    over all its calls it asks for a normalized address at most once. *)
Theorem automatic_refresh_fetches_only_the_chain `{AddressTools}
    (getBalances : JsNum → option string → list TUseBalancesTokens
                   → TDict TToken * option string)
    (userAddress : option string) (chainID : Z)
    (tokens : list TUseBalancesTokens) (h : UseBalances.Hook) :
  let r := UseBalances.refreshTrigger getBalances userAddress chainID tokens h in
  (∀ call t, call ∈ UseBalances.calls r → t ∈ UseBalances.call_tokens call →
     t ∈ tokens ∧ ub_chainID t = JNum chainID
     ∧ UseBalances.call_chain call = JNum chainID
     ∧ UseBalances.call_owner call = userAddress)
  ∧ NoDup (normalizedAddress
             <$> concat (UseBalances.call_tokens <$> UseBalances.calls r)).
Proof.
  cbv zeta. split.
  - intros call t Hcall Ht.
    destruct (refreshTrigger_fetches_only_the_chain _ _ _ _ _ _ _ Hcall Ht) as [Hin Hc].
    split; [done|]. split; [done|].
    rewrite refreshTrigger_calls in Hcall.
    by apply list_elem_of_fmap in Hcall as (chunk & -> & _).
  - rewrite refreshTrigger_tokens. apply tokensOfChain_NoDup.
Qed.

(* ===================================================================== *)
(** ** Properties of the web3 context                                     *)
(* ===================================================================== *)

Section web3_facts.
Context `{AddressTools}.
Import WagmiUtils UseWeb3.
Variable toLocaleLowerCase : string → string.

Lemma js_or_truthy a z : z ≠ 0 → truthy (js_or a (JNum z)) = true.
Proof.
  intros Hz. unfold js_or. destruct (truthy a) eqn:E; [done|].
  simpl. by rewrite bool_decide_eq_false_2.
Qed.

Lemma truthy_number v : truthy v = true → ∃ z, v = JNum z ∧ z ≠ 0.
Proof.
  destruct v as [z| |]; simpl; [|done..].
  intros Hz%negb_true_iff%bool_decide_eq_false. by exists z.
Qed.

Lemma contextValue_returns w currentChainID ctx :
  contextValue toLocaleLowerCase w currentChainID = Returns ctx →
  ∃ injectedConnector,
    List.find (λ e, bool_decide (toLocaleLowerCase (connector_id e) = "injected"))
              (w_connectors w) = Some injectedConnector
    ∧ ctx_chainID ctx = (if w_isConnected w
                         then js_or (chainIdOf (w_chain w)) (JNum 1)
                         else js_or currentChainID (JNum 1))
    ∧ ctx_isActive ctx =
        w_isConnected w
        && includes ((chain_id <$> filter (λ c, chain_id c ≠ 1337)
                                     (connector_chains injectedConnector)) ++ [1337])
                    (js_or (chainIdOf (w_chain w)) (JNum (-1)))
        && w_isMounted w.
Proof.
  unfold contextValue, supportedChainsID.
  destruct (List.find _ (w_connectors w)) as [inj|]; [|done].
  cbn [bindC]. intros [= <-]. by exists inj.
Qed.

(** Taking chain 1337 out of the chains and putting it back does not
    change which ids the list holds, apart from 1337 itself. *)
Lemma includes_without_testnet (chains : list Chain) v :
  includes ((chain_id <$> filter (λ c, chain_id c ≠ 1337) chains) ++ [1337]) v = true
  ↔ ∃ z, v = JNum z ∧ (z = 1337 ∨ z ∈ chain_id <$> chains).
Proof.
  destruct v as [z| |]; simpl; [|split; [done|by intros (? & ? & _)]..].
  rewrite bool_decide_eq_true, elem_of_app, list_elem_of_fmap.
  split.
  - intros [(c & -> & [_ Hc]%list_elem_of_filter)|Hz%list_elem_of_singleton].
    + exists (chain_id c). split; [done|]. right. by apply list_elem_of_fmap_2.
    + exists z. split; [done|]. by left.
  - intros (z' & [= <-] & [->|(c & -> & Hc)%list_elem_of_fmap]).
    + right. by apply list_elem_of_singleton.
    + destruct (decide (chain_id c = 1337)) as [->|Hne].
      * right. by apply list_elem_of_singleton.
      * left. exists c. split; [done|]. by apply list_elem_of_filter.
Qed.

End web3_facts.

(** X25: the chain the web3 context announces is never falsy: it is an
    integer other than 0, whether the wallet is connected or not and
    whatever the wallet and the state hold; so [getToken] of the wallet,
    asked for that chain, reads that chain and never falls back to
    chain 1. *)
Theorem context_chain_is_never_falsy `{AddressTools}
    (toLocaleLowerCase : string → string) (w : UseWeb3.Wagmi)
    (currentChainID : JsNum) (ctx : UseWeb3.TWeb3Context)
    (DEFAULT_ERC20 : TToken) (balances : TChainTokens) (address : string) :
  UseWeb3.contextValue toLocaleLowerCase w currentChainID = Returns ctx →
  (∃ z, UseWeb3.ctx_chainID ctx = JNum z ∧ z ≠ 0)
  ∧ UseWallet.getToken DEFAULT_ERC20 balances address (UseWeb3.ctx_chainID ctx)
    = default DEFAULT_ERC20 (lookup2 balances (UseWeb3.ctx_chainID ctx) address).
Proof.
  intros (inj & _ & Hc & _)%contextValue_returns.
  assert (Ht : truthy (UseWeb3.ctx_chainID ctx) = true).
  { rewrite Hc. destruct (UseWeb3.w_isConnected w); by apply js_or_truthy. }
  split; [by apply truthy_number|].
  unfold UseWallet.getToken, js_or. by rewrite Ht.
Qed.

(** X26: the context is active exactly when the wallet is connected, the
    component is mounted and the id of the wallet's chain, or -1 when the
    wallet has no chain or chain 0, is 1337 or the id of a chain of the
    injected connector. Leaving chain 1337 out of the supported chains
    changes nothing. *)
Theorem context_is_active_on_injected_chains `{AddressTools}
    (toLocaleLowerCase : string → string) (w : UseWeb3.Wagmi)
    (currentChainID : JsNum) (ctx : UseWeb3.TWeb3Context) :
  UseWeb3.contextValue toLocaleLowerCase w currentChainID = Returns ctx →
  ∃ injectedConnector,
    List.find (λ e, bool_decide (toLocaleLowerCase (UseWeb3.connector_id e) = "injected"))
              (UseWeb3.w_connectors w) = Some injectedConnector
    ∧ (UseWeb3.ctx_isActive ctx = true ↔
       UseWeb3.w_isConnected w = true ∧ UseWeb3.w_isMounted w = true
       ∧ ∃ z, js_or (UseWeb3.chainIdOf (UseWeb3.w_chain w)) (JNum (-1)) = JNum z
              ∧ (z = 1337
                 ∨ z ∈ WagmiUtils.chain_id <$> UseWeb3.connector_chains injectedConnector)).
Proof.
  intros (inj & Hfind & _ & Ha)%contextValue_returns.
  exists inj. split; [done|]. rewrite Ha.
  rewrite !andb_true_iff, includes_without_testnet. tauto.
Qed.

(** X27: a switch of chain is read back by the context. With the wallet
    disconnected the context announces the chain asked for, or chain 1
    when chain 0 was asked for; with the wallet connected it keeps
    announcing the wallet's chain. The chain is stored before the wallet is
    called, so this holds also when the switch throws. *)
Theorem switched_chain_is_read_back `{AddressTools}
    (toLocaleLowerCase : string → string) (w : UseWeb3.Wagmi)
    (newChainID : Z) (currentChainID : JsNum) (ctx : UseWeb3.TWeb3Context) :
  UseWeb3.contextValue toLocaleLowerCase w
    (UseWeb3.onSwitchChain w newChainID currentChainID).1 = Returns ctx →
  UseWeb3.ctx_chainID ctx =
    if UseWeb3.w_isConnected w
    then js_or (UseWeb3.chainIdOf (UseWeb3.w_chain w)) (JNum 1)
    else if bool_decide (newChainID = 0) then JNum 1 else JNum newChainID.
Proof.
  intros (inj & _ & Hc & _)%contextValue_returns. rewrite Hc.
  destruct (UseWeb3.w_isConnected w); [done|].
  cbn [fst UseWeb3.onSwitchChain]. unfold js_or. simpl.
  by case_bool_decide.
Qed.

(* ===================================================================== *)
(** ** The further statements on examples                                 *)
(* ===================================================================== *)

Section registry_more_examples.
Import WithTokenList TokenListContext Samples MoreSamples WalletSamples.

Lemma base_lists_survive_rejected_uris_witness :
  wellFormed [Rejected; baseDoc] ∧
  is_Some (lookup2 (tokenList (runBaseTrigger [Rejected; baseDoc] initialState))
                   (JNum 1) (toAddress (Some addrX))).
Proof.
  assert (Hwf : wellFormed [Rejected; baseDoc]) by (repeat constructor; by eexists).
  split; [exact Hwf|].
  refine (proj1 (base_lists_survive_rejected_uris [Rejected; baseDoc] initialState
            {| tokens := Some [entry addrX "BASE" 1] |} [entry addrX "BASE" 1]
            (entry addrX "BASE" 1) Hwf _ eq_refl _)).
  - apply list_elem_of_further, list_elem_of_here.
  - apply list_elem_of_here.
Defined.

Lemma extra_lists_keep_the_first_entry_witness :
  wellFormed [Rejected; docOf [entryBoth addrX "FIRST" 1 10]; docOf [entry addrX "SECOND" 1]] ∧
  lookup2 (tokenListExtra
             (runExtraTrigger
                [Rejected; docOf [entryBoth addrX "FIRST" 1 10];
                 docOf [entry addrX "SECOND" 1]] initialState))
          (JNum 1) addrX
    = Some (mkToken (entryBoth addrX "FIRST" 1 10) (JNum 10)).
Proof.
  assert (Hwf : wellFormed [Rejected; docOf [entryBoth addrX "FIRST" 1 10];
                            docOf [entry addrX "SECOND" 1]])
    by (repeat constructor; by eexists).
  split; [exact Hwf|].
  rewrite (extra_lists_keep_the_first_entry _ initialState (JNum 1) addrX Hwf).
  vm_compute. reflexivity.
Defined.

Lemma loadedTwice_wellBuilt :
  wellBuilt (runExtraTrigger [overrideDoc] (runBaseTrigger [baseDoc] initialState)).
Proof.
  apply (wellBuilt_of_lists [entry addrX "BASE" 1] [entry addrX "OVERRIDE" 1] []);
    repeat constructor; by exists 1.
Qed.

Lemma registry_tokens_are_fresh_witness :
  loaded (runExtraTrigger [overrideDoc] (runBaseTrigger [baseDoc] initialState)) ∧
  ∃ registry,
    aggregatedTokenList
      (runExtraTrigger [overrideDoc] (runBaseTrigger [baseDoc] initialState))
      = Returns registry ∧
    lookup2 registry (JNum 1) addrX
      = Some (mkToken (entry addrX "OVERRIDE" 1) (JNum 1)) ∧
    balance (mkToken (entry addrX "OVERRIDE" 1) (JNum 1)) = zeroNormalizedBN.
Proof.
  assert (Hl : loaded (runExtraTrigger [overrideDoc]
                         (runBaseTrigger [baseDoc] initialState)))
    by (apply loaded_extra, loaded_base, loaded_initial).
  split; [exact Hl|].
  destruct (aggregated_lookup _ loadedTwice_wellBuilt) as (registry & Hr & Hlook).
  assert (Ht : lookup2 registry (JNum 1) addrX
               = Some (mkToken (entry addrX "OVERRIDE" 1) (JNum 1)))
    by (rewrite Hlook; vm_compute; reflexivity).
  exists registry. split; [exact Hr|]. split; [exact Ht|].
  exact (proj2 (proj2 (proj2
           (registry_tokens_are_fresh _ registry (JNum 1) addrX _ Hl Hr Ht)))).
Defined.

Lemma listedTwice_wellBuilt : wellBuilt listedTwice.
Proof.
  apply wellBuilt_of_lists; repeat constructor; by exists 1.
Qed.

Lemma getToken_follows_the_tests_witness :
  wellBuilt listedTwice ∧
  ∃ registry, aggregatedTokenList listedTwice = Returns registry ∧
    getToken registry addrX (JNum 1)
      = Some (mkToken (entry addrX "OVERRIDE" 1) (JNum 1)).
Proof.
  split; [exact listedTwice_wellBuilt|].
  destruct (getToken_follows_the_tests listedTwice addrX (JNum 1) listedTwice_wellBuilt)
    as (registry & Hr & Hg).
  exists registry. split; [exact Hr|]. rewrite Hg. vm_compute. reflexivity.
Defined.

Lemma added_token_reaches_the_registry_later_witness :
  wellBuilt listedTwice ∧ chainID (held addrX 1 0) = JNum 1 ∧
  isCustomToken (view_state (addCustomTokenInPlace (held addrX 1 0) (render listedTwice)))
    addrX (JNum 1) = true ∧
  (∃ before,
     view_registry (addCustomTokenInPlace (held addrX 1 0) (render listedTwice))
       = Returns before ∧
     getToken before addrX (JNum 1)
       = Some (mkToken (entry addrX "OVERRIDE" 1) (JNum 1))) ∧
  ∃ after,
    view_registry (replaced (set_tokenList ∅)
                     (addCustomTokenInPlace (held addrX 1 0) (render listedTwice)))
      = Returns after ∧
    getToken after addrX (JNum 1) = Some (held addrX 1 0).
Proof.
  assert (Hw : wellKeyed (∅ : TNDict (TDict TToken))).
  { intros k a t. by rewrite lookup2_empty. }
  destruct (added_token_reaches_the_registry_later listedTwice (held addrX 1 0) 1 ∅
              listedTwice_wellBuilt eq_refl numericKeys_empty Hw)
    as (Hc & (before & Hb & Hgb) & after & Ha & Hga).
  split; [exact listedTwice_wellBuilt|]. split; [reflexivity|].
  split; [exact Hc|]. split.
  - exists before. split; [exact Hb|]. refine (eq_trans Hgb _). vm_compute. reflexivity.
  - exists after. split; [exact Ha|]. exact Hga.
Defined.

Lemma emptied_store_keeps_custom_tokens_witness :
  entry addrX "MINE" 1 ∈ [entry addrX "MINE" 1] ∧
  isCustomToken
    (runCustomTrigger (Some [])
       (runCustomTrigger (Some [entry addrX "MINE" 1]) initialState))
    addrX (JNum 1) = true.
Proof.
  assert (Hin : entry addrX "MINE" 1 ∈ [entry addrX "MINE" 1])
    by apply list_elem_of_here.
  split; [exact Hin|].
  exact (proj1 (emptied_store_keeps_custom_tokens initialState _ _ Hin)).
Defined.

End registry_more_examples.

Section legacy_examples.
Import WithTokenList WithTokenListLegacy Samples MoreSamples WalletSamples.

Lemma legacy_registry_is_single_chain_witness :
  legacyLoaded 1 (WithTokenListLegacy.runBaseTrigger 1 [baseDoc]
                    WithTokenListLegacy.initialState) ∧
  WithTokenListLegacy.aggregatedTokenList
    (WithTokenListLegacy.runBaseTrigger 1 [baseDoc] WithTokenListLegacy.initialState)
    !! addrX = Some (mkToken (entry addrX "BASE" 1) (JNum 1)) ∧
  chainID (mkToken (entry addrX "BASE" 1) (JNum 1)) = JNum 1.
Proof.
  assert (Hl : legacyLoaded 1 (WithTokenListLegacy.runBaseTrigger 1 [baseDoc]
                                 WithTokenListLegacy.initialState))
    by (apply legacy_base, legacy_initial).
  assert (Hx : WithTokenListLegacy.aggregatedTokenList
      (WithTokenListLegacy.runBaseTrigger 1 [baseDoc] WithTokenListLegacy.initialState)
      !! addrX = Some (mkToken (entry addrX "BASE" 1) (JNum 1)))
    by (vm_compute; reflexivity).
  split; [exact Hl|]. split; [exact Hx|].
  exact (proj1 (legacy_registry_is_single_chain 1 _ addrX _ Hl Hx)).
Defined.

Lemma legacy_registry_precedence_witness :
  wellFormed [docOf [entry addrX "OTHER" 10; entry addrX "BASE" 1]] ∧
  wellFormed [] ∧
  WithTokenListLegacy.getToken
    (WithTokenListLegacy.runCustomTrigger 1 (Some [])
      (WithTokenListLegacy.runExtraTrigger 1 []
        (WithTokenListLegacy.runBaseTrigger 1
           [docOf [entry addrX "OTHER" 10; entry addrX "BASE" 1]]
           WithTokenListLegacy.initialState)))
    addrX
  = Some (mkToken (entry addrX "BASE" 1) (JNum 1)).
Proof.
  assert (Hb : wellFormed [docOf [entry addrX "OTHER" 10; entry addrX "BASE" 1]])
    by (repeat constructor; by eexists).
  assert (He : wellFormed []) by constructor.
  split; [exact Hb|]. split; [exact He|].
  rewrite (legacy_registry_precedence 1 _ [] [] addrX Hb He).
  vm_compute. reflexivity.
Defined.

End legacy_examples.

Section balances_more_examples.
Import UseBalances Samples MoreSamples WalletSamples.

Lemma batches_partition_the_list_witness :
  (0 < 2)%nat ∧
  concat (chunksOf 2 [wanted addrX 1; wanted addrY 1; wanted addrA 1])
    = [wanted addrX 1; wanted addrY 1; wanted addrA 1].
Proof.
  assert (Hs : (0 < 2)%nat) by lia.
  split; [exact Hs|].
  exact (proj1 (batches_partition_the_list 2
                  [wanted addrX 1; wanted addrY 1; wanted addrA 1] Hs)).
Defined.

Lemma hookA1_reachable : reachable hookA1.
Proof.
  apply (reachable_step initialHook); [apply reachable_initial|].
  apply (op_merge addrA 1 (m_partial mergeA) initialHook).
Qed.

Lemma status_is_never_error_witness :
  reachable hookA1 ∧ isError (status hookA1) = false.
Proof.
  split; [exact hookA1_reachable|].
  exact (proj1 (status_is_never_error hookA1 hookA1_reachable)).
Defined.

Lemma published_balances_cover_the_cell_witness :
  reachable hookA1 ∧
  lookup2 (ref_balances (data hookA1)) (JNum 1) addrX = Some (held addrX 1 5) ∧
  lookup2 (balances hookA1) (JNum 1) addrX = Some (held addrX 1 5).
Proof.
  assert (Hx : lookup2 (ref_balances (data hookA1)) (JNum 1) addrX
               = Some (held addrX 1 5)) by (vm_compute; reflexivity).
  split; [exact hookA1_reachable|]. split; [exact Hx|].
  exact (proj1 (published_balances_cover_the_cell hookA1 (JNum 1) addrX _
                  hookA1_reachable Hx)).
Defined.

Lemma published_entries_are_never_removed_witness :
  operation hookA1 hookAB ∧
  is_Some (lookup2 (balances hookA1) (JNum 1) addrX) ∧
  is_Some (lookup2 (balances hookAB) (JNum 1) addrX).
Proof.
  assert (Hop : operation hookA1 hookAB)
    by apply (op_merge addrB 1 (m_partial mergeB) hookA1).
  assert (Hs : is_Some (lookup2 (balances hookA1) (JNum 1) addrX))
    by (eexists; vm_compute; reflexivity).
  split; [exact Hop|]. split; [exact Hs|].
  exact (published_entries_are_never_removed hookA1 hookAB (JNum 1) addrX Hop Hs).
Defined.

Lemma merges_of_different_keys_commute_witness :
  toAddress (Some (m_owner mergeA)) = toAddress (Some (m_owner mergeA10)) ∧
  m_chain mergeA ≠ m_chain mergeA10 ∧
  ref_nonce (data (applyMerge (applyMerge initialHook mergeA) mergeA10))
    = ref_nonce (data (applyMerge (applyMerge initialHook mergeA10) mergeA)) ∧
  lookup2 (balances (applyMerge (applyMerge initialHook mergeA) mergeA10)) (JNum 10) addrY
    = lookup2 (balances (applyMerge (applyMerge initialHook mergeA10) mergeA))
              (JNum 10) addrY.
Proof.
  assert (Hc : m_chain mergeA ≠ m_chain mergeA10) by (simpl; lia).
  destruct (merges_of_different_keys_commute initialHook mergeA mergeA10 eq_refl
              (or_introl Hc)) as (Hn & _ & Hl).
  split; [reflexivity|]. split; [exact Hc|]. split; [exact Hn|].
  exact (proj2 (Hl (JNum 10) addrY)).
Defined.

Lemma refresh_nonce_counts_its_batches_witness :
  leavesTheCell startsLoading ∧
  ref_nonce (data (hook
      (onUpdate echo startsLoading (Some addrA) 1 [wanted addrX 1; wanted addrY 1]
         hookA1)))
    = 2 ∧
  ref_nonce (data (hook
      (onUpdate echo startsLoading (Some addrB) 1 [wanted addrX 1; wanted addrY 1]
         hookA1)))
    = 1.
Proof.
  assert (Hleaves : leavesTheCell startsLoading) by (intros i h; reflexivity).
  split; [exact Hleaves|]. split.
  - refine (eq_trans (proj1 (refresh_nonce_counts_its_batches echo startsLoading
                               (Some addrA) 1 [wanted addrX 1; wanted addrY 1] hookA1
                               Hleaves)) _).
    vm_compute. reflexivity.
  - refine (eq_trans (proj1 (refresh_nonce_counts_its_batches echo startsLoading
                               (Some addrB) 1 [wanted addrX 1; wanted addrY 1] hookA1
                               Hleaves)) _).
    vm_compute. reflexivity.
Defined.

Lemma full_refresh_with_nothing_to_fetch_witness :
  (∀ t, t ∈ [wanted addrX 10] → isZeroAddress (Some (ub_address t)) = false →
        ub_chainID t ≠ JNum 1) ∧
  calls (onUpdate echo startsLoading (Some addrA) 1 [wanted addrX 10] initialHook) = [] ∧
  status (hook (onUpdate echo startsLoading (Some addrA) 1 [wanted addrX 10]
                  initialHook))
    = loadingStatus.
Proof.
  assert (Hoff : ∀ t, t ∈ [wanted addrX 10] →
            isZeroAddress (Some (ub_address t)) = false → ub_chainID t ≠ JNum 1).
  { intros t Hin%list_elem_of_singleton _. subst t. discriminate. }
  destruct (full_refresh_with_nothing_to_fetch echo startsLoading (Some addrA) 1
              [wanted addrX 10] initialHook Hoff) as (Hc & _ & _ & _ & _ & Hs).
  split; [exact Hoff|]. split; [exact Hc|].
  refine (eq_trans Hs _). vm_compute. reflexivity.
Defined.

End balances_more_examples.

Section wallet_more_examples.
Import UseWallet WagmiUtils WalletNetworks UseWeb3 Samples MoreSamples WalletSamples.

Lemma getNetwork_returns_the_chain_asked_witness :
  WagmiUtils.getNetwork printed
    (initIndexedWagmiChains localChain localChain noEnvironment
       [OtherExport; ChainExport mainnet]) 1
    = Returns (extendChain localChain localChain noEnvironment mainnet) ∧
  x_id (extendChain localChain localChain noEnvironment mainnet) = 1 ∧
  x_wrappedToken (extendChain localChain localChain noEnvironment mainnet)
    = wrappedChainTokens 1.
Proof.
  assert (Hn : WagmiUtils.getNetwork printed
      (initIndexedWagmiChains localChain localChain noEnvironment
         [OtherExport; ChainExport mainnet]) 1
    = Returns (extendChain localChain localChain noEnvironment mainnet))
    by (vm_compute; reflexivity).
  destruct (getNetwork_returns_the_chain_asked localChain localChain noEnvironment
              printed [OtherExport; ChainExport mainnet] 1 _ Hn) as (Hid & Hw & _).
  split; [exact Hn|]. split; [exact Hid|exact Hw].
Defined.

Lemma available_tokens_of_a_network_witness :
  availableTokensOf ethAddress printed
      (initIndexedWagmiChains localChain localChain noEnvironment
         [OtherExport; ChainExport mainnet]) listedYThenX 1
    = Returns [toBalancesToken (held addrY 1 0); toBalancesToken (held addrX 1 0);
               {| ub_address := ethAddress; ub_chainID := JNum 1;
                  ub_decimals := Some 18; ub_name := Some "Ether";
                  ub_symbol := Some "ETH" |}].
Proof.
  refine (eq_trans (proj1 (available_tokens_of_a_network ethAddress printed
                             localChain localChain noEnvironment
                             [OtherExport; ChainExport mainnet] listedYThenX 1)) _).
  vm_compute. reflexivity.
Defined.

Lemma refresh_with_known_list_fetches_nothing_witness :
  (∀ token, token ∈ Object_values [(addrX, held addrX 1 0)] →
     (∃ known, known ∈ Object_values [(addrX, held addrX 1 0)]
               ∧ toAddress (Some (address known)) = toAddress (Some (address token)))
     ∨ (is_Some (Some ether)
        ∧ toAddress (Some ethAddress) = toAddress (Some (address token)))) ∧
  onRefreshWithList ∅ (λ _, ∅)
    (availableTokens ethAddress [(addrX, held addrX 1 0)] 1 (Some ether))
    balancesX [(addrX, held addrX 1 0)]
    = (None, balancesX).
Proof.
  assert (Hk : ∀ token,
     token ∈ Object_values [(addrX, held addrX 1 0)] →
     (∃ known, known ∈ Object_values [(addrX, held addrX 1 0)]
               ∧ toAddress (Some (address known)) = toAddress (Some (address token)))
     ∨ (is_Some (Some ether)
        ∧ toAddress (Some ethAddress) = toAddress (Some (address token)))).
  { intros token Hin. left. by exists token. }
  split; [exact Hk|].
  exact (proj1 (refresh_with_known_list_fetches_nothing ethAddress ∅ (λ _, ∅)
                  [(addrX, held addrX 1 0)] [(addrX, held addrX 1 0)] 1
                  (Some ether) balancesX Hk)).
Defined.

Lemma getBalance_reads_getToken_witness :
  balance defaultToken = zeroNormalizedBN ∧
  getBalance balancesX addrX (JNum 1)
    = balance (getToken defaultToken balancesX addrX (JNum 1)) ∧
  getBalance balancesX addrY (JNum 1)
    = balance (getToken defaultToken balancesX addrY (JNum 1)).
Proof.
  split; [reflexivity|]. split.
  - exact (getBalance_reads_getToken defaultToken balancesX addrX (JNum 1) eq_refl).
  - exact (getBalance_reads_getToken defaultToken balancesX addrY (JNum 1) eq_refl).
Defined.

Lemma idle_context :
  ∃ ctx, contextValue lowercase idle (JNum 0) = Returns ctx.
Proof. eexists. reflexivity. Qed.

Lemma context_chain_is_never_falsy_witness :
  ∃ ctx,
    contextValue lowercase idle (JNum 0) = Returns ctx ∧
    ∃ z, ctx_chainID ctx = JNum z ∧ z ≠ 0.
Proof.
  destruct idle_context as [ctx Hctx].
  exists ctx. split; [exact Hctx|].
  exact (proj1 (context_chain_is_never_falsy lowercase idle (JNum 0) ctx defaultToken
                  balancesX addrX Hctx)).
Defined.

Lemma connected_context :
  ∃ ctx, contextValue lowercase connected JUndef = Returns ctx.
Proof. eexists. reflexivity. Qed.

Lemma connected_injected :
  List.find (λ e, bool_decide (lowercase (connector_id e) = "injected"))
            (w_connectors connected) = Some injected.
Proof. reflexivity. Qed.

Lemma context_is_active_on_injected_chains_witness :
  ∃ ctx,
    contextValue lowercase connected JUndef = Returns ctx ∧
    ctx_isActive ctx = true.
Proof.
  destruct connected_context as [ctx Hctx].
  destruct (context_is_active_on_injected_chains lowercase connected JUndef ctx Hctx)
    as (found & Hfind & Hactive).
  exists ctx. split; [exact Hctx|]. apply Hactive.
  split; [reflexivity|]. split; [reflexivity|]. exists 1. split; [reflexivity|].
  right. rewrite connected_injected in Hfind. apply (inj Some) in Hfind. subst found.
  apply list_elem_of_here.
Defined.

Lemma switched_context :
  ∃ ctx, contextValue lowercase idle (onSwitchChain idle 10 (JNum 1)).1 = Returns ctx.
Proof. eexists. reflexivity. Qed.

Lemma switched_chain_is_read_back_witness :
  ∃ ctx,
    contextValue lowercase idle (onSwitchChain idle 10 (JNum 1)).1 = Returns ctx ∧
    ctx_chainID ctx = JNum 10.
Proof.
  destruct switched_context as [ctx Hctx]. exists ctx. split; [exact Hctx|].
  exact (switched_chain_is_read_back lowercase idle 10 (JNum 1) ctx Hctx).
Defined.

End wallet_more_examples.
